(** * sbc_flows: hypothesis-testing utilities, PP-values, L-C2ST and HPD regions

    A shallow embedding of the numerical core of the repository:
    - [valdiags/test_utils.py]          ([compute_pvalue], [eval_htest])
    - [diagnostics/pp_plots.py]         ([PP_vals])
    - [valdiags/localC2ST.py]           ([train_lc2st], [eval_lc2st], [lc2st_scores],
                                         [t_stats_lc2st])
    - [valdiags/confidence_regions.py]  ([hpd_region], [waldo_confidence_region])
    - the SBC bands and the SBC curves of [plots_neurips2022.py] and
      [plots_neurips2023_new.py]
    - the test statistic of [eval_clf_null] in [script_margaret_local_c2st.py].

    Finite floating-point numbers are modelled by the rationals they denote
    ([Q]) and the arithmetic on them is exact: the rounding of the
    floating-point sums, quotients and interpolations is not modelled, so a
    computed value stands for the float the code returns up to that
    rounding.  The one non-finite value the modelled code produces from
    finite inputs, the [nan] of a mean over an empty array or of a quotient
    [0/0], is kept explicit.
    Python dictionaries keyed by metric names are [gmap string _]; Python
    exceptions are the [Raise] results of a small error monad. *)

From Stdlib Require Import QArith Qabs Qround Lqa Lia.
From stdpp Require Import gmap strings list fin_maps sorting.

(** ** Python exceptions as results *)

Inductive exn : Type :=
| KeyError (key : string)
| TypeError
| ValueError
| IndexError
| ZeroDivisionError.

Inductive result (A : Type) : Type :=
| Ok (a : A)
| Raise (e : exn).
Arguments Ok {A} a.
Arguments Raise {A} e.

(** Sequencing: the first exception raised ends the computation. *)
#[global] Instance result_ret : MRet result := @Ok.
#[global] Instance result_bind : MBind result := fun A B k r =>
  match r with
  | Ok a => k a
  | Raise e => Raise e
  end.

(** [d[k]] on a Python dictionary. *)
Definition getitem {V : Type} (d : gmap string V) (k : string) : result V :=
  match d !! k with
  | Some v => Ok v
  | None => Raise (KeyError k)
  end.

(** ** The fragment of NumPy the code relies on *)

Module NumPy.

(** The result of a floating-point reduction. *)
Inductive float : Type :=
| Fin (q : Q)
| NaN.

(** Booleans are summed as 0 and 1. *)
Definition of_bool (b : bool) : Q := if b then 1%Q else 0%Q.

Definition sum (a : list Q) : Q := foldr Qplus 0%Q a.

(** [np.mean(a)]: the sum over the number of entries, [nan] on an empty
    array. *)
Definition mean (a : list Q) : float :=
  match a with
  | [] => NaN
  | _ :: _ => Fin (sum a / inject_Z (Z.of_nat (length a)))
  end.

(** [x < y] and [x <= y] on finite floats. *)
Definition ltb (x y : Q) : bool := negb (Qle_bool y x).
Definition leb (x y : Q) : bool := Qle_bool x y.

(** [t < a] and [a <= t], broadcast over an array. *)
Definition less (t : Q) (a : list Q) : list bool := map (ltb t) a.
Definition less_equal (a : list Q) (t : Q) : list bool := map (fun x => leb x t) a.

(** [p < alpha] where [p] may be [nan]: every comparison with [nan] is
    [False]. *)
Definition float_ltb (p : float) (alpha : Q) : bool :=
  match p with
  | Fin q => ltb q alpha
  | NaN => false
  end.

#[export] Instance Qlt_decision (x y : Q) : Decision (x < y)%Q :=
  match Qlt_le_dec x y with
  | left H => left H
  | right H => right (Qle_not_lt _ _ H)
  end.

#[export] Instance Qle_decision (x y : Q) : Decision (x <= y)%Q :=
  match Qlt_le_dec y x with
  | left H => right (Qlt_not_le _ _ H)
  | right H => left H
  end.

(** Equality of floating-point results, up to the representation of the
    rational. *)
Definition float_eq (p q : float) : Prop :=
  match p, q with
  | Fin x, Fin y => (x == y)%Q
  | NaN, NaN => True
  | _, _ => False
  end.

(** Number of [True] entries of a boolean array. *)
Definition count_true (bs : list bool) : nat := length (filter (fun b => b = true) bs).

End NumPy.

(** ** valdiags/test_utils.py *)

Module TestUtils.
Import NumPy.

(** [(t_stat_est < np.array(t_stats_null)).mean()] *)
Definition compute_pvalue (t_stat_est : Q) (t_stats_null : list Q) : float :=
  mean (map of_bool (less t_stat_est t_stats_null)).

(** The estimator handed to [eval_htest], with its keyword arguments fixed:
    from the metric names to the observed statistics and the null samples,
    both keyed by metric. *)
Definition estimator : Type :=
  list string -> result (gmap string Q * gmap string (list Q)).

(** The body of [for m in metrics:] in [eval_htest]. *)
Definition eval_htest_step (t_stat_data : gmap string Q)
    (t_stats_null : gmap string (list Q)) (conf_alpha : Q)
    (reject : gmap string bool) (m : string) : result (gmap string bool) :=
  t ← getitem t_stat_data m;
  nulls ← getitem t_stats_null m;
  let p_value := compute_pvalue t nulls in
  mret (<[m := float_ltb p_value conf_alpha]> reject).

Fixpoint eval_htest_loop (t_stat_data : gmap string Q)
    (t_stats_null : gmap string (list Q)) (conf_alpha : Q)
    (reject : gmap string bool) (metrics : list string) : result (gmap string bool) :=
  match metrics with
  | [] => Ok reject
  | m :: rest =>
      reject' ← eval_htest_step t_stat_data t_stats_null conf_alpha reject m;
      eval_htest_loop t_stat_data t_stats_null conf_alpha reject' rest
  end.

Definition eval_htest (t_stats_estimator : estimator) (metrics : list string)
    (conf_alpha : Q) : result (gmap string bool) :=
  '(t_stat_data, t_stats_null) ← t_stats_estimator metrics;
  eval_htest_loop t_stat_data t_stats_null conf_alpha ∅ metrics.

End TestUtils.

(** ** diagnostics/pp_plots.py *)

Module PPPlots.
Import NumPy.

(** [[np.mean(PIT_values <= alpha) for alpha in alphas]] *)
Definition PP_vals (PIT_values alphas : list Q) : list float :=
  map (λ alpha, mean (map of_bool (less_equal PIT_values alpha))) alphas.

End PPPlots.

(** ** valdiags/localC2ST.py *)

Module LocalC2ST.
Import NumPy.

(** The parameters [Q] of the source shadow the type of the rationals. *)
Abbreviation rat := QArith_base.Q (only parsing).

(** A two-dimensional array, as the list of its rows. *)
Abbreviation matrix := (list (list QArith_base.Q)).

(** An array is [n x d] when it has [n] rows of [d] entries each. *)
Definition has_shape (A : matrix) (n d : nat) : Prop :=
  length A = n ∧ Forall (λ row, length row = d) A.

(** [np.concatenate([A, B], axis=1)]: the rows are joined pairwise; the two
    arrays must have the same number of rows. *)
Definition concatenate_axis1 (A B : matrix) : result matrix :=
  if decide (length A = length B) then Ok (zip_with app A B) else Raise ValueError.

(** [x.repeat(n, 1)] on a two-dimensional [torch] tensor [x]: the tensor is
    tiled [n] times along its rows. The observations of this repository are
    [torch] tensors of shape [(1, n_features)] (the plotting code passes
    [observation[:, :, 0]] and prints [x_eval.numpy()]). *)
Definition repeat (x : matrix) (n : nat) : matrix := mjoin (replicate n x).

(** [A[index]] with an array of row indices. *)
Definition take_rows (A : matrix) (index : list nat) : result matrix :=
  mapM (λ i, match A !! i with Some row => Ok row | None => Raise IndexError end) index.

(** The value of [np.mean(..., axis=0)] over a list of arrays: an array, or
    the scalar [nan] when the list is empty. *)
Inductive ndarray : Type :=
| Array (a : list rat)
| NaNScalar.

Definition add_arrays (a b : list rat) : list rat := zip_with Qplus a b.

(** [np.mean(arrays, axis=0)]: the arrays must have one common length. *)
Definition mean_axis0 (arrays : list (list rat)) : result ndarray :=
  match arrays with
  | [] => Ok NaNScalar
  | a :: rest =>
      if decide (Forall (λ b, length b = length a) rest) then
        let total := foldl add_arrays a rest in
        Ok (Array (map (λ x, x / inject_Z (Z.of_nat (length arrays)))%Q total))
      else Raise ValueError
  end.

(** ["accuracy" in m] on strings. *)
Fixpoint contains (sub s : string) : bool :=
  String.prefix sub s ||
  match s with
  | EmptyString => false
  | String _ s' => contains sub s'
  end.

(** *** sklearn's [KFold(n_splits, shuffle=True, random_state=42).split]

    [fold_sizes] gives the first [n % k] folds one index more than [n // k];
    the folds are consecutive slices of the shuffled indices ([reshape]
    cuts a list into pieces of the given sizes); each one is
    turned into a boolean mask over [arange(n)], so that the train and the
    validation indices come out in increasing order. *)

Definition fold_sizes (n_samples n_splits : nat) : list nat :=
  replicate (n_samples mod n_splits) (n_samples / n_splits + 1)%nat
  ++ replicate (n_splits - n_samples mod n_splits) (n_samples / n_splits)%nat.

Definition train_val_index (n_samples : nat) (test : list nat) : list nat * list nat :=
  (filter (λ i, i ∉ test) (seq 0 n_samples), filter (λ i, i ∈ test) (seq 0 n_samples)).

Definition KFold_split (n_splits : nat) (shuffled : list nat) (n_samples : nat) :
    result (list (list nat * list nat)) :=
  if decide (n_splits ≤ 1)%nat then Raise ValueError
  else if decide (n_samples < n_splits)%nat then Raise ValueError
  else Ok (map (train_val_index n_samples) (reshape (fold_sizes n_samples n_splits) shuffled)).

Section Classifier.

(** The classifier capability: [clf_cfg] is an initialised, unfitted
    classifier, [clf] a fitted one, [rng] the state of the random number
    generator the fit draws from. *)
Context {clf_cfg clf rng : Type}.

(** Computations that may raise and that advance the random state. *)
Definition M (A : Type) : Type := rng → result (A * rng).

#[export] Instance M_ret : MRet M := λ A a s, Ok (a, s).
#[export] Instance M_bind : MBind M := λ A B k c s,
  match c s with
  | Ok (a, s') => k a s'
  | Raise e => Raise e
  end.

(** A computation that does not touch the random state. *)
Definition lift {A : Type} (r : result A) : M A := λ s,
  match r with
  | Ok a => Ok (a, s)
  | Raise e => Raise e
  end.

(** The functions of [valdiags/vanillaC2ST.py] that this file imports:
    [train_c2st(P, Q, clf)] clones and fits the classifier,
    [eval_c2st(P, Q, clf, single_class_eval)] returns the accuracy and the
    predicted probabilities of class 0, and
    [compute_metric(proba, metrics=[m], single_class_eval)[m]] is the value
    of one metric. *)
Variable train_c2st : matrix → matrix → clf_cfg → M clf.
Variable eval_c2st : matrix → option matrix → clf → bool → result (rat * list rat).
Variable compute_metric : ndarray → string → bool → result float.

Definition train_lc2st (P Q x_P x_Q : matrix) (classifier : clf_cfg) : M clf :=
  joint_P_x ← lift (concatenate_axis1 P x_P);
  joint_Q_x ← lift (concatenate_axis1 Q x_Q);
  train_c2st joint_P_x joint_Q_x classifier.

(** The evaluation features of [eval_lc2st] and the [single_class_eval]
    flag it hands to [eval_c2st]. *)
Definition eval_features (P x_eval : matrix) (Q : option matrix)
    (single_class_eval : bool) : result (matrix * option matrix * bool) :=
  P_x_eval ← concatenate_axis1 P (repeat x_eval (length P));
  match Q with
  | Some Q =>
      Q_x_eval ← concatenate_axis1 Q (repeat x_eval (length Q));
      mret (P_x_eval, Some Q_x_eval, single_class_eval)
  | None => mret (P_x_eval, None, true)
  end.

Definition eval_lc2st (P x_eval : matrix) (fitted : clf) (Q : option matrix)
    (single_class_eval : bool) : result (rat * list rat) :=
  '(P_x_eval, Q_x_eval, single_class_eval) ← eval_features P x_eval Q single_class_eval;
  eval_c2st P_x_eval Q_x_eval fitted single_class_eval.

(** [eval_lc2st(P=P_eval, ...)] as [lc2st_scores] calls it: [P_eval] defaults
    to [None], on which [len] raises. *)
Definition eval_lc2st_opt (P_eval : option matrix) (x_eval : matrix) (fitted : clf)
    (Q_eval : option matrix) (single_class_eval : bool) : result (rat * list rat) :=
  match P_eval with
  | Some P => eval_lc2st P x_eval fitted Q_eval single_class_eval
  | None => Raise TypeError
  end.

(** The value stored under metric [m]. *)
Definition score_of (accuracy : float) (probas : ndarray) (single_class_eval : bool)
    (m : string) : result float :=
  if contains "accuracy" m then Ok accuracy
  else compute_metric probas m single_class_eval.

(** [scores = {}; for m in metrics: scores[m] = ...] *)
Fixpoint compute_scores (accuracy : float) (probas : ndarray) (single_class_eval : bool)
    (scores : gmap string float) (metrics : list string) : result (gmap string float) :=
  match metrics with
  | [] => Ok scores
  | m :: rest =>
      v ← score_of accuracy probas single_class_eval m;
      compute_scores accuracy probas single_class_eval (<[m := v]> scores) rest
  end.

(** The loop [for _ in range(n_ensemble)] of the branch [not cross_val]; the
    state of the loop is the pair of the evaluation sets (overwritten by
    [P, Q] when [in_sample]) and the two lists of results. *)
Fixpoint ensemble_loop (n_ensemble : nat) (P Q x_P x_Q x_eval : matrix)
    (P_eval Q_eval : option matrix) (classifier : clf_cfg)
    (single_class_eval in_sample : bool)
    (ens_accuracies : list rat) (ens_probas : list (list rat)) : M (list rat * list (list rat)) :=
  match n_ensemble with
  | O => mret (ens_accuracies, ens_probas)
  | S n =>
      fitted ← train_lc2st P Q x_P x_Q classifier;
      let P_eval := if in_sample then Some P else P_eval in
      let Q_eval := if in_sample then Some Q else Q_eval in
      '(accuracy, proba) ← lift (eval_lc2st_opt P_eval x_eval fitted Q_eval single_class_eval);
      ensemble_loop n P Q x_P x_Q x_eval P_eval Q_eval classifier
        single_class_eval in_sample
        (ens_accuracies ++ [accuracy]) (ens_probas ++ [proba])
  end.

(** [lc2st_scores(..., cross_val=False)] *)
Definition lc2st_scores_ensemble (P Q x_P x_Q x_eval : matrix)
    (P_eval Q_eval : option matrix) (metrics : list string) (classifier : clf_cfg)
    (single_class_eval in_sample : bool) (n_ensemble : nat) :
    M (gmap string float * ndarray) :=
  '(ens_accuracies, ens_probas) ←
    ensemble_loop n_ensemble P Q x_P x_Q x_eval P_eval Q_eval classifier
      single_class_eval in_sample [] [];
  let accuracy := mean ens_accuracies in
  probas ← lift (mean_axis0 ens_probas);
  scores ← lift (compute_scores accuracy probas single_class_eval ∅ metrics);
  mret (scores, probas).

(** [scores[m].append(...)] for every metric, in the cross-validation
    branch. *)
Fixpoint append_scores (accuracy : rat) (proba : list rat) (single_class_eval : bool)
    (scores : gmap string (list float)) (metrics : list string) :
    result (gmap string (list float)) :=
  match metrics with
  | [] => Ok scores
  | m :: rest =>
      v ← score_of (Fin accuracy) (Array proba) single_class_eval m;
      so_far ← getitem scores m;
      append_scores accuracy proba single_class_eval (<[m := so_far ++ [v]]> scores) rest
  end.

(** The loop [for train_index, val_index in kf.split(P)]. *)
Fixpoint cv_loop (folds : list (list nat * list nat)) (P Q x_P x_Q x_eval : matrix)
    (P_eval Q_eval : option matrix) (metrics : list string) (classifier : clf_cfg)
    (single_class_eval : bool)
    (scores : gmap string (list float)) (probas : list (list rat)) :
    M (gmap string (list float) * list (list rat)) :=
  match folds with
  | [] => mret (scores, probas)
  | (train_index, val_index) :: folds' =>
      P_train ← lift (take_rows P train_index);
      x_P_train ← lift (take_rows x_P train_index);
      P_val ← lift (take_rows P val_index);
      P_val ← match P_eval with
              | Some P_eval => lift (take_rows P_eval val_index)
              | None => mret P_val
              end;
      Q_train ← lift (take_rows Q train_index);
      x_Q_train ← lift (take_rows x_Q train_index);
      Q_val ← lift (take_rows Q val_index);
      Q_val ← match Q_eval with
              | Some Q_eval => lift (take_rows Q_eval val_index)
              | None => mret Q_val
              end;
      clf_n ← train_lc2st P_train Q_train x_P_train x_Q_train classifier;
      '(accuracy, proba) ← lift (eval_lc2st P_val x_eval clf_n (Some Q_val) single_class_eval);
      scores ← lift (append_scores accuracy proba single_class_eval scores metrics);
      cv_loop folds' P Q x_P x_Q x_eval P_eval Q_eval metrics classifier
        single_class_eval scores (probas ++ [proba])
  end.

(** The permutation of [arange(n)] that [RandomState(42).shuffle] produces. *)
Variable shuffle : nat → list nat.

(** [lc2st_scores(..., cross_val=True)] *)
Definition lc2st_scores_cross_val (P Q x_P x_Q x_eval : matrix)
    (P_eval Q_eval : option matrix) (metrics : list string) (classifier : clf_cfg)
    (single_class_eval : bool) (n_folds : nat) :
    M (gmap string (list float) * list (list rat)) :=
  let scores := list_to_map (zip metrics (replicate (length metrics) [])) in
  folds ← lift (KFold_split n_folds (shuffle (length P)) (length P));
  cv_loop folds P Q x_P x_Q x_eval P_eval Q_eval metrics classifier
    single_class_eval scores [].

(** The two shapes of the value of [lc2st_scores]. *)
Inductive lc2st_output : Type :=
| EnsembleScores (scores : gmap string float) (probas : ndarray)
| CrossValScores (scores : gmap string (list float)) (probas : list (list rat)).

Definition lc2st_scores (P Q x_P x_Q x_eval : matrix)
    (P_eval Q_eval : option matrix) (metrics : list string) (classifier : clf_cfg)
    (single_class_eval cross_val : bool) (n_folds : nat) (in_sample : bool)
    (n_ensemble : nat) : M lc2st_output :=
  if cross_val then
    '(scores, probas) ← lc2st_scores_cross_val P Q x_P x_Q x_eval P_eval Q_eval
                          metrics classifier single_class_eval n_folds;
    mret (CrossValScores scores probas)
  else
    '(scores, probas) ← lc2st_scores_ensemble P Q x_P x_Q x_eval P_eval Q_eval
                          metrics classifier single_class_eval in_sample n_ensemble;
    mret (EnsembleScores scores probas).

End Classifier.

End LocalC2ST.

(** ** valdiags/confidence_regions.py *)

Module ConfidenceRegions.
Import NumPy.

(** [np.linspace(start, stop, num)] *)
Definition linspace (start stop : Q) (num : nat) : list Q :=
  match num with
  | 0%nat => []
  | 1%nat => [start]
  | _ => map (λ i : nat, start + inject_Z (Z.of_nat i) * ((stop - start)
                          / inject_Z (Z.of_nat (num - 1))))%Q (seq 0 num)
  end.

(** [l[i]] with Python's indexing: a negative index counts from the end. *)
Definition py_index {A : Type} (l : list A) (i : Z) : result A :=
  let j := (if decide (i < 0) then Z.of_nat (length l) + i else i)%Z in
  if decide (j < 0)%Z then Raise IndexError
  else match l !! Z.to_nat j with
       | Some x => Ok x
       | None => Raise IndexError
       end.

(** [posterior_probs >= p_star]: a comparison with [nan] is [False]. *)
Definition greater_equal (a : list float) (p : Q) : list bool :=
  map (λ x, match x with Fin q => leb p q | NaN => false end) a.

(** [a[mask]]: the entries (or rows) selected by a boolean mask of the same
    length. *)
Definition select {A : Type} (a : list A) (mask : list bool) : list A :=
  (filter (λ xb : A * bool, xb.2 = true) (zip a mask)).*1.

(** [torch.sum(a)]: [0] on an empty tensor, [nan] as soon as an entry is
    [nan]. *)
Fixpoint torch_sum (a : list float) : float :=
  match a with
  | [] => Fin 0
  | x :: a' =>
      match x, torch_sum a' with
      | Fin q, Fin s => Fin (q + s)
      | _, _ => NaN
      end
  end.

(** [torch.sum(posterior_probs[posterior_probs >= p_star]).item()] *)
Definition mass_above (posterior_probs : list float) (p_star : Q) : float :=
  torch_sum (select posterior_probs (greater_equal posterior_probs p_star)).

(** The variables of the [while] loop. *)
Record loop_state : Type := LoopState {
  current_confidence_level : Q;
  new_confidence_levels : list float;
  idx : nat
}.

(** One evaluation of the loop condition followed, when it holds and the
    [break] is not taken, by one run of the body. *)
Inductive outcome : Type :=
| Continue (st : loop_state)
| Exit (st : loop_state).

(** The test [np.abs(new - level) < np.abs(current - level)] is [False]
    when [new] is [nan]. *)
Definition hpd_step (posterior_probs : list float) (p_stars : list Q)
    (confidence_level : Q) (n_p_stars : nat) (tol : Q) (st : loop_state) :
    result outcome :=
  if ltb tol (Qabs (current_confidence_level st - confidence_level)) then
    if decide (idx st = n_p_stars) then Ok (Exit st)
    else
      p_star ← py_index p_stars (Z.of_nat (idx st));
      let new_confidence_level := mass_above posterior_probs p_star in
      let current :=
        match new_confidence_level with
        | Fin new =>
            if ltb (Qabs (new - confidence_level))
                   (Qabs (current_confidence_level st - confidence_level))
            then new else current_confidence_level st
        | NaN => current_confidence_level st
        end in
      Ok (Continue {|
        current_confidence_level := current;
        new_confidence_levels := new_confidence_levels st ++ [new_confidence_level];
        idx := idx st + 1 |})
  else Ok (Exit st).

(** The [while] loop, run for at most [fuel] evaluations of its condition;
    [None] when the fuel runs out before the loop exits. *)
Fixpoint hpd_loop (fuel : nat) (posterior_probs : list float) (p_stars : list Q)
    (confidence_level : Q) (n_p_stars : nat) (tol : Q) (st : loop_state) :
    result (option loop_state) :=
  match fuel with
  | O => Ok None
  | S fuel' =>
      o ← hpd_step posterior_probs p_stars confidence_level n_p_stars tol st;
      match o with
      | Exit st' => Ok (Some st')
      | Continue st' =>
          hpd_loop fuel' posterior_probs p_stars confidence_level n_p_stars tol st'
      end
  end.

(** The normalised probabilities of the grid points,
    [posterior_probs /= torch.sum(posterior_probs)]; [density] stands for
    [torch.exp] of the log-probability of the posterior at [x] (or of the
    prior when [posterior is None]). The values of an exponential are not
    negative: when their sum vanishes they all do, and every quotient is
    [0/0 = nan]. *)
Definition normalized_probs (density : list Q → Q) (param_grid : list (list Q)) :
    list float :=
  let posterior_probs := map density param_grid in
  let total := sum posterior_probs in
  map (λ q, if Qeq_bool total 0 then NaN else Fin (q / total)) posterior_probs.

Definition hpd_region (fuel : nat) (density : list Q → Q) (param_grid : list (list Q))
    (confidence_level : Q) (n_p_stars : nat) (tol : Q) :
    result (option (Q * list (list Q) * list float)) :=
  let posterior_probs := normalized_probs density param_grid in
  let p_stars := linspace (99 # 100) 0 n_p_stars in
  final ← hpd_loop fuel posterior_probs p_stars confidence_level n_p_stars tol
             {| current_confidence_level := 1;
                new_confidence_levels := [];
                idx := 0 |};
  match final with
  | None => Ok None
  | Some st =>
      p_star ← py_index p_stars (Z.of_nat (idx st) - 1);
      Ok (Some (current_confidence_level st,
                select param_grid (greater_equal posterior_probs p_star),
                new_confidence_levels st))
  end.

End ConfidenceRegions.

(** ** The SBC bands of plots_neurips2022.py and plots_neurips2023_new.py *)

Module Plots.
Import NumPy PPPlots.

(** *** [scipy.stats.binom], in exact arithmetic *)

Fixpoint choose (n k : nat) : nat :=
  match n, k with
  | _, O => 1
  | O, S _ => 0
  | S n', S k' => choose n' k' + choose n' (S k')
  end.

Definition binom_pmf (N : nat) (p : Q) (k : nat) : Q :=
  (inject_Z (Z.of_nat (choose N k)) * p ^ Z.of_nat k * (1 - p) ^ Z.of_nat (N - k))%Q.

Definition binom_cdf (N : nat) (p : Q) (k : nat) : Q :=
  sum (map (binom_pmf N p) (seq 0 (S k))).

(** [binom(N, p).ppf(q)] for [0 < q < 1]: the least [k] with [cdf(k) >= q];
    [nan] when [p] is [nan]. *)
Definition binom_ppf_exact (N : nat) (p q : Q) : nat :=
  default N (List.find (λ k, leb q (binom_cdf N p k)) (seq 0 (S N))).

Definition binom_ppf (N : nat) (p : float) (q : Q) : float :=
  match p with
  | NaN => NaN
  | Fin p => Fin (inject_Z (Z.of_nat (binom_ppf_exact N p q)))
  end.

(** *** [multi_global_consistency] (plots_neurips2022.py) *)

(** [a.cumsum()] *)
Fixpoint cumsum_from (acc : Q) (a : list Q) : list Q :=
  match a with
  | [] => []
  | x :: a' => (acc + x)%Q :: cumsum_from (acc + x)%Q a'
  end.
Definition cumsum (a : list Q) : list Q := cumsum_from 0 a.

(** [hb.cumsum() / hb.sum()] for an array [hb] of non-negative entries: a
    vanishing sum gives [0/0 = nan] everywhere. *)
Definition normalized_cumsum (hb : list Q) : list float :=
  if Qeq_bool (sum hb) 0 then map (λ _, NaN) hb
  else map (λ c, Fin (c / sum hb)) (cumsum hb).

(** [hbb[-1] -= 1e-9] *)
Definition lower_last (hbb : list float) : result (list float) :=
  match hbb with
  | [] => Raise IndexError
  | _ :: _ =>
      Ok (alter (λ x, match x with Fin x => Fin (x - (1 # 1000000000)) | NaN => NaN end)
                (length hbb - 1)%nat hbb)
  end.

(** The cumulative bin probabilities [hbb]; [N] is
    [len(multi_PIT_values[0])] and [nbins] is [len(alphas)]. *)
Definition uniform_histogram (N nbins : nat) : result (list float) :=
  if decide (nbins = 0%nat) then Raise ZeroDivisionError
  else
    let median :=
      inject_Z (Z.of_nat (binom_ppf_exact N (1 / inject_Z (Z.of_nat nbins)) (1 # 2))) in
    lower_last (normalized_cumsum (replicate nbins (median * 1)%Q)).

(** The two band arrays [lower] and [upper] computed for each axis. *)
Definition consistency_band (multi_PIT_values : list (list Q)) (alphas : list Q) :
    result (list float * list float) :=
  match multi_PIT_values with
  | [] => Raise IndexError
  | first :: _ =>
      let N := length first in
      let nbins := length alphas in
      hbb ← uniform_histogram N nbins;
      let lower := map (λ p, binom_ppf N p (5 # 1000)) hbb in
      let upper := map (λ p, binom_ppf N p (995 # 1000)) hbb in
      Ok (lower, upper)
  end.

(** *** [global_coverage_pp_plots] (plots_neurips2023_new.py) *)

(** The rows of [pd.DataFrame(columns)], each column being one trial. *)
Definition frame_rows (columns : list (list float)) : list (list float) :=
  match columns with
  | [] => []
  | c :: _ => map (λ j, omap (λ col : list float, col !! j) columns) (seq 0 (length c))
  end.

Definition finite_values (a : list float) : list Q :=
  omap (λ x, match x with Fin q => Some q | NaN => None end) a.

(** [Series.quantile(q)] with linear interpolation: missing values are
    skipped, and [q] must lie in [0,1]. *)
Definition quantile (values : list float) (q : Q) : result float :=
  if negb (leb 0 q && leb q 1) then Raise ValueError
  else
    let v := merge_sort Qle (finite_values values) in
    match v with
    | [] => Ok NaN
    | v0 :: _ =>
        let h := (q * inject_Z (Z.of_nat (length v - 1)))%Q in
        let lo := Z.to_nat (Qfloor h) in
        let x_lo := default v0 (v !! lo) in
        let x_hi := default x_lo (v !! S lo) in
        Ok (Fin (x_lo + (h - inject_Z (Qfloor h)) * (x_hi - x_lo)))
    end.

(** [pd.DataFrame(columns).quantile(q=q, axis=1)]: the quantile of every
    row; a frame without any column (no trial at all) raises [ValueError]. *)
Definition frame_quantile (columns : list (list float)) (q : Q) : result (list float) :=
  match columns with
  | [] => Raise ValueError
  | _ :: _ => mapM (λ row, quantile row q) (frame_rows columns)
  end.

(** [n_cols]: two axes without PIT values, three with them. *)
Definition n_cols {A : Type} (multi_PIT_values : option A) : nat :=
  match multi_PIT_values with
  | None => 2
  | Some _ => 3
  end.

Section Coverage.

(** [uniform().rvs(N)] draws [N] numbers and advances the state of the
    generator. *)
Context {rng : Type}.
Variable rvs : nat → rng → list Q * rng.

(** [for t in range(n_trials): u_pp_values[t] = PP_vals(rvs(N), alphas)] *)
Fixpoint simulate (n_trials N : nat) (alphas : list Q) (s : rng) :
    list (list float) * rng :=
  match n_trials with
  | O => ([], s)
  | S n =>
      let '(u_samples, s1) := rvs N s in
      let '(rest, s2) := simulate n N alphas s1 in
      (PP_vals u_samples alphas :: rest, s2)
  end.

(** The band drawn on one axis at level [conf_alpha]. *)
Definition axis_band (conf_alpha : Q) (N : nat) (alphas : list Q) (n_trials : nat)
    (s : rng) : result (list float * list float * rng) :=
  let '(u_pp_values, s') := simulate n_trials N alphas s in
  lower_band ← frame_quantile u_pp_values (conf_alpha / 2);
  upper_band ← frame_quantile u_pp_values (1 - conf_alpha / 2);
  Ok (lower_band, upper_band, s').

(** [for i, ax in enumerate(axs)] with [confidence_int] set: the level is
    divided by the number of dimensions on the first axis, and the band is
    simulated anew on every axis. *)
Fixpoint coverage_bands_from (i n_axes : nat) (conf_alpha : Q)
    (sbc_ranks : list (list Q)) (alphas : list Q) (n_trials : nat) (s : rng) :
    result (list (list float * list float) * rng) :=
  match n_axes with
  | O => Ok ([], s)
  | S n =>
      conf_alpha ←
        (if decide (i = 0%nat) then
           match sbc_ranks with
           | [] => Raise IndexError
           | first :: _ =>
               if decide (length first = 0%nat) then Raise ZeroDivisionError
               else Ok (conf_alpha / inject_Z (Z.of_nat (length first)))%Q
           end
         else Ok conf_alpha);
      let N := length sbc_ranks in
      '(lower_band, upper_band, s') ← axis_band conf_alpha N alphas n_trials s;
      '(rest, s'') ← coverage_bands_from (S i) n conf_alpha sbc_ranks alphas n_trials s';
      Ok ((lower_band, upper_band) :: rest, s'')
  end.

Definition coverage_bands (n_axes : nat) (conf_alpha : Q) (sbc_ranks : list (list Q))
    (alphas : list Q) (n_trials : nat) (s : rng) :
    result (list (list float * list float) * rng) :=
  coverage_bands_from 0 n_axes conf_alpha sbc_ranks alphas n_trials s.

(** The bands of [global_coverage_pp_plots(..., confidence_int=True)], one
    for each of its [n_cols] axes. *)
Definition global_coverage_bands (multi_PIT_values : option (list (list Q)))
    (conf_alpha : Q) (sbc_ranks : list (list Q)) (alphas : list Q) (n_trials : nat)
    (s : rng) : result (list (list float * list float) * rng) :=
  coverage_bands (n_cols multi_PIT_values) conf_alpha sbc_ranks alphas n_trials s.

End Coverage.

End Plots.

(** ** script_margaret_local_c2st.py: the test statistic of [eval_clf_null] *)

Module ScriptMargaret.
Import NumPy PPPlots.

(** [alphas = np.linspace(0,1,100)] *)
Definition alphas : list Q := ConfidenceRegions.linspace 0 1 100.

(** [pp_vals_dirac = PP_vals([0.5]*1000, alphas)] *)
Definition pp_vals_dirac : list float := PP_vals (replicate 1000 (1 # 2)%Q) alphas.

(** [(pp_vals - pp_vals_dirac) ** 2] on a [pd.Series]: a missing value on
    either side gives a missing value. *)
Definition squared_gaps (pp_vals reference : list float) : list float :=
  zip_with (λ v d, match v, d with
                   | Fin a, Fin b => Fin ((a - b) ^ 2)
                   | _, _ => NaN
                   end) pp_vals reference.

(** [((pp_vals - pp_vals_dirac) ** 2).sum() / len(alphas)]; the sum of a
    [pd.Series] skips the missing values. *)
Definition test_stat_x (proba : list Q) : Q :=
  let pp_vals := PP_vals proba alphas in
  (sum (Plots.finite_values (squared_gaps pp_vals pp_vals_dirac))
   / inject_Z (Z.of_nat (length alphas)))%Q.

End ScriptMargaret.

(** ** valdiags/confidence_regions.py: the Waldo confidence set *)

Module Waldo.
Import NumPy.

(** [a[j]] on an array: an index past the end raises. *)
Definition getrow {A : Type} (a : list A) (j : nat) : result A :=
  match a !! j with
  | Some x => Ok x
  | None => Raise IndexError
  end.

(** [row.reshape(1, 2)] *)
Definition reshape_1_2 (row : list Q) : result (list Q) :=
  if decide (length row = 2%nat) then Ok row else Raise ValueError.

Section Region.

(** [waldo_stats(posterior_mean, posterior_var, param)] as a function of
    [param], the mean and the covariance being those of the posterior
    samples at hand: it inverts the covariance matrix in floating point, and
    raises when the matrix is singular. *)
Variable waldo_stats : list Q → result Q.

(** The loop [for j in range(grid_sample_size)]. *)
Fixpoint waldo_loop (js : list nat) (critical_values : list Q)
    (param_grid : list (list Q)) (confidence_set_i : list (list Q)) :
    result (list (list Q)) :=
  match js with
  | [] => Ok confidence_set_i
  | j :: js' =>
      param ← getrow param_grid j;
      obs_statistics ← waldo_stats param;
      critical_value ← getrow critical_values j;
      if leb obs_statistics critical_value then
        row ← reshape_1_2 param;
        waldo_loop js' critical_values param_grid (confidence_set_i ++ [row])
      else waldo_loop js' critical_values param_grid confidence_set_i
  end.

(** [np.vstack] needs at least one array. *)
Definition vstack (rows : list (list Q)) : result (list (list Q)) :=
  match rows with
  | [] => Raise ValueError
  | _ :: _ => Ok rows
  end.

Definition waldo_confidence_region (critical_values : list Q)
    (param_grid : list (list Q)) (grid_sample_size : nat) : result (list (list Q)) :=
  confidence_set_i ← waldo_loop (seq 0 grid_sample_size) critical_values param_grid [];
  vstack confidence_set_i.

End Region.

End Waldo.

(** ** The empirical CDF of the SBC ranks (plots_neurips2022.py,
    plots_neurips2023_new.py) *)

Module SBC.
Import NumPy.

(** [a.min()] and [a.max()] of a non-empty array, given as its first entry
    and the others. *)
Definition minimum (x y : Q) : Q := if leb x y then x else y.
Definition maximum (x y : Q) : Q := if leb x y then y else x.
Definition array_min (x : Q) (a : list Q) : Q := foldl minimum x a.
Definition array_max (x : Q) (a : list Q) : Q := foldl maximum x a.

(** The range [np.histogram] spreads its bins over: [(0, 1)] for an empty
    array, the extreme values otherwise, widened by one half on each side
    when they coincide. *)
Definition histogram_range (a : list Q) : Q * Q :=
  match a with
  | [] => (0, 1)%Q
  | x :: a' =>
      let first_edge := array_min x a' in
      let last_edge := array_max x a' in
      if Qeq_bool first_edge last_edge
      then (first_edge - (1 # 2), last_edge + (1 # 2))%Q
      else (first_edge, last_edge)
  end.

(** The bin of a value: bins of equal width, each closed on the left and
    open on the right, except the last one which holds the largest value
    too. *)
Definition bin_index (first_edge last_edge : Q) (bins : nat) (x : Q) : nat :=
  let index :=
    Z.to_nat (Qfloor ((x - first_edge) * (inject_Z (Z.of_nat bins) / (last_edge - first_edge)))) in
  if decide (index = bins) then (index - 1)%nat else index.

(** [np.bincount(indices, minlength=bins)] for indices below [bins]. *)
Definition bincount (indices : list nat) (bins : nat) : list nat :=
  map (λ b, length (filter (λ i, i = b) indices)) (seq 0 bins).

(** [np.histogram(a, bins=bins)[0]] *)
Definition histogram (a : list Q) (bins : nat) : result (list nat) :=
  if decide (bins = 0%nat) then Raise ValueError
  else
    let '(first_edge, last_edge) := histogram_range a in
    Ok (bincount (map (bin_index first_edge last_edge bins) a) bins).

(** [counts.cumsum()] on integers. *)
Fixpoint cumsum_from (acc : nat) (counts : list nat) : list nat :=
  match counts with
  | [] => []
  | c :: counts' => (acc + c)%nat :: cumsum_from (acc + c)%nat counts'
  end.
Definition cumsum (counts : list nat) : list nat := cumsum_from 0 counts.

(** [sbc_cdf / sbc_cdf.max()]: an integer array over its largest entry;
    [0/0] is [nan]. *)
Definition over_max (sbc_cdf : list nat) : list float :=
  let largest := max_list sbc_cdf in
  map (λ c, if decide (largest = 0%nat) then NaN
            else Fin (inject_Z (Z.of_nat c) / inject_Z (Z.of_nat largest))) sbc_cdf.

(** The curve drawn for one dimension:
    [np.histogram(ranks, bins=len(alphas))[0].cumsum()], over its maximum. *)
Definition sbc_curve (ranks : list Q) (alphas : list Q) : result (list float) :=
  counts ← histogram ranks (length alphas);
  let sbc_cdf := cumsum counts in
  Ok (over_max sbc_cdf).

End SBC.

(** ** valdiags/localC2ST.py: the test statistics and their null samples *)

Module LocalC2STStats.
Import NumPy LocalC2ST.

(** The value [lc2st_scores] stores under a metric: a number without
    cross-validation, the list of the scores of the folds with it. *)
Inductive score_value : Type :=
| Scalar (v : float)
| PerFold (vs : list float).

(** The probabilities [lc2st_scores] returns with the scores. *)
Inductive probas_value : Type :=
| Probas (a : ndarray)
| FoldProbas (l : list (list rat)).

(** The tuple returned, with and without [return_probas]. *)
Inductive t_stats_output : Type :=
| WithProbas (t_stats_ensemble : gmap string score_value) (proba_ensemble : probas_value)
    (t_stats_null : gmap string (list score_value)) (probas_null : list probas_value)
| StatsOnly (t_stats_ensemble : gmap string score_value)
    (t_stats_null : gmap string (list score_value)).

(** [scores, probas = lc2st_scores(...)] *)
Definition unpack (out : lc2st_output) : gmap string score_value * probas_value :=
  match out with
  | EnsembleScores scores probas => (Scalar <$> scores, Probas probas)
  | CrossValScores scores probas => (PerFold <$> scores, FoldProbas probas)
  end.

(** [for m in test_stats: t_stats_null[m].append(scores_t[m])] *)
Fixpoint append_stats (scores_t : gmap string score_value)
    (t_stats_null : gmap string (list score_value)) (test_stats : list string) :
    result (gmap string (list score_value)) :=
  match test_stats with
  | [] => Ok t_stats_null
  | m :: rest =>
      so_far ← getitem t_stats_null m;
      v ← getitem scores_t m;
      append_stats scores_t (<[m := so_far ++ [v]]> t_stats_null) rest
  end.

Section Estimator.

Context {clf_cfg clf rng : Type}.
Variable train_c2st : matrix → matrix → clf_cfg → M (rng := rng) clf.
Variable eval_c2st : matrix → option matrix → clf → bool → result (rat * list rat).
Variable compute_metric : ndarray → string → bool → result float.
Variable shuffle : nat → list nat.

(** [compute_metric(proba, metrics=test_stats, single_class_eval=...)]: the
    call of [vanillaC2ST.compute_metric] on the whole list of statistics,
    which returns a dictionary. *)
Variable compute_metrics : probas_value → list string → bool → result (gmap string float).

(** The body of [for t in range(n_trials_null)] up to the statistics of the
    trial; [classifier], [cross_val], [n_folds] and [in_sample] are the
    keyword arguments forwarded to [lc2st_scores]. *)
Definition null_trial (P x_P x_eval : matrix) (P_eval : option matrix)
    (list_null_samples_P list_null_samples_x_P : list matrix) (test_stats : list string)
    (precomputed_probas_null : option (list probas_value)) (P_eval_null : option matrix)
    (single_class_eval : bool) (classifier : clf_cfg) (cross_val : bool) (n_folds : nat)
    (in_sample : bool) (t : nat) (probas_null : list probas_value) :
    M (rng := rng) (gmap string score_value * list probas_value) :=
  match precomputed_probas_null with
  | Some precomputed =>
      proba ← lift (Waldo.getrow precomputed t);
      let probas_null := probas_null ++ [proba] in
      proba_t ← lift (Waldo.getrow probas_null t);
      scores_t ← lift (compute_metrics proba_t test_stats single_class_eval);
      mret (Scalar <$> scores_t, probas_null)
  | None =>
      Q_t ← lift (Waldo.getrow list_null_samples_P t);
      x_Q_t ← lift (Waldo.getrow list_null_samples_x_P t);
      out ← lc2st_scores train_c2st eval_c2st compute_metric shuffle
               P Q_t x_P x_Q_t x_eval P_eval P_eval_null test_stats classifier
               single_class_eval cross_val n_folds in_sample 1;
      let '(scores_t, proba_t) := unpack out in
      mret (scores_t, probas_null ++ [proba_t])
  end.

Fixpoint null_loop (ts : list nat) (P x_P x_eval : matrix) (P_eval : option matrix)
    (list_null_samples_P list_null_samples_x_P : list matrix) (test_stats : list string)
    (precomputed_probas_null : option (list probas_value)) (P_eval_null : option matrix)
    (single_class_eval : bool) (classifier : clf_cfg) (cross_val : bool) (n_folds : nat)
    (in_sample : bool)
    (t_stats_null : gmap string (list score_value)) (probas_null : list probas_value) :
    M (rng := rng) (gmap string (list score_value) * list probas_value) :=
  match ts with
  | [] => mret (t_stats_null, probas_null)
  | t :: ts' =>
      '(scores_t, probas_null) ←
        null_trial P x_P x_eval P_eval list_null_samples_P list_null_samples_x_P
          test_stats precomputed_probas_null P_eval_null single_class_eval
          classifier cross_val n_folds in_sample t probas_null;
      t_stats_null ← lift (append_stats scores_t t_stats_null test_stats);
      null_loop ts' P x_P x_eval P_eval list_null_samples_P list_null_samples_x_P
        test_stats precomputed_probas_null P_eval_null single_class_eval
        classifier cross_val n_folds in_sample t_stats_null probas_null
  end.

Definition t_stats_lc2st (P Q x_P x_Q : matrix) (P_eval : option matrix) (x_eval : matrix)
    (list_null_samples_P list_null_samples_x_P : list matrix) (test_stats : list string)
    (n_ensemble_obs : nat) (precomputed_probas_null : option (list probas_value))
    (Q_eval P_eval_null : option matrix) (single_class_eval return_probas : bool)
    (classifier : clf_cfg) (cross_val : bool) (n_folds : nat) (in_sample : bool) :
    M (rng := rng) t_stats_output :=
  out ← lc2st_scores train_c2st eval_c2st compute_metric shuffle
           P Q x_P x_Q x_eval P_eval Q_eval test_stats classifier
           single_class_eval cross_val n_folds in_sample n_ensemble_obs;
  let '(t_stats_ensemble, proba_ensemble) := unpack out in
  let t_stats_null := list_to_map (zip test_stats (replicate (length test_stats) [])) in
  let n_trials_null := length list_null_samples_P in
  '(t_stats_null, probas_null) ←
    null_loop (seq 0 n_trials_null) P x_P x_eval P_eval
      list_null_samples_P list_null_samples_x_P test_stats precomputed_probas_null
      P_eval_null single_class_eval classifier cross_val n_folds in_sample
      t_stats_null [];
  mret (if return_probas
        then WithProbas t_stats_ensemble proba_ensemble t_stats_null probas_null
        else StatsOnly t_stats_ensemble t_stats_null).

End Estimator.

End LocalC2STStats.

(** ** Facts about the NumPy fragment *)

Module NumPyFacts.
Import NumPy.

Lemma ltb_spec (x y : Q) : ltb x y = true ↔ (x < y)%Q.
Proof.
  unfold ltb. rewrite negb_true_iff, <- not_true_iff_false, Qle_bool_iff.
  split; [apply Qnot_le_lt | apply Qlt_not_le].
Qed.

Lemma leb_spec (x y : Q) : leb x y = true ↔ (x <= y)%Q.
Proof. apply Qle_bool_iff. Qed.

Lemma count_true_cons (b : bool) (bs : list bool) :
  count_true (b :: bs) = ((if b then 1 else 0) + count_true bs)%nat.
Proof. unfold count_true. rewrite filter_cons. destruct b; by case_decide. Qed.

Lemma count_true_le (bs : list bool) : (count_true bs ≤ length bs)%nat.
Proof. unfold count_true. apply length_filter. Qed.

(** Summing a boolean array counts its [True] entries. *)
Lemma sum_of_bool (bs : list bool) :
  (sum (map of_bool bs) == inject_Z (Z.of_nat (count_true bs)))%Q.
Proof.
  induction bs as [|b bs IH]; [reflexivity|].
  rewrite count_true_cons. cbn [map sum foldr]. fold (sum (map of_bool bs)).
  rewrite IH, Nat2Z.inj_add, inject_Z_plus. by destruct b.
Qed.

Lemma count_true_map {A : Type} (f : A → bool) (P : A → Prop)
    `{!∀ x, Decision (P x)} (l : list A) :
  (∀ x, f x = true ↔ P x) →
  count_true (map f l) = length (filter P l).
Proof.
  intros Hf. induction l as [|x l IH]; [done|].
  cbn [map]. rewrite count_true_cons, filter_cons, IH.
  case_decide as HP; destruct (f x) eqn:Hfx; simpl; try done.
  - apply Hf in HP. congruence.
  - apply Hf in Hfx. done.
Qed.

Lemma length_filter_all {A : Type} (P : A → Prop) `{!∀ x, Decision (P x)}
    (l : list A) :
  length (filter P l) = length l ↔ ∀ x, x ∈ l → P x.
Proof.
  induction l as [|x l IH].
  - split; [intros _ y Hy; by apply elem_of_nil in Hy | done].
  - rewrite filter_cons. pose proof (length_filter P l) as Hle.
    case_decide as HP; simpl.
    + split.
      * intros Hlen y Hy. apply elem_of_cons in Hy as [->|Hy]; [done|].
        apply IH; [lia | done].
      * intros Hall. f_equal. apply IH. intros y Hy. apply Hall. by right.
    + split; [lia|]. intros Hall. destruct HP. apply Hall. by left.
Qed.

Lemma length_filter_none {A : Type} (P : A → Prop) `{!∀ x, Decision (P x)}
    (l : list A) :
  length (filter P l) = 0%nat ↔ ∀ x, x ∈ l → ¬ P x.
Proof.
  induction l as [|x l IH].
  - split; [intros _ y Hy; by apply elem_of_nil in Hy | done].
  - rewrite filter_cons. case_decide as HP; simpl.
    + split; [lia|]. intros Hnone. destruct (Hnone x); [by left | done].
    + rewrite IH. split.
      * intros Hnone y Hy. apply elem_of_cons in Hy as [->|Hy]; [done | by apply Hnone].
      * intros Hnone y Hy. apply Hnone. by right.
Qed.

(** The mean of a non-empty boolean array is the fraction of its [True]
    entries. *)
Lemma mean_of_bool (bs : list bool) :
  bs ≠ [] →
  ∃ p, mean (map of_bool bs) = Fin p ∧
       (p == inject_Z (Z.of_nat (count_true bs)) / inject_Z (Z.of_nat (length bs)))%Q.
Proof.
  intros Hne. destruct bs as [|b bs]; [done|].
  eexists. split; [reflexivity|].
  rewrite sum_of_bool, length_map. reflexivity.
Qed.

(** A fraction [a/b] of rationals with [0 <= a <= b] and [0 < b]. *)
Lemma Qfraction_bounds (a b : Q) :
  (0 <= a)%Q → (a <= b)%Q → (0 < b)%Q →
  (0 <= a / b)%Q ∧ (a / b <= 1)%Q ∧ (a / b == 1 ↔ a == b)%Q ∧ (a / b == 0 ↔ a == 0)%Q.
Proof.
  intros Ha Hab Hb.
  assert (Hne : ¬ (b == 0)%Q) by lra.
  pose proof (Qmult_div_r a b Hne) as Hmul.
  repeat split.
  - apply Qle_shift_div_l; [done | lra].
  - apply Qle_shift_div_r; [done | lra].
  - intros Hp. rewrite Hp in Hmul. lra.
  - intros ->. by field.
  - intros Hp. rewrite Hp in Hmul. lra.
  - intros ->. by field.
Qed.

(** A fraction [c/n] of counts with [c <= n] and [0 < n]. *)
Lemma fraction_bounds (c n : nat) :
  (c ≤ n)%nat → (0 < n)%nat →
  let p := (inject_Z (Z.of_nat c) / inject_Z (Z.of_nat n))%Q in
  (0 <= p)%Q ∧ (p <= 1)%Q ∧ (p == 1 ↔ c = n)%Q ∧ (p == 0 ↔ c = 0%nat)%Q.
Proof.
  intros Hc Hn p.
  assert (Hn' : (0 < inject_Z (Z.of_nat n))%Q).
  { change 0%Q with (inject_Z 0). rewrite <- Zlt_Qlt. lia. }
  assert (Hc0 : (0 <= inject_Z (Z.of_nat c))%Q).
  { change 0%Q with (inject_Z 0). rewrite <- Zle_Qle. lia. }
  assert (Hcn : (inject_Z (Z.of_nat c) <= inject_Z (Z.of_nat n))%Q).
  { rewrite <- Zle_Qle. lia. }
  destruct (Qfraction_bounds _ _ Hc0 Hcn Hn') as (H0 & H1 & Heq1 & Heq0).
  split; [done|]. split; [done|]. split.
  - subst p. rewrite Heq1, inject_Z_injective. lia.
  - subst p. rewrite Heq0. change 0%Q with (inject_Z 0).
    rewrite inject_Z_injective. lia.
Qed.

End NumPyFacts.

(** ** Properties of [compute_pvalue] and [eval_htest] *)

Module TestUtilsProofs.
Import NumPy NumPyFacts TestUtils.

(** [p < alpha] as a proposition; false when [p] is [nan]. *)
Definition float_lt (p : float) (alpha : Q) : Prop :=
  match p with
  | Fin q => (q < alpha)%Q
  | NaN => False
  end.

(** What the loop of [eval_htest] stores under metric [k]. *)
Definition decision (t_stat_data : gmap string Q)
    (t_stats_null : gmap string (list Q)) (conf_alpha : Q) (k : string) : option bool :=
  match t_stat_data !! k, t_stats_null !! k with
  | Some t, Some nulls => Some (float_ltb (compute_pvalue t nulls) conf_alpha)
  | _, _ => None
  end.

(** The estimator returned a statistic and a null sample for every requested
    metric. *)
Definition covers (t_stat_data : gmap string Q)
    (t_stats_null : gmap string (list Q)) (metrics : list string) : Prop :=
  ∀ m, m ∈ metrics → is_Some (t_stat_data !! m) ∧ is_Some (t_stats_null !! m).

Lemma float_ltb_spec (p : float) (alpha : Q) :
  float_ltb p alpha = true ↔ float_lt p alpha.
Proof. destruct p as [q|]; simpl; [apply ltb_spec | done]. Qed.

Lemma compute_pvalue_fraction (t : Q) (nulls : list Q) :
  nulls ≠ [] →
  ∃ p, compute_pvalue t nulls = Fin p ∧
       (p == inject_Z (Z.of_nat (length (filter (λ x, t < x)%Q nulls)))
             / inject_Z (Z.of_nat (length nulls)))%Q.
Proof.
  intros Hne. unfold compute_pvalue, less.
  destruct (mean_of_bool (map (ltb t) nulls)) as (p & Hp & Hfrac).
  { by destruct nulls. }
  exists p. split; [done|].
  rewrite Hfrac, length_map.
  by rewrite (count_true_map (ltb t) (λ x, t < x)%Q nulls (ltb_spec t)).
Qed.

Lemma eval_htest_loop_ok data nulls alpha (metrics : list string) :
  ∀ acc : gmap string bool,
  covers data nulls metrics →
  ∃ reject, eval_htest_loop data nulls alpha acc metrics = Ok reject ∧
    ∀ k, reject !! k =
         if decide (k ∈ metrics) then decision data nulls alpha k else acc !! k.
Proof.
  induction metrics as [|m rest IH]; intros acc Hcov.
  - exists acc. split; [done|]. intros k. case_decide as Hk; [|done].
    by apply elem_of_nil in Hk.
  - destruct (Hcov m) as [[t Ht] [ns Hns]]; [by left|].
    destruct (IH (<[m := float_ltb (compute_pvalue t ns) alpha]> acc))
      as (reject & Hloop & Hlook).
    { intros k Hk. apply Hcov. by right. }
    exists reject. split.
    + cbn [eval_htest_loop]. unfold eval_htest_step, getitem.
      rewrite Ht, Hns. exact Hloop.
    + intros k. rewrite Hlook.
      destruct (decide (k ∈ rest)) as [Hr|Hr].
      { rewrite decide_True; [done | by right]. }
      destruct (decide (k = m)) as [->|Hne].
      * rewrite decide_True by (by left).
        rewrite lookup_insert_eq. unfold decision. by rewrite Ht, Hns.
      * rewrite decide_False by (by intros [?|?]%elem_of_cons).
        by rewrite lookup_insert_ne.
Qed.

Lemma eval_htest_loop_raise data nulls alpha (metrics : list string) :
  ∀ acc : gmap string bool,
  (∃ m, m ∈ metrics ∧ (data !! m = None ∨ nulls !! m = None)) →
  ∃ k, k ∈ metrics ∧ eval_htest_loop data nulls alpha acc metrics = Raise (KeyError k).
Proof.
  induction metrics as [|m rest IH]; intros acc (k & Hk & Hmiss).
  - by apply elem_of_nil in Hk.
  - cbn [eval_htest_loop]. unfold eval_htest_step, getitem.
    destruct (data !! m) as [t|] eqn:Ht; [|exists m; split; [by left | done]].
    destruct (nulls !! m) as [ns|] eqn:Hns; [|exists m; split; [by left | done]].
    apply elem_of_cons in Hk as [->|Hk].
    { destruct Hmiss; congruence. }
    destruct (IH (<[m := float_ltb (compute_pvalue t ns) alpha]> acc)) as (k' & Hk' & Hr).
    { by exists k. }
    exists k'. split; [by right | exact Hr].
Qed.

(** C1: on a non-empty null sample, [compute_pvalue t nulls] is the fraction
    of null values strictly greater than [t]; it lies in [0,1], is [1]
    exactly when [t] is strictly below every null value, and is [0] exactly
    when no null value is strictly greater than [t]. *)
Theorem compute_pvalue_spec (t : Q) (nulls : list Q) :
  nulls ≠ [] →
  ∃ p, compute_pvalue t nulls = Fin p ∧
       (p == inject_Z (Z.of_nat (length (filter (λ x, t < x)%Q nulls)))
             / inject_Z (Z.of_nat (length nulls)))%Q ∧
       (0 <= p)%Q ∧ (p <= 1)%Q ∧
       ((p == 1)%Q ↔ ∀ x, x ∈ nulls → (t < x)%Q) ∧
       ((p == 0)%Q ↔ ∀ x, x ∈ nulls → ¬ (t < x)%Q).
Proof.
  intros Hne. destruct (compute_pvalue_fraction t nulls Hne) as (p & Hp & Hfrac).
  exists p. split; [done|]. split; [done|].
  destruct (fraction_bounds (length (filter (λ x, t < x)%Q nulls)) (length nulls))
    as (H0 & H1 & Hone & Hzero).
  { apply length_filter. }
  { destruct nulls; [done | simpl; lia]. }
  rewrite Hfrac. split; [done|]. split; [done|]. split.
  - rewrite Hone. apply length_filter_all.
  - rewrite Hzero. apply length_filter_none.
Qed.

Lemma compute_pvalue_spec_witness :
  [1%Q; 3%Q] ≠ [] ∧
  ∃ p, compute_pvalue 2 [1%Q; 3%Q] = Fin p ∧
       (p == inject_Z (Z.of_nat (length (filter (λ x, 2 < x)%Q [1%Q; 3%Q])))
             / inject_Z (Z.of_nat (length [1%Q; 3%Q])))%Q ∧
       (0 <= p)%Q ∧ (p <= 1)%Q ∧
       ((p == 1)%Q ↔ ∀ x, x ∈ [1%Q; 3%Q] → (2 < x)%Q) ∧
       ((p == 0)%Q ↔ ∀ x, x ∈ [1%Q; 3%Q] → ¬ (2 < x)%Q).
Proof.
  split; [done|]. apply (compute_pvalue_spec 2 [1%Q; 3%Q]). done.
Defined.

(** C2: when the estimator supplies a statistic and a null sample for every
    requested metric, [eval_htest] returns a dictionary in which, for every
    requested metric [m], [reject[m]] is [True] exactly when the p-value of
    [compute_pvalue] on that metric's statistic and null sample is strictly
    below [conf_alpha]. *)
Theorem eval_htest_reject (t_stats_estimator : estimator) (metrics : list string)
    (conf_alpha : Q) (t_stat_data : gmap string Q) (t_stats_null : gmap string (list Q)) :
  t_stats_estimator metrics = Ok (t_stat_data, t_stats_null) →
  covers t_stat_data t_stats_null metrics →
  ∃ reject, eval_htest t_stats_estimator metrics conf_alpha = Ok reject ∧
    ∀ m, m ∈ metrics →
      ∃ t nulls b, t_stat_data !! m = Some t ∧ t_stats_null !! m = Some nulls ∧
        reject !! m = Some b ∧
        (b = true ↔ float_lt (compute_pvalue t nulls) conf_alpha).
Proof.
  intros Hest Hcov.
  destruct (eval_htest_loop_ok t_stat_data t_stats_null conf_alpha metrics ∅ Hcov)
    as (reject & Hloop & Hlook).
  exists reject. split.
  - unfold eval_htest. rewrite Hest. exact Hloop.
  - intros m Hm. destruct (Hcov m Hm) as [[t Ht] [ns Hns]].
    exists t, ns, (float_ltb (compute_pvalue t ns) conf_alpha).
    split; [done|]. split; [done|]. split.
    + rewrite Hlook. rewrite decide_True by done. unfold decision. by rewrite Ht, Hns.
    + apply float_ltb_spec.
Qed.

Definition demo_estimator (nulls : list Q) : estimator :=
  λ _, Ok ({["accuracy" := 0%Q]}, {["accuracy" := nulls]}).

Lemma demo_estimator_covers (nulls : list Q) :
  covers {["accuracy" := 0%Q]} {["accuracy" := nulls]} ["accuracy"].
Proof.
  intros m Hm. apply list_elem_of_singleton in Hm as ->.
  split; eexists; apply lookup_singleton_eq.
Qed.

Lemma eval_htest_reject_witness :
  demo_estimator [1%Q; (-1)%Q] ["accuracy"]
    = Ok ({["accuracy" := 0%Q]}, {["accuracy" := [1%Q; (-1)%Q]]}) ∧
  covers {["accuracy" := 0%Q]} {["accuracy" := [1%Q; (-1)%Q]]} ["accuracy"] ∧
  ∃ reject, eval_htest (demo_estimator [1%Q; (-1)%Q]) ["accuracy"] (1 # 20) = Ok reject ∧
    ∀ m, m ∈ ["accuracy"] →
      ∃ t nulls b,
        ({["accuracy" := 0%Q]} : gmap string Q) !! m = Some t ∧
        ({["accuracy" := [1%Q; (-1)%Q]]} : gmap string (list Q)) !! m = Some nulls ∧
        reject !! m = Some b ∧
        (b = true ↔ float_lt (compute_pvalue t nulls) (1 # 20)).
Proof.
  split; [reflexivity|]. split; [apply demo_estimator_covers|].
  apply (eval_htest_reject (demo_estimator [1%Q; (-1)%Q]) ["accuracy"] (1 # 20)).
  - reflexivity.
  - apply demo_estimator_covers.
Defined.

(** The reading of the specification under which the value returned by
    [eval_htest] carries a p-value per metric: the p-values can be read off
    the returned value. *)
Definition result_carries_pvalues : Prop :=
  ∃ pvalue_of : gmap string bool → string → float,
    ∀ (t_stats_estimator : estimator) metrics conf_alpha t_stat_data t_stats_null
      reject m t nulls,
      t_stats_estimator metrics = Ok (t_stat_data, t_stats_null) →
      eval_htest t_stats_estimator metrics conf_alpha = Ok reject →
      m ∈ metrics →
      t_stat_data !! m = Some t → t_stats_null !! m = Some nulls →
      float_eq (pvalue_of reject m) (compute_pvalue t nulls).

Lemma covers_dec data nulls (metrics : list string) :
  covers data nulls metrics ∨
  ∃ m, m ∈ metrics ∧ (data !! m = None ∨ nulls !! m = None).
Proof.
  induction metrics as [|m rest IH].
  - left. intros k Hk. by apply elem_of_nil in Hk.
  - destruct (data !! m) as [t|] eqn:Ht; [|right; exists m; split; [by left | by left]].
    destruct (nulls !! m) as [ns|] eqn:Hns; [|right; exists m; split; [by left | by right]].
    destruct IH as [Hcov | (k & Hk & Hmiss)].
    + left. intros k Hk. apply elem_of_cons in Hk as [->|Hk]; [|by apply Hcov].
      rewrite Ht, Hns. split; by eexists.
    + right. exists k. split; [by right | done].
Qed.

(** C9 (as the code has it): [eval_htest] returns nothing but the dictionary
    of reject decisions, one boolean per requested metric. It returns it
    whenever the estimator returned a statistic and a null sample for every
    requested metric, whatever the null samples are (constant and empty ones
    included), and raises [KeyError] otherwise. *)
Theorem eval_htest_returns_decisions (t_stats_estimator : estimator)
    (metrics : list string) (conf_alpha : Q)
    (t_stat_data : gmap string Q) (t_stats_null : gmap string (list Q)) :
  t_stats_estimator metrics = Ok (t_stat_data, t_stats_null) →
  (covers t_stat_data t_stats_null metrics ∧
   ∃ reject, eval_htest t_stats_estimator metrics conf_alpha = Ok reject ∧
             ∀ m, is_Some (reject !! m) ↔ m ∈ metrics)
  ∨
  (¬ covers t_stat_data t_stats_null metrics ∧
   ∃ k, k ∈ metrics ∧
        eval_htest t_stats_estimator metrics conf_alpha = Raise (KeyError k)).
Proof.
  intros Hest. unfold eval_htest. rewrite Hest. cbn.
  destruct (covers_dec t_stat_data t_stats_null metrics) as [Hcov | Hmiss].
  - left. split; [done|].
    destruct (eval_htest_loop_ok t_stat_data t_stats_null conf_alpha metrics ∅ Hcov)
      as (reject & Hloop & Hlook).
    exists reject. split; [done|]. intros m. rewrite Hlook.
    case_decide as Hm.
    + split; [done|]. intros _. destruct (Hcov m Hm) as [[t Ht] [ns Hns]].
      unfold decision. rewrite Ht, Hns. by eexists.
    + rewrite lookup_empty. split; [by intros [? ?] | done].
  - right. split.
    + intros Hcov. destruct Hmiss as (m & Hm & Hnone).
      destruct (Hcov m Hm) as [[t Ht] [ns Hns]]. destruct Hnone; congruence.
    + apply eval_htest_loop_raise. exact Hmiss.
Qed.

Lemma eval_htest_returns_decisions_witness :
  demo_estimator [1%Q; 1%Q] ["accuracy"]
    = Ok ({["accuracy" := 0%Q]}, {["accuracy" := [1%Q; 1%Q]]}) ∧
  ((covers {["accuracy" := 0%Q]} {["accuracy" := [1%Q; 1%Q]]} ["accuracy"] ∧
    ∃ reject, eval_htest (demo_estimator [1%Q; 1%Q]) ["accuracy"] (1 # 20) = Ok reject ∧
              ∀ m, is_Some (reject !! m) ↔ m ∈ ["accuracy"])
   ∨
   (¬ covers {["accuracy" := 0%Q]} {["accuracy" := [1%Q; 1%Q]]} ["accuracy"] ∧
    ∃ k, k ∈ ["accuracy"] ∧
         eval_htest (demo_estimator [1%Q; 1%Q]) ["accuracy"] (1 # 20) = Raise (KeyError k))).
Proof.
  split; [reflexivity|].
  apply (eval_htest_returns_decisions (demo_estimator [1%Q; 1%Q]) ["accuracy"] (1 # 20)).
  reflexivity.
Defined.

(** C9 (as stated) fails: two invocations whose p-values differ ([1] against
    [1/2]) return the very same value, so the returned value carries no
    p-value. *)
Lemma eval_htest_result_has_no_pvalue : ¬ result_carries_pvalues.
Proof.
  intros [pvalue_of Hread].
  pose proof (Hread (demo_estimator [1%Q]) ["accuracy"] (1 # 20)%Q
    {["accuracy" := 0%Q]} {["accuracy" := [1%Q]]}
    {["accuracy" := false]} "accuracy" 0%Q [1%Q]) as HA.
  pose proof (Hread (demo_estimator [1%Q; (-1)%Q]) ["accuracy"] (1 # 20)%Q
    {["accuracy" := 0%Q]} {["accuracy" := [1%Q; (-1)%Q]]}
    {["accuracy" := false]} "accuracy" 0%Q [1%Q; (-1)%Q]) as HB.
  assert (Hin : "accuracy" ∈ ["accuracy"]) by (by left).
  specialize (HA eq_refl eq_refl Hin (lookup_singleton_eq _ _) (lookup_singleton_eq _ _)).
  specialize (HB eq_refl eq_refl Hin (lookup_singleton_eq _ _) (lookup_singleton_eq _ _)).
  destruct (pvalue_of {["accuracy" := false]} "accuracy") as [q|].
  - cbn in HA, HB. rewrite HA in HB. vm_compute in HB. discriminate.
  - exact HA.
Qed.

End TestUtilsProofs.

(** ** Properties of [PP_vals] *)

Module PPPlotsProofs.
Import NumPy NumPyFacts PPPlots.

(** The grid is non-decreasing. *)
Definition nondecreasing (l : list Q) : Prop :=
  ∀ i j a b, (i ≤ j)%nat → l !! i = Some a → l !! j = Some b → (a <= b)%Q.

(** The empirical CDF of the PIT values at [alpha]. *)
Definition ecdf (PIT_values : list Q) (alpha : Q) : Q :=
  inject_Z (Z.of_nat (length (filter (λ x, x <= alpha)%Q PIT_values)))
  / inject_Z (Z.of_nat (length PIT_values)).

Lemma length_filter_mono {A : Type} (P1 P2 : A → Prop)
    `{!∀ x, Decision (P1 x)} `{!∀ x, Decision (P2 x)} (l : list A) :
  (∀ x, P1 x → P2 x) → (length (filter P1 l) ≤ length (filter P2 l))%nat.
Proof.
  intros Himp. induction l as [|x l IH]; [done|].
  rewrite !filter_cons. repeat case_decide; simpl; try lia.
  exfalso. auto.
Qed.

Lemma ecdf_mono (PIT_values : list Q) (a b : Q) :
  PIT_values ≠ [] → (a <= b)%Q → (ecdf PIT_values a <= ecdf PIT_values b)%Q.
Proof.
  intros Hne Hab. unfold ecdf.
  assert (Hn : (0 < inject_Z (Z.of_nat (length PIT_values)))%Q).
  { change 0%Q with (inject_Z 0). rewrite <- Zlt_Qlt.
    destruct PIT_values; [done | simpl; lia]. }
  apply Qmult_le_compat_r.
  - rewrite <- Zle_Qle. apply inj_le.
    apply length_filter_mono. intros x Hx. by apply Qle_trans with a.
  - apply Qlt_le_weak, Qinv_lt_0_compat, Hn.
Qed.

Lemma ecdf_bounds (PIT_values : list Q) (a : Q) :
  PIT_values ≠ [] → (0 <= ecdf PIT_values a)%Q ∧ (ecdf PIT_values a <= 1)%Q.
Proof.
  intros Hne.
  destruct (fraction_bounds (length (filter (λ x, x <= a)%Q PIT_values))
              (length PIT_values)) as (H0 & H1 & _).
  - apply length_filter.
  - destruct PIT_values; [done | simpl; lia].
  - done.
Qed.

Lemma PP_vals_entry (PIT_values alphas : list Q) (i : nat) (a : Q) :
  PIT_values ≠ [] → alphas !! i = Some a →
  ∃ v, PP_vals PIT_values alphas !! i = Some (Fin v) ∧ (v == ecdf PIT_values a)%Q.
Proof.
  intros Hne Ha. unfold PP_vals. rewrite list_lookup_fmap, Ha. cbn.
  destruct (mean_of_bool (less_equal PIT_values a)) as (v & Hv & Hfrac).
  { unfold less_equal. by destruct PIT_values. }
  exists v. split; [by rewrite Hv|].
  rewrite Hfrac. unfold less_equal, ecdf. rewrite length_map.
  by rewrite (count_true_map (λ x, leb x a) (λ x, x <= a)%Q PIT_values
                (λ x, leb_spec x a)).
Qed.

(** C3: for a non-empty array of PIT values and a non-decreasing grid,
    [PP_vals] returns one value per grid point, the fraction of PIT values
    less than or equal to that [alpha]; every entry lies in [0,1] and the
    sequence is non-decreasing along the grid. *)
Theorem PP_vals_spec (PIT_values alphas : list Q) :
  PIT_values ≠ [] →
  nondecreasing alphas →
  length (PP_vals PIT_values alphas) = length alphas ∧
  (∀ i a, alphas !! i = Some a →
     ∃ v, PP_vals PIT_values alphas !! i = Some (Fin v) ∧
          (v == ecdf PIT_values a)%Q ∧ (0 <= v)%Q ∧ (v <= 1)%Q) ∧
  (∀ i j u v, (i ≤ j)%nat →
     PP_vals PIT_values alphas !! i = Some (Fin u) →
     PP_vals PIT_values alphas !! j = Some (Fin v) → (u <= v)%Q).
Proof.
  intros Hne Hgrid. split; [|split].
  - unfold PP_vals. apply length_map.
  - intros i a Ha. destruct (PP_vals_entry PIT_values alphas i a Hne Ha) as (v & Hv & Heq).
    exists v. split; [done|]. split; [done|].
    rewrite Heq. apply ecdf_bounds, Hne.
  - intros i j u v Hij Hu Hv.
    assert (Hi : is_Some (alphas !! i)).
    { apply lookup_lt_is_Some. apply lookup_lt_Some in Hu.
      unfold PP_vals in Hu. by rewrite length_map in Hu. }
    assert (Hj : is_Some (alphas !! j)).
    { apply lookup_lt_is_Some. apply lookup_lt_Some in Hv.
      unfold PP_vals in Hv. by rewrite length_map in Hv. }
    destruct Hi as [a Ha], Hj as [b Hb].
    destruct (PP_vals_entry PIT_values alphas i a Hne Ha) as (u' & Hu' & Hequ).
    destruct (PP_vals_entry PIT_values alphas j b Hne Hb) as (v' & Hv' & Heqv).
    rewrite Hu in Hu'. rewrite Hv in Hv'.
    injection Hu' as <-. injection Hv' as <-.
    rewrite Hequ, Heqv. apply ecdf_mono; [done|]. by apply (Hgrid i j).
Qed.

Lemma PP_vals_spec_witness :
  [(1 # 4)%Q; (3 # 4)%Q] ≠ [] ∧
  nondecreasing [0%Q; (1 # 2)%Q; 1%Q] ∧
  length (PP_vals [(1 # 4)%Q; (3 # 4)%Q] [0%Q; (1 # 2)%Q; 1%Q])
    = length [0%Q; (1 # 2)%Q; 1%Q] ∧
  (∀ i a, [0%Q; (1 # 2)%Q; 1%Q] !! i = Some a →
     ∃ v, PP_vals [(1 # 4)%Q; (3 # 4)%Q] [0%Q; (1 # 2)%Q; 1%Q] !! i = Some (Fin v) ∧
          (v == ecdf [(1 # 4)%Q; (3 # 4)%Q] a)%Q ∧ (0 <= v)%Q ∧ (v <= 1)%Q) ∧
  (∀ i j u v, (i ≤ j)%nat →
     PP_vals [(1 # 4)%Q; (3 # 4)%Q] [0%Q; (1 # 2)%Q; 1%Q] !! i = Some (Fin u) →
     PP_vals [(1 # 4)%Q; (3 # 4)%Q] [0%Q; (1 # 2)%Q; 1%Q] !! j = Some (Fin v) →
     (u <= v)%Q).
Proof.
  assert (Hgrid : nondecreasing [0%Q; (1 # 2)%Q; 1%Q]).
  { intros i j a b Hij Ha Hb.
    destruct i as [|[|[|i]]]; destruct j as [|[|[|j]]]; simplify_eq/=;
      try lia; by vm_compute. }
  split; [done|]. split; [exact Hgrid|].
  apply (PP_vals_spec [(1 # 4)%Q; (3 # 4)%Q] [0%Q; (1 # 2)%Q; 1%Q]); [done | exact Hgrid].
Defined.

End PPPlotsProofs.

(** ** Properties of the local C2ST functions *)

Module LocalC2STProofs.
Import NumPy NumPyFacts LocalC2ST.

(** Dividing by one and adding zero leave a float as it is. *)
Lemma Qdiv_1_r_eq (x : rat) : (x / inject_Z (Z.of_nat 1))%Q = x.
Proof.
  destruct x as [a b]. unfold Qdiv, Qmult, Qinv. simpl.
  by rewrite Z.mul_1_r, Pos.mul_1_r.
Qed.

Lemma Qplus_0_r_eq (x : rat) : (x + 0)%Q = x.
Proof.
  destruct x as [a b]. unfold Qplus. simpl.
  by rewrite Z.mul_1_r, Z.add_0_r, Pos.mul_1_r.
Qed.

Lemma mean_singleton (x : rat) : mean [x] = Fin x.
Proof.
  unfold mean, sum. cbn [foldr length]. by rewrite Qplus_0_r_eq, Qdiv_1_r_eq.
Qed.

Lemma mean_axis0_singleton (a : list rat) : mean_axis0 [a] = Ok (Array a).
Proof.
  unfold mean_axis0. rewrite decide_True by constructor.
  cbn [foldl length]. do 2 f_equal.
  induction a as [|x a IH]; [done|].
  cbn [map]. by rewrite Qdiv_1_r_eq, IH.
Qed.

Lemma concatenate_axis1_shape (A B : matrix) (n d d' : nat) :
  has_shape A n d → has_shape B n d' →
  concatenate_axis1 A B = Ok (zip_with app A B) ∧
  has_shape (zip_with app A B) n (d + d').
Proof.
  intros [HnA HdA] [HnB HdB]. unfold concatenate_axis1.
  rewrite decide_True by congruence. split; [done|]. split.
  - rewrite length_zip_with. lia.
  - clear HnA HnB. revert B HdB.
    induction HdA as [|a A Ha HA IH]; intros B HdB; [constructor|].
    destruct HdB as [|b B Hb HB]; [constructor|].
    cbn [zip_with]. constructor; [|by apply IH].
    rewrite length_app. lia.
Qed.

(** Tiling a single observation gives one copy of it per sample. *)
Lemma repeat_single (x0 : list rat) (n : nat) : repeat [x0] n = replicate n x0.
Proof.
  unfold repeat. induction n as [|n IH]; [done|].
  simpl. by rewrite IH.
Qed.

Lemma zip_with_app_replicate (P : matrix) (x0 : list rat) :
  zip_with app P (replicate (length P) x0) = map (λ p, p ++ x0) P.
Proof. induction P as [|p P IH]; [done|]. cbn. by rewrite IH. Qed.

Lemma concatenate_repeat (P : matrix) (x0 : list rat) :
  concatenate_axis1 P (repeat [x0] (length P)) = Ok (map (λ p, p ++ x0) P).
Proof.
  unfold concatenate_axis1. rewrite repeat_single, length_replicate.
  rewrite decide_True by done. by rewrite zip_with_app_replicate.
Qed.

(** *** The folds of [KFold] *)


Lemma fold_sizes_length (n k : nat) : (0 < k)%nat → length (fold_sizes n k) = k.
Proof.
  intros Hk. unfold fold_sizes. rewrite length_app, !length_replicate.
  pose proof (Nat.mod_upper_bound n k). lia.
Qed.




Section Folds.

Variables (n_splits n_samples : nat) (shuffled : list nat).
Hypothesis shuffled_perm : shuffled ≡ₚ seq 0 n_samples.







End Folds.


Example KFold_split_5_2 :
  KFold_split 2 [3; 0; 4; 1; 2]%nat 5
  = Ok [([1; 2], [0; 3; 4]); ([0; 3; 4], [1; 2])]%nat.
Proof. reflexivity. Qed.

Section WithClassifier.

Context {clf_cfg clf rng : Type}.
Variable train_c2st : matrix → matrix → clf_cfg → M (rng := rng) clf.
Variable eval_c2st : matrix → option matrix → clf → bool → result (rat * list rat).
Variable compute_metric : ndarray → string → bool → result float.
Variable shuffle : nat → list nat.

(** C6: [train_lc2st] hands [train_c2st] the column-wise concatenations of
    [P] with [x_P] and of [Q] with [x_Q], whose rows have [d + d_x] entries;
    [eval_lc2st] evaluates on the rows of [P] (and of [Q] when given), each
    followed by the observation [x_eval], one feature row per evaluation
    sample. *)
Theorem lc2st_joint_features (P Q x_P x_Q P_eval : matrix) (Q_eval : option matrix)
    (x_eval : list rat) (classifier : clf_cfg) (fitted : clf)
    (single_class_eval : bool) (s : rng) (n n' d d_x : nat) :
  has_shape P n d → has_shape x_P n d_x →
  has_shape Q n' d → has_shape x_Q n' d_x →
  train_lc2st train_c2st P Q x_P x_Q classifier s
    = train_c2st (zip_with app P x_P) (zip_with app Q x_Q) classifier s ∧
  has_shape (zip_with app P x_P) n (d + d_x) ∧
  has_shape (zip_with app Q x_Q) n' (d + d_x) ∧
  eval_features P_eval [x_eval] Q_eval single_class_eval
    = Ok (map (λ p, p ++ x_eval) P_eval,
          (λ Q, map (λ q, q ++ x_eval) Q) <$> Q_eval,
          if Q_eval is Some _ then single_class_eval else true) ∧
  eval_lc2st eval_c2st P_eval [x_eval] fitted Q_eval single_class_eval
    = eval_c2st (map (λ p, p ++ x_eval) P_eval)
        ((λ Q, map (λ q, q ++ x_eval) Q) <$> Q_eval) fitted
        (if Q_eval is Some _ then single_class_eval else true) ∧
  length (map (λ p, p ++ x_eval) P_eval) = length P_eval ∧
  (∀ i p, P_eval !! i = Some p →
     map (λ p, p ++ x_eval) P_eval !! i = Some (p ++ x_eval)).
Proof.
  intros HP HxP HQ HxQ.
  destruct (concatenate_axis1_shape P x_P n d d_x HP HxP) as [HcP HsP].
  destruct (concatenate_axis1_shape Q x_Q n' d d_x HQ HxQ) as [HcQ HsQ].
  assert (Hfeat : eval_features P_eval [x_eval] Q_eval single_class_eval
    = Ok (map (λ p, p ++ x_eval) P_eval,
          (λ Q, map (λ q, q ++ x_eval) Q) <$> Q_eval,
          if Q_eval is Some _ then single_class_eval else true)).
  { unfold eval_features. rewrite concatenate_repeat. cbn.
    destruct Q_eval as [Qe|]; [|done]. by rewrite concatenate_repeat. }
  split; [|split; [done|split; [done|split; [done|split; [|split]]]]].
  - unfold train_lc2st, mbind, M_bind, lift. by rewrite HcP, HcQ.
  - unfold eval_lc2st. by rewrite Hfeat.
  - apply length_map.
  - intros i p Hp. by rewrite list_lookup_fmap, Hp.
Qed.

(** C7: without samples of [Q], [eval_lc2st] calls [eval_c2st] with
    [single_class_eval = True], whatever flag the caller passed. *)
Theorem eval_lc2st_forces_single_class (P x_eval : matrix) (fitted : clf)
    (single_class_eval : bool) :
  eval_lc2st eval_c2st P x_eval fitted None single_class_eval
    = (P_x_eval ← concatenate_axis1 P (repeat x_eval (length P));
       eval_c2st P_x_eval None fitted true) ∧
  eval_lc2st eval_c2st P x_eval fitted None single_class_eval
    = eval_lc2st eval_c2st P x_eval fitted None true.
Proof.
  unfold eval_lc2st, eval_features.
  by destruct (concatenate_axis1 P (repeat x_eval (length P))).
Qed.

(** One classifier, trained by [train_lc2st] and evaluated by [eval_lc2st]. *)
Definition single_classifier (P Q x_P x_Q x_eval : matrix)
    (P_eval Q_eval : option matrix) (classifier : clf_cfg)
    (single_class_eval : bool) : M (rng := rng) (rat * list rat) :=
  fitted ← train_lc2st train_c2st P Q x_P x_Q classifier;
  lift (eval_lc2st_opt eval_c2st P_eval x_eval fitted Q_eval single_class_eval).

Lemma compute_scores_accuracy (accuracy : float) (probas : ndarray)
    (single_class_eval : bool) (metrics : list string) :
  ∀ (init scores : gmap string float) (m : string),
  compute_scores compute_metric accuracy probas single_class_eval init metrics = Ok scores →
  contains "accuracy" m = true →
  m ∈ metrics ∨ init !! m = Some accuracy →
  scores !! m = Some accuracy.
Proof.
  induction metrics as [|k rest IH]; intros init scores m Hrun Hacc Hm.
  - injection Hrun as <-. destruct Hm as [Hm|Hm]; [by apply elem_of_nil in Hm | done].
  - cbn [compute_scores] in Hrun.
    destruct (score_of compute_metric accuracy probas single_class_eval k) as [v|e] eqn:Hv;
      [|done].
    cbn in Hrun. apply (IH _ _ m Hrun Hacc).
    destruct (decide (m = k)) as [->|Hne].
    + right. unfold score_of in Hv. rewrite Hacc in Hv. injection Hv as <-.
      apply lookup_insert_eq.
    + destruct Hm as [Hm|Hm].
      * left. apply elem_of_cons in Hm as [?|?]; done.
      * right. by rewrite lookup_insert_ne.
Qed.

(** C4: without cross-validation and with [n_ensemble = 1], [lc2st_scores]
    computes its scores from exactly the accuracy and the probabilities of
    one [train_lc2st] followed by one [eval_lc2st], started in the same
    random state; it returns these probabilities unchanged, and stores this
    accuracy under every accuracy metric. *)
Theorem lc2st_scores_single_member (P Q x_P x_Q x_eval : matrix)
    (P_eval Q_eval : option matrix) (metrics : list string) (classifier : clf_cfg)
    (single_class_eval : bool) (n_folds : nat) (in_sample : bool) (s : rng) :
  lc2st_scores train_c2st eval_c2st compute_metric shuffle P Q x_P x_Q x_eval
    P_eval Q_eval metrics classifier single_class_eval false n_folds in_sample 1 s
  = ('(accuracy, proba) ←
       single_classifier P Q x_P x_Q x_eval
         (if in_sample then Some P else P_eval)
         (if in_sample then Some Q else Q_eval) classifier single_class_eval;
     scores ← lift (compute_scores compute_metric (Fin accuracy) (Array proba)
                      single_class_eval ∅ metrics);
     mret (EnsembleScores scores (Array proba))) s
  ∧
  ∀ accuracy probas scores m,
    compute_scores compute_metric accuracy probas single_class_eval ∅ metrics = Ok scores →
    m ∈ metrics → contains "accuracy" m = true →
    scores !! m = Some accuracy.
Proof.
  split.
  - unfold lc2st_scores, lc2st_scores_ensemble, single_classifier.
    cbn [ensemble_loop]. unfold mbind, M_bind, mret, M_ret.
    destruct (train_lc2st train_c2st P Q x_P x_Q classifier s) as [[fitted s']|e]; [|done].
    unfold lift.
    destruct (eval_lc2st_opt eval_c2st (if in_sample then Some P else P_eval) x_eval
                fitted (if in_sample then Some Q else Q_eval) single_class_eval)
      as [[accuracy proba]|e]; [|done].
    cbn [app]. rewrite mean_singleton, mean_axis0_singleton.
    by destruct (compute_scores compute_metric (Fin accuracy) (Array proba)
                   single_class_eval ∅ metrics).
  - intros accuracy probas scores m Hrun Hm Hacc.
    apply (compute_scores_accuracy accuracy probas single_class_eval metrics ∅ scores m);
      auto.
Qed.

End WithClassifier.

(** A classifier that ignores its training data and predicts [1/2] for
    every evaluation row, to run the functions above on concrete arrays. *)
Definition coin_train : matrix → matrix → unit → M (rng := nat) unit :=
  λ _ _ _ s, Ok ((), S s).
Definition coin_eval : matrix → option matrix → unit → bool → result (rat * list rat) :=
  λ P _ _ _, Ok ((1 # 2)%Q, map (λ _, (1 # 2)%Q) P).

Lemma lc2st_joint_features_witness :
  has_shape [[1%Q; 2%Q]; [3%Q; 4%Q]] 2 2 ∧
  has_shape [[5%Q]; [6%Q]] 2 1 ∧
  has_shape [[7%Q; 8%Q]] 1 2 ∧
  has_shape [[9%Q]] 1 1 ∧
  train_lc2st coin_train [[1%Q; 2%Q]; [3%Q; 4%Q]] [[7%Q; 8%Q]] [[5%Q]; [6%Q]] [[9%Q]] () 0%nat
    = coin_train (zip_with app [[1%Q; 2%Q]; [3%Q; 4%Q]] [[5%Q]; [6%Q]])
        (zip_with app [[7%Q; 8%Q]] [[9%Q]]) () 0%nat ∧
  has_shape (zip_with app [[1%Q; 2%Q]; [3%Q; 4%Q]] [[5%Q]; [6%Q]]) 2 (2 + 1) ∧
  has_shape (zip_with app [[7%Q; 8%Q]] [[9%Q]]) 1 (2 + 1) ∧
  eval_features [[1%Q; 2%Q]; [3%Q; 4%Q]] [[10%Q]] None false
    = Ok (map (λ p, p ++ [10%Q]) [[1%Q; 2%Q]; [3%Q; 4%Q]],
          (λ Q, map (λ q, q ++ [10%Q]) Q) <$> None,
          true) ∧
  eval_lc2st coin_eval [[1%Q; 2%Q]; [3%Q; 4%Q]] [[10%Q]] () None false
    = coin_eval (map (λ p, p ++ [10%Q]) [[1%Q; 2%Q]; [3%Q; 4%Q]])
        ((λ Q, map (λ q, q ++ [10%Q]) Q) <$> None) () true ∧
  length (map (λ p, p ++ [10%Q]) [[1%Q; 2%Q]; [3%Q; 4%Q]])
    = length [[1%Q; 2%Q]; [3%Q; 4%Q]] ∧
  (∀ i p, [[1%Q; 2%Q]; [3%Q; 4%Q]] !! i = Some p →
     map (λ p, p ++ [10%Q]) [[1%Q; 2%Q]; [3%Q; 4%Q]] !! i = Some (p ++ [10%Q])).
Proof.
  assert (H1 : has_shape [[1%Q; 2%Q]; [3%Q; 4%Q]] 2 2) by (split; [done | by repeat constructor]).
  assert (H2 : has_shape [[5%Q]; [6%Q]] 2 1) by (split; [done | by repeat constructor]).
  assert (H3 : has_shape [[7%Q; 8%Q]] 1 2) by (split; [done | by repeat constructor]).
  assert (H4 : has_shape [[9%Q]] 1 1) by (split; [done | by repeat constructor]).
  split; [exact H1|]. split; [exact H2|]. split; [exact H3|]. split; [exact H4|].
  exact (lc2st_joint_features coin_train coin_eval
           [[1%Q; 2%Q]; [3%Q; 4%Q]] [[7%Q; 8%Q]] [[5%Q]; [6%Q]] [[9%Q]]
           [[1%Q; 2%Q]; [3%Q; 4%Q]] None [10%Q] () () false 0%nat 2 1 2 1 H1 H2 H3 H4).
Defined.

(** The ensemble of one member on concrete arrays: the accuracy and the
    probabilities are those of the single classifier. *)
Example lc2st_scores_coin :
  lc2st_scores coin_train coin_eval (λ _ _ _, Ok NaN) (λ n, seq 0 n)
    [[1%Q; 2%Q]; [3%Q; 4%Q]] [[7%Q; 8%Q]; [0%Q; 0%Q]] [[5%Q]; [6%Q]] [[9%Q]; [9%Q]] [[10%Q]]
    (Some [[1%Q; 1%Q]; [2%Q; 2%Q]; [3%Q; 3%Q]]) None ["accuracy"] () true false 10 false 1 0%nat
  = Ok (EnsembleScores {["accuracy" := Fin (1 # 2)]}
          (Array [(1 # 2)%Q; (1 # 2)%Q; (1 # 2)%Q]), 1%nat).
Proof. vm_compute. reflexivity. Qed.

End LocalC2STProofs.

(** ** Termination and result of [hpd_region] *)

Module ConfidenceRegionsProofs.
Import NumPy NumPyFacts ConfidenceRegions.

Lemma linspace_length (start stop : Q) (num : nat) :
  length (linspace start stop num) = num.
Proof.
  destruct num as [|[|num]]; [done..|].
  unfold linspace. by rewrite length_map, length_seq.
Qed.

Lemma py_index_nat {A : Type} (l : list A) (i : nat) (x : A) :
  l !! i = Some x → py_index l (Z.of_nat i) = Ok x.
Proof.
  intros Hi. unfold py_index.
  destruct (decide (Z.of_nat i < 0)%Z) as [?|_]; [lia|].
  destruct (decide (Z.of_nat i < 0)%Z) as [?|_]; [lia|].
  by rewrite Nat2Z.id, Hi.
Qed.

(** [l[i - 1]]: the element before position [i], and the last element of
    the list when [i = 0]. *)
Lemma py_index_pred {A : Type} (l : list A) (i : nat) (x : A) :
  l !! (match i with O => length l - 1 | S j => j end)%nat = Some x →
  py_index l (Z.of_nat i - 1) = Ok x.
Proof.
  intros Hi. unfold py_index. destruct i as [|j].
  - pose proof (lookup_lt_Some _ _ _ Hi) as Hlt.
    destruct (decide (Z.of_nat 0 - 1 < 0)%Z) as [_|?]; [|lia].
    destruct (decide (Z.of_nat (length l) + (Z.of_nat 0 - 1) < 0)%Z) as [?|_]; [lia|].
    replace (Z.to_nat (Z.of_nat (length l) + (Z.of_nat 0 - 1))) with (length l - 1)%nat by lia.
    by rewrite Hi.
  - destruct (decide (Z.of_nat (S j) - 1 < 0)%Z) as [?|_]; [lia|].
    destruct (decide (Z.of_nat (S j) - 1 < 0)%Z) as [?|_]; [lia|].
    replace (Z.to_nat (Z.of_nat (S j) - 1)) with j by lia.
    by rewrite Hi.
Qed.

(** *** The selection by a mask *)

Lemma select_cons {A : Type} (x : A) (a : list A) (b : bool) (mask : list bool) :
  select (x :: a) (b :: mask) = if b then x :: select a mask else select a mask.
Proof.
  unfold select. cbn [zip zip_with]. rewrite filter_cons. cbn [snd].
  destruct b; [by rewrite decide_True | by rewrite decide_False].
Qed.

(** The entries selected by a mask are those at the positions where the
    mask holds. *)
Lemma select_spec {A : Type} (a : list A) (mask : list bool) (x : A) :
  x ∈ select a mask ↔ ∃ i, a !! i = Some x ∧ mask !! i = Some true.
Proof.
  unfold select. rewrite list_elem_of_fmap. split.
  - intros ([x' b] & -> & Hin). apply list_elem_of_filter in Hin as [Hb Hin].
    cbn in Hb. subst b. apply list_elem_of_lookup_1 in Hin as [i Hi].
    apply lookup_zip_with_Some in Hi as (x1 & b1 & [= <- <-] & Hx & Hb).
    by exists i.
  - intros (i & Hx & Hb). exists (x, true). split; [done|].
    apply list_elem_of_filter. split; [done|].
    apply list_elem_of_lookup_2 with i.
    apply lookup_zip_with_Some. by exists x, true.
Qed.

(** *** The mass above a threshold is a number *)

(** The sum of the finite probabilities that reach [p]. *)
Definition finite_mass (posterior_probs : list float) (p : Q) : Q :=
  sum (omap (λ x, match x with
                  | Fin q => if leb p q then Some q else None
                  | NaN => None
                  end) posterior_probs).

(** No [nan] is ever selected, so the sum of the selection is finite. *)
Lemma mass_above_finite (posterior_probs : list float) (p : Q) :
  mass_above posterior_probs p = Fin (finite_mass posterior_probs p).
Proof.
  unfold mass_above, finite_mass, greater_equal.
  induction posterior_probs as [|x probs IH]; [done|].
  cbn [map]. rewrite select_cons. destruct x as [q|]; cbn [omap list_omap].
  - destruct (leb p q); [|done]. cbn [torch_sum]. by rewrite IH.
  - done.
Qed.

(** *** The level the loop tracks *)

(** The first of [init :: xs] among those closest to [level]. *)
Definition best (level init : Q) (xs : list Q) : Q :=
  foldl (λ current x,
           if ltb (Qabs (x - level)) (Qabs (current - level)) then x else current)
        init xs.

Lemma best_snoc (level init : Q) (xs : list Q) (x : Q) :
  best level init (xs ++ [x])
  = if ltb (Qabs (x - level)) (Qabs (best level init xs - level))
    then x else best level init xs.
Proof. unfold best. by rewrite foldl_app. Qed.

Lemma best_spec (level init : Q) (xs : list Q) :
  ∃ pos,
    (init :: xs) !! pos = Some (best level init xs) ∧
    (∀ x, x ∈ init :: xs → (Qabs (best level init xs - level) <= Qabs (x - level))%Q) ∧
    (∀ j x, (j < pos)%nat → (init :: xs) !! j = Some x →
       (Qabs (best level init xs - level) < Qabs (x - level))%Q).
Proof.
  induction xs as [|x xs IH] using rev_ind.
  - exists 0%nat. split; [done|]. split.
    + intros x Hx. apply list_elem_of_singleton in Hx as ->. apply Qle_refl.
    + intros j x Hj. lia.
  - destruct IH as (pos & Hpos & Hmin & Hfirst). rewrite best_snoc.
    destruct (ltb (Qabs (x - level)) (Qabs (best level init xs - level))) eqn:Hcmp.
    + apply ltb_spec in Hcmp. exists (S (length xs)). split; [|split].
      * by apply (list_lookup_middle (init :: xs) [] x (S (length xs))).
      * intros y [->|[Hy|Hy]%elem_of_app]%elem_of_cons.
        -- apply Qlt_le_weak. eapply Qlt_le_trans; [exact Hcmp|]. apply Hmin. by left.
        -- apply Qlt_le_weak. eapply Qlt_le_trans; [exact Hcmp|]. apply Hmin. by right.
        -- apply list_elem_of_singleton in Hy as ->. apply Qle_refl.
      * intros j y Hj Hy. eapply Qlt_le_trans; [exact Hcmp|]. apply Hmin.
        apply list_elem_of_lookup_2 with j.
        change (init :: xs ++ [x]) with ((init :: xs) ++ [x]) in Hy.
        rewrite lookup_app_l in Hy; [done | cbn; lia].
    + assert (Hge : (Qabs (best level init xs - level) <= Qabs (x - level))%Q).
      { apply Qnot_lt_le. intros Hlt. apply ltb_spec in Hlt. congruence. }
      exists pos. split; [|split].
      * change (init :: xs ++ [x]) with ((init :: xs) ++ [x]).
        rewrite lookup_app_l; [done|]. by eapply lookup_lt_Some.
      * intros y [->|[Hy|Hy]%elem_of_app]%elem_of_cons.
        -- apply Hmin. by left.
        -- apply Hmin. by right.
        -- by apply list_elem_of_singleton in Hy as ->.
      * intros j y Hj Hy. apply (Hfirst j); [done|].
        change (init :: xs ++ [x]) with ((init :: xs) ++ [x]) in Hy.
        rewrite lookup_app_l in Hy; [done|].
        apply lookup_lt_Some in Hpos. lia.
Qed.

Section Loop.

Variables (posterior_probs : list float) (p_stars : list Q) (confidence_level : Q)
  (n_p_stars : nat) (tol : Q).
Hypothesis p_stars_length : length p_stars = n_p_stars.

Abbreviation step := (hpd_step posterior_probs p_stars confidence_level n_p_stars tol).
Abbreviation loop fuel :=
  (hpd_loop fuel posterior_probs p_stars confidence_level n_p_stars tol).
Abbreviation dist x := (Qabs (x - confidence_level)).

(** The levels of the first [k] thresholds. *)
Definition examined (k : nat) : list Q :=
  finite_mass posterior_probs <$> take k p_stars.

Lemma examined_S (k : nat) (p_star : Q) :
  p_stars !! k = Some p_star →
  examined (S k) = examined k ++ [finite_mass posterior_probs p_star].
Proof.
  intros Hp. unfold examined. rewrite (take_S_r _ _ _ Hp). by rewrite fmap_app.
Qed.

(** What holds of the loop variables whenever the condition is evaluated:
    [idx] thresholds have been examined, the tracked level is the best of
    their levels, and it was farther than [tol] from the requested level at
    every earlier evaluation. *)
Record invariant (st : loop_state) : Prop := {
  inv_idx : (idx st ≤ n_p_stars)%nat;
  inv_levels : new_confidence_levels st = Fin <$> examined (idx st);
  inv_best : current_confidence_level st = best confidence_level 1 (examined (idx st));
  inv_continued : ∀ j, (j < idx st)%nat →
    (tol < dist (best confidence_level 1 (examined j)))%Q
}.

Definition exited (st : loop_state) : Prop :=
  (dist (current_confidence_level st) <= tol)%Q ∨ idx st = n_p_stars.

Lemma invariant_init :
  invariant {| current_confidence_level := 1; new_confidence_levels := []; idx := 0 |}.
Proof. split; cbn; [lia | done | done | intros j Hj; lia]. Qed.

Lemma step_exit (st st' : loop_state) :
  step st = Ok (Exit st') → st' = st ∧ exited st.
Proof.
  unfold hpd_step. destruct (ltb tol _) eqn:Htol.
  - case_decide as Hidx.
    + intros [= <-]. split; [done | by right].
    + destruct (py_index p_stars (Z.of_nat (idx st))); cbn; done.
  - intros [= <-]. split; [done|]. left.
    apply Qnot_lt_le. intros Hlt. apply ltb_spec in Hlt. congruence.
Qed.

(** Each run of the body increments [idx] by one and keeps the invariant. *)
Lemma step_continue (st st' : loop_state) :
  invariant st → step st = Ok (Continue st') →
  idx st' = S (idx st) ∧ invariant st'.
Proof using p_stars_length.
  intros Hinv. unfold hpd_step. destruct (ltb tol _) eqn:Htol; [|done].
  apply ltb_spec in Htol.
  case_decide as Hidx; [done|].
  assert (Hlt : (idx st < length p_stars)%nat).
  { pose proof (inv_idx st Hinv). lia. }
  destruct (lookup_lt_is_Some_2 _ _ Hlt) as [p_star Hp].
  rewrite (py_index_nat _ _ _ Hp).
  change (Ok p_star ≫= ?k) with (k p_star). cbv beta zeta.
  rewrite mass_above_finite. intros [= <-].
  cbn [idx current_confidence_level new_confidence_levels].
  split; [lia|]. split; cbn [idx current_confidence_level new_confidence_levels].
  - lia.
  - rewrite (inv_levels st Hinv). replace (idx st + 1)%nat with (S (idx st)) by lia.
    rewrite (examined_S _ _ Hp). by rewrite fmap_app.
  - replace (idx st + 1)%nat with (S (idx st)) by lia.
    rewrite (examined_S _ _ Hp), best_snoc. by rewrite (inv_best st Hinv).
  - intros j Hj. destruct (decide (j = idx st)) as [->|Hne].
    + by rewrite <- (inv_best st Hinv).
    + apply (inv_continued st Hinv). lia.
Qed.

(** The step never raises while the invariant holds. *)
Lemma step_ok (st : loop_state) :
  invariant st → ∃ o, step st = Ok o.
Proof using p_stars_length.
  intros Hinv. unfold hpd_step. destruct (ltb tol _); [|by eexists].
  case_decide as Hidx; [by eexists|].
  assert (Hlt : (idx st < length p_stars)%nat).
  { pose proof (inv_idx st Hinv). lia. }
  destruct (lookup_lt_is_Some_2 _ _ Hlt) as [p_star Hp].
  rewrite (py_index_nat _ _ _ Hp). cbn. by eexists.
Qed.

(** The loop exits within [n_p_stars - idx + 1] evaluations of its
    condition. *)
Lemma loop_exits (remaining : nat) :
  ∀ st, invariant st → (idx st + remaining = n_p_stars)%nat →
  ∃ st', loop (S remaining) st = Ok (Some st') ∧
         invariant st' ∧ exited st' ∧ (idx st ≤ idx st')%nat.
Proof using p_stars_length.
  induction remaining as [|remaining IH]; intros st Hinv Hrem.
  - destruct (step_ok st Hinv) as [[st'|st'] Hstep].
    + exfalso. unfold hpd_step in Hstep. destruct (ltb tol _); [|done].
      rewrite decide_True in Hstep by lia. done.
    + destruct (step_exit st st' Hstep) as [-> Hex].
      exists st. cbn [hpd_loop]. rewrite Hstep. cbn. done.
  - destruct (step_ok st Hinv) as [[st'|st'] Hstep].
    + destruct (step_continue st st' Hinv Hstep) as [Hidx Hinv'].
      destruct (IH st' Hinv') as (st'' & Hloop & Hinv'' & Hex & Hle); [lia|].
      exists st''. split; [|split; [done|split; [done|lia]]].
      change (loop (S (S remaining)) st) with
        (o ← step st; match o with
                      | Exit st' => Ok (Some st')
                      | Continue st' => loop (S remaining) st'
                      end).
      rewrite Hstep. exact Hloop.
    + destruct (step_exit st st' Hstep) as [-> Hex].
      exists st. cbn [hpd_loop]. rewrite Hstep. cbn. done.
Qed.

(** More fuel does not change the result. *)
Lemma loop_fuel_mono (fuel : nat) :
  ∀ st st' fuel', loop fuel st = Ok (Some st') → (fuel ≤ fuel')%nat →
  loop fuel' st = Ok (Some st').
Proof.
  induction fuel as [|fuel IH]; intros st st' fuel' Hloop Hle; [done|].
  destruct fuel' as [|fuel']; [lia|].
  cbn [hpd_loop] in Hloop |- *.
  destruct (step st) as [[st1|st1]|e]; cbn in Hloop |- *; [|done..].
  apply (IH st1); [done | lia].
Qed.

End Loop.

(** *** The claim in its own words

    The thresholds run from 0.99 down to 0 in equal steps; a row of the grid
    has its density over the total density of the grid as normalised
    probability; a threshold selects the rows whose normalised probability
    reaches it, and their mass is the sum of these probabilities. *)

Definition threshold (n_p_stars i : nat) : Q :=
  ((99 # 100)
   - inject_Z (Z.of_nat i) * ((99 # 100) / inject_Z (Z.of_nat (n_p_stars - 1))))%Q.

Definition total_density (density : list Q → Q) (param_grid : list (list Q)) : Q :=
  foldr Qplus 0%Q (density <$> param_grid).

Definition normalized_probability (density : list Q → Q) (param_grid : list (list Q))
    (row : list Q) : Q :=
  (density row / total_density density param_grid)%Q.

Definition rows_at_least (density : list Q → Q) (param_grid : list (list Q)) (p : Q) :
    list (list Q) :=
  filter (λ row, (p <= normalized_probability density param_grid row)%Q) param_grid.

Definition mass_at_least (density : list Q → Q) (param_grid : list (list Q)) (p : Q) : Q :=
  foldr Qplus 0%Q
    (normalized_probability density param_grid <$> rows_at_least density param_grid p).

Lemma threshold_lookup (n_p_stars i : nat) (p : Q) :
  linspace (99 # 100) 0 n_p_stars !! i = Some p → (p == threshold n_p_stars i)%Q.
Proof.
  unfold threshold. destruct n_p_stars as [|[|n]]; [done| |].
  - destruct i as [|i]; [|done]. intros [= <-]. cbn. ring.
  - unfold linspace. rewrite list_lookup_fmap. intros Hi.
    destruct (seq 0 (S (S n)) !! i) as [j|] eqn:Hj; [|done].
    apply lookup_seq in Hj as [-> _]. injection Hi as <-. cbn [Nat.add].
    change (S (S n) - 1)%nat with (S n).
    assert (Hn : ¬ (inject_Z (Z.of_nat (S n)) == 0)%Q).
    { change 0%Q with (inject_Z 0). rewrite inject_Z_injective. lia. }
    generalize dependent (inject_Z (Z.of_nat (S n))).
    generalize (inject_Z (Z.of_nat i)). intros x d Hd. field. exact Hd.
Qed.

Lemma rows_at_least_proper (density : list Q → Q) (param_grid : list (list Q)) (p p' : Q) :
  (p == p')%Q → rows_at_least density param_grid p = rows_at_least density param_grid p'.
Proof.
  intros Hp. unfold rows_at_least. apply list_filter_iff. intros row. by rewrite Hp.
Qed.

(** The code's selection and mass, when the total density does not
    vanish. *)
Lemma select_rows (density : list Q → Q) (t p : Q) (l : list (list Q)) :
  select l (greater_equal (map (λ q, Fin (q / t)) (map density l)) p)
  = filter (λ row, (p <= density row / t)%Q) l.
Proof.
  unfold greater_equal. induction l as [|row l IH]; [done|].
  cbn [map]. rewrite select_cons, filter_cons, IH.
  destruct (leb p (density row / t)) eqn:Hle.
  - apply leb_spec in Hle. by rewrite decide_True.
  - rewrite decide_False; [done|]. intros Hle'. apply leb_spec in Hle'. congruence.
Qed.

Lemma finite_mass_rows (density : list Q → Q) (t p : Q) (l : list (list Q)) :
  finite_mass (map (λ q, Fin (q / t)) (map density l)) p
  = foldr Qplus 0%Q ((λ row, density row / t)%Q <$> filter (λ row, (p <= density row / t)%Q) l).
Proof.
  unfold finite_mass, sum. induction l as [|row l IH]; [done|].
  cbn [map omap list_omap]. rewrite filter_cons.
  destruct (leb p (density row / t)) eqn:Hle.
  - apply leb_spec in Hle. rewrite decide_True by done. cbn. by rewrite IH.
  - rewrite decide_False; [done|]. intros Hle'. apply leb_spec in Hle'. congruence.
Qed.

(** The code's selection and mass, when the total density vanishes: every
    probability is [nan] and nothing is selected. *)
Lemma select_nan {A : Type} (l : list A) (p : Q) :
  select l (greater_equal (map (λ _, NaN) l) p) = [] ∧
  finite_mass (map (λ _ : A, NaN) l) p = 0%Q.
Proof.
  unfold greater_equal, finite_mass. induction l as [|x l [IH1 IH2]]; [done|].
  cbn [map]. rewrite select_cons. split; [done|]. cbn [omap list_omap]. done.
Qed.

Lemma normalized_probs_cases (density : list Q → Q) (param_grid : list (list Q)) :
  normalized_probs density param_grid
  = if Qeq_bool (total_density density param_grid) 0
    then map (λ _, NaN) param_grid
    else map (λ q, Fin (q / total_density density param_grid)) (map density param_grid).
Proof.
  unfold normalized_probs.
  change (sum (map density param_grid)) with (total_density density param_grid).
  destruct (Qeq_bool (total_density density param_grid) 0); [|done].
  by rewrite map_map.
Qed.

(** The region and the level of a threshold, from the code to the claim's
    words. *)
Lemma region_of_threshold (density : list Q → Q) (param_grid : list (list Q)) (p : Q) :
  select param_grid (greater_equal (normalized_probs density param_grid) p)
  = if Qeq_bool (total_density density param_grid) 0 then []
    else rows_at_least density param_grid p.
Proof.
  rewrite normalized_probs_cases.
  destruct (Qeq_bool (total_density density param_grid) 0).
  - apply select_nan.
  - apply select_rows.
Qed.

Lemma level_of_threshold (density : list Q → Q) (param_grid : list (list Q)) (p : Q) :
  finite_mass (normalized_probs density param_grid) p
  = if Qeq_bool (total_density density param_grid) 0 then 0%Q
    else mass_at_least density param_grid p.
Proof.
  rewrite normalized_probs_cases.
  destruct (Qeq_bool (total_density density param_grid) 0).
  - apply (select_nan param_grid).
  - apply finite_mass_rows.
Qed.

(** C10: for [n_p_stars >= 1] and a density that is not negative on the
    grid, [hpd_region] returns with any fuel above [n_p_stars]. Each run of
    the loop body increments [idx] by one and examines one threshold, so
    that at most [n_p_stars] levels are examined. The loop exits at the
    first evaluation of its condition at which the tracked level is within
    [tol] of [confidence_level], or else when all thresholds are examined:
    at every earlier evaluation the initial [1] and the levels examined so
    far were all farther than [tol]. The level returned is the first one of
    the initial [1] and the examined levels that is closest to
    [confidence_level]. The level examined at step [i] is the mass of the
    rows whose normalised probability reaches the threshold
    [0.99 - i * 0.99 / (n_p_stars - 1)], and the region returned holds the
    rows that reach the last examined threshold (Python reads [p_stars[-1]],
    the last threshold of the grid, when no run of the body took place).
    When the density vanishes on the whole grid the probabilities are
    [nan]: every level is [0] and the region is empty. *)
Theorem hpd_region_terminates (density : list Q → Q) (param_grid : list (list Q))
    (confidence_level : Q) (n_p_stars : nat) (tol : Q) :
  (1 ≤ n_p_stars)%nat →
  (∀ row, row ∈ param_grid → (0 <= density row)%Q) →
  (∀ posterior_probs p_stars st st',
     hpd_step posterior_probs p_stars confidence_level n_p_stars tol st = Ok (Continue st') →
     idx st' = S (idx st) ∧
     length (new_confidence_levels st') = S (length (new_confidence_levels st))) ∧
  ∃ (level : Q) (region : list (list Q)) (levels : list Q),
    (∀ fuel, (n_p_stars < fuel)%nat →
       hpd_region fuel density param_grid confidence_level n_p_stars tol
       = Ok (Some (level, region, Fin <$> levels))) ∧
    (length levels ≤ n_p_stars)%nat ∧
    ((Qabs (level - confidence_level) <= tol)%Q ∨ length levels = n_p_stars) ∧
    (∀ j x, (j < length levels)%nat → x ∈ 1%Q :: take j levels →
       (tol < Qabs (x - confidence_level))%Q) ∧
    (∃ pos, (1%Q :: levels) !! pos = Some level ∧
       (∀ x, x ∈ 1%Q :: levels →
          (Qabs (level - confidence_level) <= Qabs (x - confidence_level))%Q) ∧
       (∀ j x, (j < pos)%nat → (1%Q :: levels) !! j = Some x →
          (Qabs (level - confidence_level) < Qabs (x - confidence_level))%Q)) ∧
    (∀ i q, levels !! i = Some q →
       (q == if Qeq_bool (total_density density param_grid) 0 then 0
             else mass_at_least density param_grid (threshold n_p_stars i))%Q) ∧
    region
    = if Qeq_bool (total_density density param_grid) 0 then []
      else rows_at_least density param_grid
             (threshold n_p_stars
                (match length levels with O => n_p_stars - 1 | S j => j end)%nat).
Proof.
  intros Hn Hdensity.
  set (posterior_probs := normalized_probs density param_grid).
  set (p_stars := linspace (99 # 100) 0 n_p_stars).
  assert (Hlen : length p_stars = n_p_stars) by apply linspace_length.
  split.
  { intros probs ps st st'. unfold hpd_step. destruct (ltb tol _); [|done].
    case_decide; [done|].
    destruct (py_index ps (Z.of_nat (idx st))); [|done].
    cbn. intros [= <-]. cbn. rewrite length_app. cbn. lia. }
  destruct (loop_exits posterior_probs p_stars confidence_level n_p_stars tol Hlen
              n_p_stars _
              (invariant_init posterior_probs p_stars confidence_level n_p_stars tol Hlen))
    as (st & Hloop & Hinv & Hexit & _); [done|].
  destruct Hinv as [Hidx Hlevels Hbest Hcontinued].
  set (levels := examined posterior_probs p_stars (idx st)) in *.
  assert (Hlength : length levels = idx st).
  { subst levels. unfold examined. rewrite length_fmap, length_take_le; [done | lia]. }
  assert (Hq : is_Some (p_stars !! (match idx st with O => n_p_stars - 1 | S j => j end)%nat)).
  { apply lookup_lt_is_Some. rewrite Hlen. destruct (idx st); lia. }
  destruct Hq as [p_star Hp].
  exists (current_confidence_level st),
         (select param_grid (greater_equal posterior_probs p_star)), levels.
  split; [|split; [|split; [|split; [|split; [|split]]]]].
  - intros fuel Hfuel. unfold hpd_region. fold posterior_probs p_stars.
    rewrite (loop_fuel_mono posterior_probs p_stars confidence_level n_p_stars tol Hlen
               (S n_p_stars) _ st fuel Hloop) by lia.
    cbn. rewrite (py_index_pred p_stars (idx st) p_star) by (by rewrite Hlen).
    cbn. by rewrite Hlevels.
  - lia.
  - rewrite Hlength. exact Hexit.
  - intros j x Hj Hx. rewrite Hlength in Hj.
    assert (Htake : take j levels = examined posterior_probs p_stars j).
    { subst levels. unfold examined. rewrite <- fmap_take, take_take.
      by replace (j `min` idx st)%nat with j by lia. }
    rewrite Htake in Hx.
    destruct (best_spec confidence_level 1 (examined posterior_probs p_stars j))
      as (_ & _ & Hmin & _).
    eapply Qlt_le_trans; [apply (Hcontinued j Hj) | by apply Hmin].
  - rewrite Hbest. apply best_spec.
  - intros i q Hi. subst levels. unfold examined in Hi.
    apply list_lookup_fmap_Some in Hi as (p & -> & Hp').
    apply lookup_take_Some in Hp' as [Hp' _].
    apply threshold_lookup in Hp'. subst posterior_probs.
    rewrite level_of_threshold.
    destruct (Qeq_bool (total_density density param_grid) 0); [reflexivity|].
    unfold mass_at_least. by rewrite (rows_at_least_proper _ _ _ _ Hp').
  - subst posterior_probs. rewrite region_of_threshold, Hlength.
    destruct (Qeq_bool (total_density density param_grid) 0); [done|].
    apply rows_at_least_proper, threshold_lookup. exact Hp.
Qed.

(** The density that reads the only coordinate of a row. *)
Definition first_coordinate (row : list Q) : Q :=
  match row with
  | [x] => x
  | _ => 0%Q
  end.

Lemma hpd_region_terminates_witness :
  (1 ≤ 3)%nat ∧
  (∀ row, row ∈ [[1%Q]; [3%Q]] → (0 <= first_coordinate row)%Q) ∧
  (∀ posterior_probs p_stars st st',
     hpd_step posterior_probs p_stars (1 # 2) 3 (1 # 100) st = Ok (Continue st') →
     idx st' = S (idx st) ∧
     length (new_confidence_levels st') = S (length (new_confidence_levels st))) ∧
  ∃ (level : Q) (region : list (list Q)) (levels : list Q),
    (∀ fuel, (3 < fuel)%nat →
       hpd_region fuel first_coordinate [[1%Q]; [3%Q]] (1 # 2) 3 (1 # 100)
       = Ok (Some (level, region, Fin <$> levels))) ∧
    (length levels ≤ 3)%nat ∧
    ((Qabs (level - (1 # 2)) <= 1 # 100)%Q ∨ length levels = 3%nat) ∧
    (∀ j x, (j < length levels)%nat → x ∈ 1%Q :: take j levels →
       (1 # 100 < Qabs (x - (1 # 2)))%Q) ∧
    (∃ pos, (1%Q :: levels) !! pos = Some level ∧
       (∀ x, x ∈ 1%Q :: levels → (Qabs (level - (1 # 2)) <= Qabs (x - (1 # 2)))%Q) ∧
       (∀ j x, (j < pos)%nat → (1%Q :: levels) !! j = Some x →
          (Qabs (level - (1 # 2)) < Qabs (x - (1 # 2)))%Q)) ∧
    (∀ i q, levels !! i = Some q →
       (q == if Qeq_bool (total_density first_coordinate [[1%Q]; [3%Q]]) 0 then 0
             else mass_at_least first_coordinate [[1%Q]; [3%Q]] (threshold 3 i))%Q) ∧
    region
    = if Qeq_bool (total_density first_coordinate [[1%Q]; [3%Q]]) 0 then []
      else rows_at_least first_coordinate [[1%Q]; [3%Q]]
             (threshold 3 (match length levels with O => 3 - 1 | S j => j end)%nat).
Proof.
  assert (Hd : ∀ row, row ∈ [[1%Q]; [3%Q]] → (0 <= first_coordinate row)%Q).
  { intros row Hrow. repeat (apply elem_of_cons in Hrow as [->|Hrow]; [by vm_compute|]).
    by apply elem_of_nil in Hrow. }
  split; [lia|]. split; [exact Hd|].
  apply (hpd_region_terminates first_coordinate [[1%Q]; [3%Q]] (1 # 2) 3 (1 # 100));
    [lia | exact Hd].
Defined.

(** Probabilities [1/4] and [3/4], thresholds [0.99, 0.495, 0]: the levels
    examined are [0, 3/4, 1]; the level [3/4] is the closest to [1/2], no
    level comes within [0.01] of it, and the region of the last threshold is
    the whole grid. *)
Example hpd_region_two_points :
  hpd_region 4 first_coordinate [[1%Q]; [3%Q]] (1 # 2) 3 (1 # 100)
  = Ok (Some ((3 # 4)%Q, [[1%Q]; [3%Q]], [Fin 0; Fin (3 # 4); Fin (16 # 16)])).
Proof. vm_compute. reflexivity. Qed.

(** With the requested level [0] the loop stops after the first threshold:
    its level [0] is within the tolerance, and no row reaches [0.99]. *)
Example hpd_region_stops_within_tol :
  hpd_region 4 first_coordinate [[1%Q]; [3%Q]] 0 3 (1 # 100)
  = Ok (Some (0%Q, [], [Fin 0])).
Proof. vm_compute. reflexivity. Qed.

(** A density that vanishes on the grid: the probabilities are [nan], every
    level is [0] and the region is empty. *)
Example hpd_region_zero_density :
  hpd_region 4 (λ _, 0%Q) [[0%Q]; [1%Q]] (1 # 2) 3 (1 # 100)
  = Ok (Some (1%Q, [], [Fin 0; Fin 0; Fin 0])).
Proof. vm_compute. reflexivity. Qed.

End ConfidenceRegionsProofs.

(** ** The SBC bands: what is analytic and what is simulated *)

Module PlotsProofs.
Import NumPy NumPyFacts PPPlots Plots.

Lemma find_seq_least (f : nat → bool) (n : nat) :
  ∀ a k, List.find f (seq a n) = Some k →
  (a ≤ k < a + n)%nat ∧ f k = true ∧ ∀ j, (a ≤ j < k)%nat → f j = false.
Proof.
  induction n as [|n IH]; intros a k Hfind; [done|].
  cbn [seq List.find] in Hfind. destruct (f a) eqn:Hfa.
  - injection Hfind as <-. split; [lia|]. split; [done|]. intros j Hj. lia.
  - destruct (IH (S a) k Hfind) as (Hrange & Hk & Hleast).
    split; [lia|]. split; [done|]. intros j Hj.
    destruct (decide (j = a)) as [->|Hne]; [done|]. apply Hleast. lia.
Qed.

Lemma find_seq_none (f : nat → bool) (n : nat) :
  ∀ a, List.find f (seq a n) = None → ∀ j, (a ≤ j < a + n)%nat → f j = false.
Proof.
  induction n as [|n IH]; intros a Hfind j Hj; [lia|].
  cbn [seq List.find] in Hfind. destruct (f a) eqn:Hfa; [done|].
  destruct (decide (j = a)) as [->|Hne]; [done|]. apply (IH (S a)); [done | lia].
Qed.

Lemma leb_false (x y : Q) : leb x y = false → (y < x)%Q.
Proof.
  intros H. apply Qnot_le_lt. intros Hle. apply leb_spec in Hle. congruence.
Qed.

(** [binom_ppf_exact] is the quantile function of the binomial distribution:
    the least [k <= N] whose cumulative probability reaches [q] (and [N] if
    there is none). *)
Lemma binom_ppf_exact_spec (N : nat) (p q : Q) :
  (binom_ppf_exact N p q ≤ N)%nat ∧
  (∀ j, (j < binom_ppf_exact N p q)%nat → (binom_cdf N p j < q)%Q) ∧
  ((q <= binom_cdf N p (binom_ppf_exact N p q))%Q ∨ binom_ppf_exact N p q = N).
Proof.
  unfold binom_ppf_exact.
  destruct (List.find _ _) as [k|] eqn:Hfind; cbn [default from_option id].
  - destruct (find_seq_least _ _ _ _ Hfind) as (Hrange & Hk & Hleast).
    split; [lia|]. split.
    + intros j Hj. apply leb_false, Hleast. lia.
    + left. by apply leb_spec.
  - split; [lia|]. split; [|by right].
    intros j Hj. apply leb_false. apply (find_seq_none _ _ _ Hfind). lia.
Qed.

Lemma sum_replicate (n : nat) (m : Q) :
  (sum (replicate n m) == inject_Z (Z.of_nat n) * m)%Q.
Proof.
  induction n as [|n IH]; [cbn; ring|].
  cbn [replicate sum foldr]. fold (sum (replicate n m)).
  rewrite IH, Nat2Z.inj_succ, <- Z.add_1_r, inject_Z_plus. ring.
Qed.






(** A generator whose every draw is the constant [u]. *)
Definition constant_rvs (u : Q) : nat → unit → list Q * unit :=
  λ N s, (replicate N u, s).

(** Four PIT values and a grid of two points: the bounds are binomial
    quantiles of [Binomial(4, 1/2)] and [Binomial(4, 1 - 1e-9)]. *)
Example consistency_band_4_2 :
  consistency_band [[0%Q; 0%Q; 0%Q; 0%Q]] [0%Q; 1%Q]
  = Ok ([Fin 0; Fin 4], [Fin 4; Fin 4]).
Proof. vm_compute. reflexivity. Qed.

End PlotsProofs.

(** ** Further properties of [compute_pvalue] and [eval_htest] *)

Module TestUtilsMore.
Import NumPy NumPyFacts TestUtils TestUtilsProofs.

(** A call that returned found every requested metric in both dictionaries. *)
Lemma eval_htest_loop_covers data nulls alpha (metrics : list string)
    (acc reject : gmap string bool) :
  eval_htest_loop data nulls alpha acc metrics = Ok reject →
  covers data nulls metrics.
Proof.
  intros Hrun. destruct (covers_dec data nulls metrics) as [Hcov|Hmiss]; [done|].
  destruct (eval_htest_loop_raise data nulls alpha metrics acc Hmiss) as (k & _ & Hk).
  congruence.
Qed.

Lemma Qdiv_le_compat_r (a b c : Q) : (0 < c)%Q → (a <= b)%Q → (a / c <= b / c)%Q.
Proof.
  intros Hc Hab. apply Qmult_le_compat_r; [done|].
  apply Qlt_le_weak, Qinv_lt_0_compat, Hc.
Qed.

Lemma inject_length_pos {A : Type} (l : list A) :
  l ≠ [] → (0 < inject_Z (Z.of_nat (length l)))%Q.
Proof.
  intros Hne. change 0%Q with (inject_Z 0). rewrite <- Zlt_Qlt.
  destruct l; [done | simpl; lia].
Qed.

(** An empty null sample gives the p-value [nan], and [eval_htest] then
    does not reject, whatever the significance level. *)
Theorem eval_htest_empty_null (t_stats_estimator : estimator) (metrics : list string)
    (conf_alpha : Q) (t_stat_data : gmap string Q) (t_stats_null : gmap string (list Q))
    (m : string) (t : Q) :
  t_stats_estimator metrics = Ok (t_stat_data, t_stats_null) →
  covers t_stat_data t_stats_null metrics →
  m ∈ metrics →
  t_stat_data !! m = Some t →
  t_stats_null !! m = Some [] →
  compute_pvalue t [] = NaN ∧
  ∃ reject, eval_htest t_stats_estimator metrics conf_alpha = Ok reject ∧
            reject !! m = Some false.
Proof.
  intros Hest Hcov Hm Ht Hnull. split; [done|].
  destruct (eval_htest_loop_ok t_stat_data t_stats_null conf_alpha metrics ∅ Hcov)
    as (reject & Hloop & Hlook).
  exists reject. split.
  - unfold eval_htest. by rewrite Hest.
  - rewrite Hlook, decide_True by done. unfold decision. by rewrite Ht, Hnull.
Qed.

Lemma eval_htest_empty_null_witness :
  demo_estimator [] ["accuracy"] = Ok ({["accuracy" := 0%Q]}, {["accuracy" := []]}) ∧
  covers {["accuracy" := 0%Q]} {["accuracy" := []]} ["accuracy"] ∧
  "accuracy" ∈ ["accuracy"] ∧
  ({["accuracy" := 0%Q]} : gmap string Q) !! "accuracy" = Some 0%Q ∧
  ({["accuracy" := []]} : gmap string (list Q)) !! "accuracy" = Some [] ∧
  compute_pvalue 0 [] = NaN ∧
  ∃ reject, eval_htest (demo_estimator []) ["accuracy"] 1 = Ok reject ∧
            reject !! "accuracy" = Some false.
Proof.
  assert (Hin : "accuracy" ∈ ["accuracy"]) by (by left).
  split; [reflexivity|]. split; [apply demo_estimator_covers|]. split; [exact Hin|].
  split; [apply lookup_singleton_eq|]. split; [apply lookup_singleton_eq|].
  apply (eval_htest_empty_null (demo_estimator []) ["accuracy"] 1
           {["accuracy" := 0%Q]} {["accuracy" := []]} "accuracy" 0%Q);
    [reflexivity | apply demo_estimator_covers | exact Hin
    | apply lookup_singleton_eq | apply lookup_singleton_eq].
Defined.

(** [eval_htest] raises [KeyError] for the first requested metric, in the
    order of [metrics], that the estimator left out of either dictionary. *)
Theorem eval_htest_first_missing (t_stats_estimator : estimator)
    (before after : list string) (m : string) (conf_alpha : Q)
    (t_stat_data : gmap string Q) (t_stats_null : gmap string (list Q)) :
  t_stats_estimator (before ++ m :: after) = Ok (t_stat_data, t_stats_null) →
  covers t_stat_data t_stats_null before →
  t_stat_data !! m = None ∨ t_stats_null !! m = None →
  eval_htest t_stats_estimator (before ++ m :: after) conf_alpha = Raise (KeyError m).
Proof.
  intros Hest Hcov Hmiss. unfold eval_htest. rewrite Hest. cbn. clear Hest.
  generalize (∅ : gmap string bool). revert Hcov.
  induction before as [|k before IH]; intros Hcov acc.
  - cbn [app eval_htest_loop]. unfold eval_htest_step, getitem.
    destruct (t_stat_data !! m) as [t|]; [|done].
    destruct Hmiss as [?|Hn]; [done|]. by rewrite Hn.
  - destruct (Hcov k) as [[t Ht] [ns Hns]]; [by left|].
    cbn [app eval_htest_loop]. unfold eval_htest_step, getitem.
    rewrite Ht, Hns. cbn. apply IH. intros k' Hk'. apply Hcov. by right.
Qed.

Lemma eval_htest_first_missing_witness :
  demo_estimator [1%Q] (["accuracy"] ++ "mse" :: ["accuracy"])
    = Ok ({["accuracy" := 0%Q]}, {["accuracy" := [1%Q]]}) ∧
  covers {["accuracy" := 0%Q]} {["accuracy" := [1%Q]]} ["accuracy"] ∧
  (({["accuracy" := 0%Q]} : gmap string Q) !! "mse" = None
   ∨ ({["accuracy" := [1%Q]]} : gmap string (list Q)) !! "mse" = None) ∧
  eval_htest (demo_estimator [1%Q]) (["accuracy"] ++ "mse" :: ["accuracy"]) (1 # 20)
    = Raise (KeyError "mse").
Proof.
  assert (Hmiss : ({["accuracy" := 0%Q]} : gmap string Q) !! "mse" = None
                  ∨ ({["accuracy" := [1%Q]]} : gmap string (list Q)) !! "mse" = None).
  { left. by apply lookup_singleton_ne. }
  split; [reflexivity|]. split; [apply demo_estimator_covers|]. split; [exact Hmiss|].
  apply (eval_htest_first_missing (demo_estimator [1%Q]) ["accuracy"] ["accuracy"] "mse"
           (1 # 20) {["accuracy" := 0%Q]} {["accuracy" := [1%Q]]});
    [reflexivity | apply demo_estimator_covers | exact Hmiss].
Defined.

(** The rejections are nested in the significance level: a metric rejected
    at level [alpha] is rejected at every larger level. *)
Theorem eval_htest_monotone_level (t_stats_estimator : estimator) (metrics : list string)
    (alpha alpha' : Q) (reject : gmap string bool) :
  (alpha <= alpha')%Q →
  eval_htest t_stats_estimator metrics alpha = Ok reject →
  ∃ reject', eval_htest t_stats_estimator metrics alpha' = Ok reject' ∧
    ∀ m, reject !! m = Some true → reject' !! m = Some true.
Proof.
  intros Hle. unfold eval_htest.
  destruct (t_stats_estimator metrics) as [[data nulls]|e]; [|done]. cbn.
  intros Hrun. pose proof (eval_htest_loop_covers _ _ _ _ _ _ Hrun) as Hcov.
  destruct (eval_htest_loop_ok data nulls alpha metrics ∅ Hcov) as (r & Hr & Hlook).
  destruct (eval_htest_loop_ok data nulls alpha' metrics ∅ Hcov) as (r' & Hr' & Hlook').
  rewrite Hrun in Hr. injection Hr as <-.
  exists r'. split; [done|]. intros m. rewrite Hlook, Hlook'.
  case_decide; [|done]. unfold decision.
  destruct (data !! m) as [t|]; [|done]. destruct (nulls !! m) as [ns|]; [|done].
  intros [= Hrej]. f_equal. apply float_ltb_spec. apply float_ltb_spec in Hrej.
  destruct (compute_pvalue t ns) as [p|]; [|done]. cbn in *.
  by apply Qlt_le_trans with alpha.
Qed.

Lemma eval_htest_monotone_level_witness :
  ((1 # 20) <= (1 # 2))%Q ∧
  eval_htest (demo_estimator [(-1)%Q; (-2)%Q]) ["accuracy"] (1 # 20)
    = Ok {["accuracy" := true]} ∧
  ∃ reject', eval_htest (demo_estimator [(-1)%Q; (-2)%Q]) ["accuracy"] (1 # 2) = Ok reject' ∧
    ∀ m, ({["accuracy" := true]} : gmap string bool) !! m = Some true →
         reject' !! m = Some true.
Proof.
  assert (Hle : ((1 # 20) <= (1 # 2))%Q) by (by vm_compute).
  split; [exact Hle|]. split; [reflexivity|].
  apply (eval_htest_monotone_level (demo_estimator [(-1)%Q; (-2)%Q]) ["accuracy"]
           (1 # 20) (1 # 2) {["accuracy" := true]} Hle).
  reflexivity.
Defined.

(** A larger observed statistic never has a larger p-value. *)
Theorem compute_pvalue_antitone (t t' : Q) (nulls : list Q) :
  nulls ≠ [] → (t <= t')%Q →
  ∃ p p', compute_pvalue t nulls = Fin p ∧ compute_pvalue t' nulls = Fin p' ∧
          (p' <= p)%Q.
Proof.
  intros Hne Hle.
  destruct (compute_pvalue_fraction t nulls Hne) as (p & Hp & Hfrac).
  destruct (compute_pvalue_fraction t' nulls Hne) as (p' & Hp' & Hfrac').
  exists p, p'. split; [done|]. split; [done|].
  rewrite Hfrac, Hfrac'. apply Qdiv_le_compat_r; [by apply inject_length_pos|].
  rewrite <- Zle_Qle. apply inj_le.
  apply PPPlotsProofs.length_filter_mono. intros x Hx. by apply Qle_lt_trans with t'.
Qed.

Lemma compute_pvalue_antitone_witness :
  [1%Q; 3%Q] ≠ [] ∧ (0 <= 2)%Q ∧
  ∃ p p', compute_pvalue 0 [1%Q; 3%Q] = Fin p ∧ compute_pvalue 2 [1%Q; 3%Q] = Fin p' ∧
          (p' <= p)%Q.
Proof.
  assert (Hle : (0 <= 2)%Q) by (by vm_compute).
  split; [done|]. split; [exact Hle|].
  apply (compute_pvalue_antitone 0 2 [1%Q; 3%Q]); [done | exact Hle].
Defined.

(** The p-value does not depend on the order of the null sample. *)
Theorem compute_pvalue_permutation (t : Q) (nulls nulls' : list Q) :
  nulls ≡ₚ nulls' →
  float_eq (compute_pvalue t nulls) (compute_pvalue t nulls').
Proof.
  intros Hperm. destruct nulls as [|x nulls].
  { apply Permutation_nil_l in Hperm. by subst. }
  assert (Hne' : nulls' ≠ []).
  { intros ->. by apply Permutation_nil_r in Hperm. }
  destruct (compute_pvalue_fraction t (x :: nulls)) as (p & Hp & Hfrac); [done|].
  destruct (compute_pvalue_fraction t nulls' Hne') as (p' & Hp' & Hfrac').
  rewrite Hp, Hp'. cbn. rewrite Hfrac, Hfrac'.
  by rewrite <- Hperm.
Qed.

Lemma compute_pvalue_permutation_witness :
  [1%Q; 3%Q] ≡ₚ [3%Q; 1%Q] ∧
  float_eq (compute_pvalue 2 [1%Q; 3%Q]) (compute_pvalue 2 [3%Q; 1%Q]).
Proof.
  assert (Hperm : [1%Q; 3%Q] ≡ₚ [3%Q; 1%Q]) by apply Permutation_swap.
  split; [exact Hperm|]. exact (compute_pvalue_permutation 2 _ _ Hperm).
Defined.

End TestUtilsMore.

(** ** Further properties of [PP_vals] and the statistic built on it *)

Module PPPlotsMore.
Import NumPy NumPyFacts PPPlots PPPlotsProofs ScriptMargaret.

(** The curve saturates: it is [1] at a grid point exactly when no PIT
    value exceeds it and [0] exactly when every PIT value does; on an empty
    array of PIT values every entry is [nan]. *)
Theorem PP_vals_saturation (PIT_values alphas : list Q) :
  PP_vals [] alphas = replicate (length alphas) NaN ∧
  (PIT_values ≠ [] →
   ∀ i a, alphas !! i = Some a →
     ∃ v, PP_vals PIT_values alphas !! i = Some (Fin v) ∧
          ((v == 1)%Q ↔ ∀ x, x ∈ PIT_values → (x <= a)%Q) ∧
          ((v == 0)%Q ↔ ∀ x, x ∈ PIT_values → (a < x)%Q)).
Proof.
  split.
  - unfold PP_vals. induction alphas as [|a alphas' IH]; [done|].
    cbn [map length replicate]. by rewrite IH.
  - intros Hne i a Ha.
    destruct (PP_vals_entry PIT_values alphas i a Hne Ha) as (v & Hv & Heq).
    exists v. split; [done|].
    destruct (fraction_bounds (length (filter (λ x, x <= a)%Q PIT_values))
                (length PIT_values)) as (_ & _ & Hone & Hzero).
    { apply length_filter. }
    { destruct PIT_values; [done | simpl; lia]. }
    rewrite Heq. unfold ecdf. split.
    + rewrite Hone. apply length_filter_all.
    + rewrite Hzero, length_filter_none. split.
      * intros Hall x Hx. apply Qnot_le_lt. by apply Hall.
      * intros Hall x Hx. apply Qlt_not_le. by apply Hall.
Qed.

(** The curve of a constant sample is a step at that constant. *)
Lemma PP_vals_constant (n : nat) (c : Q) (grid : list Q) (i : nat) (a : Q) :
  (0 < n)%nat → grid !! i = Some a →
  ∃ v, PP_vals (replicate n c) grid !! i = Some (Fin v) ∧
       (v == if decide (c <= a)%Q then 1 else 0)%Q.
Proof.
  intros Hn Ha.
  assert (Hne : replicate n c ≠ []) by (destruct n; [lia | done]).
  destruct (PP_vals_entry (replicate n c) grid i a Hne Ha) as (v & Hv & Heq).
  exists v. split; [done|].
  destruct (fraction_bounds (length (filter (λ x, x <= a)%Q (replicate n c)))
              (length (replicate n c))) as (_ & _ & Hone & Hzero).
  { apply length_filter. }
  { rewrite length_replicate. lia. }
  rewrite Heq. unfold ecdf. case_decide as Hc.
  - apply Hone, length_filter_all. by intros x [-> _]%elem_of_replicate.
  - apply Hzero, length_filter_none. by intros x [-> _]%elem_of_replicate.
Qed.

Lemma sum_nonneg (l : list Q) : Forall (λ x, 0 <= x)%Q l → (0 <= sum l)%Q.
Proof.
  induction 1 as [|x l Hx Hl IH]; [done|].
  cbn [sum foldr]. fold (sum l). lra.
Qed.

Lemma sum_le_length (l : list Q) :
  Forall (λ x, x <= 1)%Q l → (sum l <= inject_Z (Z.of_nat (length l)))%Q.
Proof.
  induction 1 as [|x l Hx Hl IH]; [done|].
  cbn [sum foldr length]. fold (sum l).
  rewrite Nat2Z.inj_succ, <- Z.add_1_r, inject_Z_plus. change (inject_Z 1) with 1%Q. lra.
Qed.

Lemma sum_zero (l : list Q) :
  Forall (λ x, 0 <= x)%Q l → (sum l == 0)%Q → Forall (λ x, x == 0)%Q l.
Proof.
  induction 1 as [|x l Hx Hl IH]; [done|].
  cbn [sum foldr]. fold (sum l). intros Hs.
  pose proof (sum_nonneg l Hl).
  constructor; [lra|]. apply IH. lra.
Qed.

Lemma square_bounds (e : Q) :
  (-1 <= e)%Q → (e <= 1)%Q → (0 <= e * e)%Q ∧ (e * e <= 1)%Q.
Proof.
  intros Hlo Hhi. split.
  - destruct (Qlt_le_dec e 0) as [Hneg|Hpos].
    + assert (H : (0 <= (- e) * (- e))%Q) by (apply Qmult_le_0_compat; lra).
      assert (Heq : ((- e) * (- e) == e * e)%Q) by ring.
      by rewrite Heq in H.
    + by apply Qmult_le_0_compat.
  - assert (H : (0 <= (1 - e) * (1 + e))%Q) by (apply Qmult_le_0_compat; lra).
    assert (Heq : ((1 - e) * (1 + e) == 1 - e * e)%Q) by ring.
    rewrite Heq in H. lra.
Qed.

Lemma square_zero (e : Q) : (e * e == 0)%Q → (e == 0)%Q.
Proof. intros H. by destruct (Qmult_integral _ _ H). Qed.

(** The squared gaps of two curves with values in [0,1]. *)
Lemma squared_gaps_finite (vs ds : list Q) :
  length vs = length ds →
  Forall (λ x, 0 <= x ∧ x <= 1)%Q vs → Forall (λ x, 0 <= x ∧ x <= 1)%Q ds →
  ∃ gaps, Plots.finite_values (squared_gaps (Fin <$> vs) (Fin <$> ds)) = gaps ∧
    length gaps = length vs ∧
    Forall (λ x, 0 <= x)%Q gaps ∧ Forall (λ x, x <= 1)%Q gaps ∧
    (Forall (λ x, x == 0)%Q gaps ↔ Forall2 Qeq vs ds).
Proof.
  intros Hlen Hvs. revert ds Hlen.
  induction Hvs as [|v vs [Hv0 Hv1] Hvs IH]; intros ds Hlen Hds.
  - destruct ds; [|done]. exists []. repeat split; try done; constructor.
  - destruct ds as [|d ds]; [done|]. inversion Hds as [|? ? [Hd0 Hd1] Hds']; subst.
    destruct (IH ds) as (gaps & Hg & Hglen & Hg0 & Hg1 & Hgz); [by injection Hlen | done |].
    eexists. split; [reflexivity|].
    cbn [fmap list_fmap squared_gaps zip_with Plots.finite_values omap list_omap].
    change (omap _ (zip_with _ (Fin <$> vs) (Fin <$> ds)))
      with (Plots.finite_values (squared_gaps (Fin <$> vs) (Fin <$> ds))).
    rewrite Hg. cbn [length].
    assert (Hsq : ((v - d) ^ 2 == (v - d) * (v - d))%Q) by (cbn; ring).
    destruct (square_bounds (v - d)) as [Hsq0 Hsq1]; [lra | lra |].
    split; [by rewrite Hglen|]. split; [|split; [|split]].
    + constructor; [|done]. by rewrite Hsq.
    + constructor; [|done]. by rewrite Hsq.
    + intros Hz. inversion Hz as [|? ? Hz0 Hzs]; subst.
      constructor; [|by apply Hgz]. cbv beta in Hz0.
      assert (Hz0' : ((v - d) * (v - d) == 0)%Q) by (by rewrite <- Hsq).
      apply square_zero in Hz0'. lra.
    + intros Heq. inversion Heq as [|? ? ? ? Hvd Hrest]; subst.
      constructor; [|by apply Hgz]. rewrite Hsq, Hvd. ring.
Qed.

(** On a non-empty sample every entry of the curve is a number in [0,1]. *)
Lemma PP_vals_finite (PIT_values grid : list Q) :
  PIT_values ≠ [] →
  ∃ vs, PP_vals PIT_values grid = Fin <$> vs ∧ Forall (λ x, 0 <= x ∧ x <= 1)%Q vs.
Proof.
  intros Hne. induction grid as [|a grid IH].
  - exists []. split; [done | constructor].
  - destruct IH as (vs & Hvs & Hbounds).
    destruct (mean_of_bool (less_equal PIT_values a)) as (v & Hv & Hfrac).
    { unfold less_equal. by destruct PIT_values. }
    exists (v :: vs). split.
    + unfold PP_vals in *. cbn [map fmap list_fmap]. by rewrite Hv, Hvs.
    + constructor; [|done].
      destruct (fraction_bounds (count_true (less_equal PIT_values a))
                  (length (less_equal PIT_values a))) as (H0 & H1 & _).
      { apply count_true_le. }
      { unfold less_equal. rewrite length_map. destruct PIT_values; [done | simpl; lia]. }
      cbv zeta in H0, H1. by rewrite Hfrac.
Qed.

Lemma Forall2_float_eq_Fin (vs ds : list Q) :
  Forall2 float_eq (Fin <$> vs) (Fin <$> ds) ↔ Forall2 Qeq vs ds.
Proof.
  revert ds. induction vs as [|v vs IH]; intros [|d ds]; split; intros H;
    try (by inversion H); try constructor.
  - by inversion H.
  - apply IH. by inversion H.
  - by inversion H.
  - apply IH. by inversion H.
Qed.

(** The statistic of [eval_clf_null] for one observation lies in [0,1], and
    vanishes exactly when the PP-curve of the predicted probabilities
    coincides, on the grid, with the curve of the constant [0.5]. *)
Theorem test_stat_x_bounds (proba : list Q) :
  proba ≠ [] →
  (0 <= test_stat_x proba)%Q ∧ (test_stat_x proba <= 1)%Q ∧
  ((test_stat_x proba == 0)%Q ↔ Forall2 float_eq (PP_vals proba alphas) pp_vals_dirac).
Proof.
  intros Hne. unfold test_stat_x, pp_vals_dirac.
  destruct (PP_vals_finite proba alphas Hne) as (vs & Hvs & Hvb).
  destruct (PP_vals_finite (replicate 1000 (1 # 2)%Q) alphas) as (ds & Hds & Hdb); [done|].
  assert (Hlv : length vs = length alphas).
  { rewrite <- (length_fmap Fin vs), <- Hvs. unfold PP_vals. apply length_map. }
  assert (Hld : length ds = length alphas).
  { rewrite <- (length_fmap Fin ds), <- Hds. unfold PP_vals. apply length_map. }
  rewrite Hvs, Hds.
  destruct (squared_gaps_finite vs ds) as (gaps & -> & Hglen & Hg0 & Hg1 & Hgz);
    [congruence | done..|].
  rewrite Forall2_float_eq_Fin, <- Hgz.
  assert (Hn : (0 < inject_Z (Z.of_nat (length alphas)))%Q).
  { unfold alphas. rewrite ConfidenceRegionsProofs.linspace_length. by vm_compute. }
  pose proof (sum_nonneg gaps Hg0) as Hs0.
  pose proof (sum_le_length gaps Hg1) as Hs1. rewrite Hglen, Hlv in Hs1.
  destruct (Qfraction_bounds (sum gaps) (inject_Z (Z.of_nat (length alphas))) Hs0 Hs1 Hn)
    as (H0 & H1 & _ & Hzero).
  split; [done|]. split; [done|]. rewrite Hzero. split.
  - by apply sum_zero.
  - intros Hall. clear -Hall. induction Hall as [|x l Hx Hl IH]; [done|].
    cbn [sum foldr]. fold (sum l). rewrite Hx, IH. ring.
Qed.

Lemma test_stat_x_bounds_witness :
  [(1 # 4)%Q] ≠ [] ∧
  (0 <= test_stat_x [(1 # 4)%Q])%Q ∧ (test_stat_x [(1 # 4)%Q] <= 1)%Q ∧
  ((test_stat_x [(1 # 4)%Q] == 0)%Q
   ↔ Forall2 float_eq (PP_vals [(1 # 4)%Q] alphas) pp_vals_dirac).
Proof.
  split; [done|]. apply (test_stat_x_bounds [(1 # 4)%Q]). done.
Defined.

End PPPlotsMore.

(** ** Further properties of the local C2ST functions *)

Module LocalC2STMore.
Import NumPy NumPyFacts LocalC2ST LocalC2STProofs.

(** Case analysis on the first computation a result depends on. *)
Ltac peel H :=
  match type of H with
  | context [match ?c with _ => _ end] =>
      lazymatch c with
      | context [match _ with _ => _ end] => fail
      | _ => let E := fresh "E" in destruct c eqn:E; try discriminate H
      end
  end.

Lemma repeat_length (x : matrix) (n : nat) : length (repeat x n) = (n * length x)%nat.
Proof.
  unfold repeat. by rewrite length_join, fmap_replicate, sum_list_replicate.
Qed.

Lemma count_occ_nil_lookup (metrics : list string) (m : string) :
  (list_to_map (zip metrics (replicate (length metrics) ([] : list float)))
     : gmap string (list float)) !! m
  = if decide (m ∈ metrics) then Some [] else None.
Proof.
  induction metrics as [|k metrics IH]; [by rewrite decide_False by apply not_elem_of_nil|].
  cbn [length replicate zip zip_with list_to_map foldr].
  change (foldr _ ∅ (zip_with pair metrics (replicate (length metrics) [])))
    with (list_to_map (zip metrics (replicate (length metrics) ([] : list float)))
            : gmap string (list float)).
  destruct (decide (m = k)) as [->|Hne].
  - rewrite lookup_insert_eq. by rewrite decide_True by (by left).
  - rewrite lookup_insert_ne by done. rewrite IH.
    destruct (decide (m ∈ metrics)) as [Hin|Hnin].
    + by rewrite decide_True by (by right).
    + rewrite decide_False; [done|]. by intros [?|?]%elem_of_cons.
Qed.

Section WithClassifier.

Context {clf_cfg clf rng : Type}.
Variable train_c2st : matrix → matrix → clf_cfg → M (rng := rng) clf.
Variable eval_c2st : matrix → option matrix → clf → bool → result (rat * list rat).
Variable compute_metric : ndarray → string → bool → result float.
Variable shuffle : nat → list nat.

(** [train_lc2st] raises [ValueError], without fitting anything, when the
    samples of a class and their conditioning values differ in number. *)
Theorem train_lc2st_row_mismatch (P Q x_P x_Q : matrix) (classifier : clf_cfg) (s : rng) :
  length P ≠ length x_P ∨ length Q ≠ length x_Q →
  train_lc2st train_c2st P Q x_P x_Q classifier s = Raise ValueError.
Proof.
  intros Hmis. unfold train_lc2st, mbind, M_bind, lift, concatenate_axis1.
  destruct (decide (length P = length x_P)) as [HP|HP]; [|done].
  destruct (decide (length Q = length x_Q)) as [HQ|HQ]; [|done].
  by destruct Hmis.
Qed.

(** [eval_lc2st] accepts one observation only: on a non-empty sample, an
    [x_eval] with no row or with several rows raises [ValueError] before the
    classifier is evaluated. *)
Theorem eval_lc2st_single_observation (P x_eval : matrix) (fitted : clf)
    (Q : option matrix) (single_class_eval : bool) :
  P ≠ [] → length x_eval ≠ 1%nat →
  eval_lc2st eval_c2st P x_eval fitted Q single_class_eval = Raise ValueError.
Proof.
  intros HP Hx. unfold eval_lc2st, eval_features, concatenate_axis1.
  rewrite repeat_length. rewrite decide_False; [done|].
  destruct P; [done|]. cbn [length]. nia.
Qed.

(** With [in_sample=True] the evaluation sets handed by the caller are
    never looked at: the classifier is evaluated on the training samples. *)
Theorem lc2st_scores_in_sample (P Q x_P x_Q x_eval : matrix)
    (P_eval Q_eval : option matrix) (metrics : list string) (classifier : clf_cfg)
    (single_class_eval : bool) (n_folds n_ensemble : nat) (s : rng) :
  lc2st_scores train_c2st eval_c2st compute_metric shuffle P Q x_P x_Q x_eval
    P_eval Q_eval metrics classifier single_class_eval false n_folds true n_ensemble s
  = lc2st_scores train_c2st eval_c2st compute_metric shuffle P Q x_P x_Q x_eval
      (Some P) (Some Q) metrics classifier single_class_eval false n_folds false
      n_ensemble s.
Proof.
  unfold lc2st_scores, lc2st_scores_ensemble.
  assert (Hfirst : ∀ n accs probas s0,
    ensemble_loop train_c2st eval_c2st n P Q x_P x_Q x_eval P_eval Q_eval classifier
      single_class_eval true accs probas s0
    = ensemble_loop train_c2st eval_c2st n P Q x_P x_Q x_eval (Some P) (Some Q) classifier
        single_class_eval true accs probas s0).
  { intros [|n] accs probas s0; reflexivity. }
  assert (Hflag : ∀ n accs probas s0,
    ensemble_loop train_c2st eval_c2st n P Q x_P x_Q x_eval (Some P) (Some Q) classifier
      single_class_eval true accs probas s0
    = ensemble_loop train_c2st eval_c2st n P Q x_P x_Q x_eval (Some P) (Some Q) classifier
        single_class_eval false accs probas s0).
  { induction n as [|n IH]; intros accs probas s0; [done|].
    cbn [ensemble_loop]. unfold mbind, M_bind.
    destruct (train_lc2st train_c2st P Q x_P x_Q classifier s0) as [[fitted s1]|e]; [|done].
    destruct (lift (eval_lc2st_opt eval_c2st (Some P) x_eval fitted (Some Q)
                      single_class_eval) s1) as [[[accuracy proba] s2]|e]; [|done].
    apply IH. }
  unfold mbind, M_bind. by rewrite Hfirst, Hflag.
Qed.

(** Cross-validation needs at least two folds and at most one fold per
    sample: otherwise [lc2st_scores] raises [ValueError], and no classifier
    is trained. *)
Theorem lc2st_scores_bad_folds (P Q x_P x_Q x_eval : matrix)
    (P_eval Q_eval : option matrix) (metrics : list string) (classifier : clf_cfg)
    (single_class_eval : bool) (n_folds : nat) (in_sample : bool) (n_ensemble : nat)
    (s : rng) :
  (n_folds < 2 ∨ length P < n_folds)%nat →
  lc2st_scores train_c2st eval_c2st compute_metric shuffle P Q x_P x_Q x_eval
    P_eval Q_eval metrics classifier single_class_eval true n_folds in_sample n_ensemble s
  = Raise ValueError.
Proof.
  intros Hbad. unfold lc2st_scores, lc2st_scores_cross_val, mbind, M_bind, lift, KFold_split.
  destruct (decide (n_folds ≤ 1)%nat); [done|].
  destruct (decide (length P < n_folds)%nat); [done|]. lia.
Qed.

(** How many times metric [m] is requested. *)
Definition requested (m : string) (metrics : list string) : nat :=
  length (filter (λ k, k = m) metrics).

Lemma append_scores_shape (accuracy : rat) (proba : list rat) (single_class_eval : bool)
    (metrics : list string) :
  ∀ (scores scores' : gmap string (list float)),
  append_scores compute_metric accuracy proba single_class_eval scores metrics = Ok scores' →
  ∀ m, length <$> scores' !! m
       = (λ n, n + requested m metrics)%nat <$> (length <$> scores !! m).
Proof.
  induction metrics as [|k metrics IH]; intros scores scores' Hrun m.
  - injection Hrun as <-. unfold requested. cbn.
    destruct (scores !! m); cbn; [f_equal; lia | done].
  - cbn [append_scores] in Hrun. unfold mbind, result_bind, getitem in Hrun.
    destruct (score_of compute_metric (Fin accuracy) (Array proba) single_class_eval k)
      as [v|e]; [|done].
    destruct (scores !! k) as [so_far|] eqn:Hk; [|done].
    rewrite (IH _ _ Hrun m). unfold requested. rewrite filter_cons.
    destruct (decide (m = k)) as [->|Hne].
    + rewrite lookup_insert_eq, Hk, decide_True by done. cbn.
      rewrite length_app. cbn. f_equal. lia.
    + rewrite lookup_insert_ne by done. by rewrite decide_False by done.
Qed.

Lemma cv_loop_shape (P Q x_P x_Q x_eval : matrix) (P_eval Q_eval : option matrix)
    (metrics : list string) (classifier : clf_cfg) (single_class_eval : bool)
    (folds : list (list nat * list nat)) :
  ∀ scores probas s scores' probas' s',
  cv_loop train_c2st eval_c2st compute_metric folds P Q x_P x_Q x_eval P_eval Q_eval
    metrics classifier single_class_eval scores probas s = Ok (scores', probas', s') →
  length probas' = (length probas + length folds)%nat ∧
  ∀ m, length <$> scores' !! m
       = (λ n, n + length folds * requested m metrics)%nat <$> (length <$> scores !! m).
Proof.
  induction folds as [|[train_index val_index] folds IH];
    intros scores probas s scores' probas' s' Hrun.
  - injection Hrun as <- <- <-. split; [cbn; lia|]. intros m.
    destruct (scores !! m); cbn; [f_equal; lia | done].
  - cbn [cv_loop] in Hrun. unfold mbind, M_bind, mret, M_ret, lift in Hrun.
    repeat peel Hrun.
    all: destruct (IH _ _ _ _ _ _ Hrun) as [Hlen Hscores];
      (split; [rewrite Hlen, length_app; cbn; lia|]);
      intros m; rewrite Hscores;
      match goal with
      | Happ : append_scores _ _ _ _ _ _ = Ok _ |- _ =>
          rewrite (append_scores_shape _ _ _ _ _ _ Happ m)
      end;
      destruct (scores !! m); cbn; [f_equal; lia | done].
Qed.

(** A cross-validated call that returns gives one array of probabilities
    per fold and, under every requested metric, one score per fold and per
    occurrence of the metric in [metrics]; no other key is present. *)
Theorem lc2st_scores_cross_val_shape (P Q x_P x_Q x_eval : matrix)
    (P_eval Q_eval : option matrix) (metrics : list string) (classifier : clf_cfg)
    (single_class_eval : bool) (n_folds : nat) (in_sample : bool) (n_ensemble : nat)
    (s s' : rng) (out : lc2st_output) :
  lc2st_scores train_c2st eval_c2st compute_metric shuffle P Q x_P x_Q x_eval
    P_eval Q_eval metrics classifier single_class_eval true n_folds in_sample n_ensemble s
  = Ok (out, s') →
  ∃ scores probas, out = CrossValScores scores probas ∧
    length probas = n_folds ∧
    ∀ m, length <$> scores !! m
         = if decide (m ∈ metrics) then Some (n_folds * requested m metrics)%nat else None.
Proof.
  unfold lc2st_scores. unfold mbind at 1, M_bind at 1. intros Hrun.
  destruct (lc2st_scores_cross_val _ _ _ _ _ _ _ _ _ _ _ _ _ _ _ s)
    as [[[scores probas] s1]|e] eqn:E; [|done].
  injection Hrun as <- <-. exists scores, probas. split; [done|].
  unfold lc2st_scores_cross_val, mbind, M_bind, lift in E.
  destruct (KFold_split n_folds (shuffle (length P)) (length P)) as [folds|e] eqn:Hfolds;
    [|done].
  assert (Hn : length folds = n_folds).
  { unfold KFold_split in Hfolds. repeat case_decide; try done.
    injection Hfolds as <-. rewrite length_map, length_reshape.
    apply fold_sizes_length. lia. }
  destruct (cv_loop_shape _ _ _ _ _ _ _ _ _ _ _ _ _ _ _ _ _ E) as [Hlen Hscores].
  split; [cbn in Hlen; lia|]. intros m.
  rewrite Hscores, count_occ_nil_lookup, Hn.
  case_decide; cbn; [f_equal; lia | done].
Qed.

(** The predicate of lying in [0,1]. *)
Definition in_unit (x : rat) : Prop := (0 <= x)%Q ∧ (x <= 1)%Q.

Lemma foldl_add_arrays_bounds (rest : list (list rat)) :
  ∀ (a : list rat) (c : nat),
  Forall (λ x, 0 <= x ∧ x <= inject_Z (Z.of_nat c))%Q a →
  Forall (Forall in_unit) rest →
  Forall (λ x, 0 <= x ∧ x <= inject_Z (Z.of_nat (c + length rest)))%Q
    (foldl add_arrays a rest).
Proof.
  induction rest as [|b rest IH]; intros a c Ha Hrest.
  - cbn. by rewrite Nat.add_0_r.
  - inversion Hrest as [|? ? Hb Hrest']; subst. cbn [foldl length].
    replace (c + S (length rest))%nat with (S c + length rest)%nat by lia.
    apply IH; [|done]. clear IH Hrest Hrest'. revert b Hb.
    induction Ha as [|x a [Hx0 Hx1] Ha IHa]; intros b Hb; [constructor|].
    destruct Hb as [|y b [Hy0 Hy1] Hb]; [constructor|].
    cbn [add_arrays zip_with]. constructor; [|by apply IHa].
    rewrite Nat2Z.inj_succ, <- Z.add_1_r, inject_Z_plus. change (inject_Z 1) with 1%Q.
    split; lra.
Qed.

Lemma mean_axis0_in_unit (arrays : list (list rat)) (out : ndarray) :
  Forall (Forall in_unit) arrays →
  mean_axis0 arrays = Ok out →
  match out with
  | Array a => Forall in_unit a
  | NaNScalar => arrays = []
  end.
Proof.
  intros Hall. unfold mean_axis0. destruct arrays as [|a rest]; [by intros [= <-]|].
  case_decide; [|done]. intros [= <-].
  inversion Hall as [|? ? Ha Hrest]; subst.
  pose proof (foldl_add_arrays_bounds rest a 1) as Hb.
  assert (Hn : (0 < inject_Z (Z.of_nat (length (a :: rest))))%Q).
  { change 0%Q with (inject_Z 0). rewrite <- Zlt_Qlt. cbn [length]. lia. }
  apply Forall_fmap. eapply Forall_impl; [apply Hb; [|done]|].
  - eapply Forall_impl; [exact Ha|]. intros x [? ?]. split; [done|].
    by change (inject_Z (Z.of_nat 1)) with 1%Q.
  - intros x [Hx0 Hx1]. cbn [length] in *.
    replace (1 + length rest)%nat with (S (length rest)) in Hx1 by lia.
    destruct (Qfraction_bounds x _ Hx0 Hx1 Hn) as (H0 & H1 & _). by split.
Qed.

Lemma mean_in_unit (a : list rat) :
  Forall in_unit a →
  match mean a with
  | Fin v => in_unit v
  | NaN => a = []
  end.
Proof.
  intros Ha. destruct a as [|x a]; [done|]. unfold mean.
  assert (Hn : (0 < inject_Z (Z.of_nat (length (x :: a))))%Q).
  { change 0%Q with (inject_Z 0). rewrite <- Zlt_Qlt. cbn [length]. lia. }
  assert (Hs0 : (0 <= sum (x :: a))%Q).
  { apply PPPlotsMore.sum_nonneg. eapply Forall_impl; [exact Ha|]. by intros y [? ?]. }
  assert (Hs1 : (sum (x :: a) <= inject_Z (Z.of_nat (length (x :: a))))%Q).
  { apply PPPlotsMore.sum_le_length. eapply Forall_impl; [exact Ha|]. by intros y [? ?]. }
  destruct (Qfraction_bounds _ _ Hs0 Hs1 Hn) as (H0 & H1 & _). by split.
Qed.

(** What [eval_c2st] promises: an accuracy and probabilities in [0,1]. *)
Definition eval_in_unit : Prop :=
  ∀ X Y fitted flag accuracy proba,
    eval_c2st X Y fitted flag = Ok (accuracy, proba) →
    in_unit accuracy ∧ Forall in_unit proba.

Lemma ensemble_loop_in_unit (P Q x_P x_Q x_eval : matrix) (classifier : clf_cfg)
    (single_class_eval in_sample : bool) (n_ensemble : nat) :
  eval_in_unit →
  ∀ P_eval Q_eval accs probas s accs' probas' s',
  Forall in_unit accs → Forall (Forall in_unit) probas →
  ensemble_loop train_c2st eval_c2st n_ensemble P Q x_P x_Q x_eval P_eval Q_eval classifier
    single_class_eval in_sample accs probas s = Ok (accs', probas', s') →
  Forall in_unit accs' ∧ Forall (Forall in_unit) probas' ∧
  length accs' = (length accs + n_ensemble)%nat ∧
  length probas' = (length probas + n_ensemble)%nat.
Proof.
  intros Heval. induction n_ensemble as [|n IH];
    intros P_eval Q_eval accs probas s accs' probas' s' Haccs Hprobas Hrun.
  - injection Hrun as <- <- <-. repeat split; [done | done | lia | lia].
  - cbn [ensemble_loop] in Hrun. unfold mbind, M_bind, lift in Hrun.
    destruct (train_lc2st train_c2st P Q x_P x_Q classifier s) as [[fitted s1]|e]; [|done].
    destruct (eval_lc2st_opt eval_c2st (if in_sample then Some P else P_eval) x_eval fitted
                (if in_sample then Some Q else Q_eval) single_class_eval)
      as [[accuracy proba]|e] eqn:Hev; [|done].
    assert (Hunit : in_unit accuracy ∧ Forall in_unit proba).
    { unfold eval_lc2st_opt, eval_lc2st in Hev.
      destruct (if in_sample then Some P else P_eval) as [Pe|]; [|done].
      destruct (eval_features Pe x_eval (if in_sample then Some Q else Q_eval)
                  single_class_eval) as [[[X Y] flag]|e]; [|done].
      cbn in Hev. by apply Heval in Hev. }
    destruct Hunit as [Hacc Hproba].
    assert (Haccs' : Forall in_unit (accs ++ [accuracy])).
    { apply Forall_app. split; [done|]. by constructor. }
    assert (Hprobas' : Forall (Forall in_unit) (probas ++ [proba])).
    { apply Forall_app. split; [done|]. by constructor. }
    destruct (IH _ _ _ _ _ _ _ _ Haccs' Hprobas' Hrun) as (H1 & H2 & H3 & H4).
    rewrite length_app in H3, H4. cbn in H3, H4.
    repeat split; [done | done | lia | lia].
Qed.

(** When [eval_c2st] returns accuracies and probabilities in [0,1], so does
    the ensemble: the averaged probabilities and the accuracy stored under
    the accuracy metrics lie in [0,1]; only an ensemble of no member gives
    [nan]. *)
Theorem lc2st_scores_ensemble_in_unit (P Q x_P x_Q x_eval : matrix)
    (P_eval Q_eval : option matrix) (metrics : list string) (classifier : clf_cfg)
    (single_class_eval : bool) (n_folds : nat) (in_sample : bool) (n_ensemble : nat)
    (s s' : rng) (out : lc2st_output) :
  eval_in_unit →
  lc2st_scores train_c2st eval_c2st compute_metric shuffle P Q x_P x_Q x_eval
    P_eval Q_eval metrics classifier single_class_eval false n_folds in_sample n_ensemble s
  = Ok (out, s') →
  ∃ scores probas, out = EnsembleScores scores probas ∧
    match probas with
    | Array a => Forall in_unit a ∧ (0 < n_ensemble)%nat
    | NaNScalar => n_ensemble = 0%nat
    end ∧
    ∀ m, m ∈ metrics → contains "accuracy" m = true →
      ∃ accuracy, scores !! m = Some accuracy ∧
        match accuracy with
        | Fin v => in_unit v ∧ (0 < n_ensemble)%nat
        | NaN => n_ensemble = 0%nat
        end.
Proof.
  intros Heval. unfold lc2st_scores, lc2st_scores_ensemble.
  unfold mbind, M_bind, mret, M_ret, lift. intros Hrun.
  destruct (ensemble_loop _ _ _ _ _ _ _ _ _ _ _ _ _ _ _ s)
    as [[[accs probas] s1]|e] eqn:Hloop; [|done].
  destruct (ensemble_loop_in_unit _ _ _ _ _ _ _ _ _ Heval _ _ _ _ _ _ _ _
              (Forall_nil_2 _) (Forall_nil_2 _) Hloop) as (Haccs & Hprobas & Hla & Hlp).
  cbn in Hla, Hlp.
  destruct (mean_axis0 probas) as [ens|e] eqn:Hmean; [|done].
  destruct (compute_scores compute_metric (mean accs) ens single_class_eval ∅ metrics)
    as [scores|e] eqn:Hscores; [|done].
  injection Hrun as <- <-. exists scores, ens. split; [done|]. split.
  - pose proof (mean_axis0_in_unit probas ens Hprobas Hmean) as Hens.
    destruct ens as [a|].
    + split; [done|]. unfold mean_axis0 in Hmean. destruct probas; [done|]. cbn in Hlp. lia.
    + subst probas. cbn in Hlp. lia.
  - intros m Hm Hacc. exists (mean accs). split.
    + apply (compute_scores_accuracy compute_metric (mean accs) ens single_class_eval
               metrics ∅ scores m); auto.
    + pose proof (mean_in_unit accs Haccs) as Hmean_accs.
      destruct (mean accs) as [v|] eqn:Hv.
      * split; [done|]. destruct accs; [done|]. cbn in Hla. lia.
      * subst accs. cbn in Hla. lia.
Qed.

End WithClassifier.

Lemma train_lc2st_row_mismatch_witness :
  (length [[1%Q]; [2%Q]] ≠ length [[3%Q]] ∨ length [[4%Q]] ≠ length [[5%Q]]) ∧
  train_lc2st coin_train [[1%Q]; [2%Q]] [[4%Q]] [[3%Q]] [[5%Q]] () 0%nat = Raise ValueError.
Proof.
  assert (H : length [[1%Q]; [2%Q]] ≠ length [[3%Q]] ∨ length [[4%Q]] ≠ length [[5%Q]]).
  { left. cbn. lia. }
  split; [exact H|].
  exact (train_lc2st_row_mismatch coin_train [[1%Q]; [2%Q]] [[4%Q]] [[3%Q]] [[5%Q]] () 0%nat H).
Defined.

Lemma eval_lc2st_single_observation_witness :
  [[1%Q]] ≠ [] ∧ length [[2%Q]; [3%Q]] ≠ 1%nat ∧
  eval_lc2st coin_eval [[1%Q]] [[2%Q]; [3%Q]] () None true = Raise ValueError.
Proof.
  assert (H : length [[2%Q]; [3%Q]] ≠ 1%nat) by (cbn; lia).
  split; [done|]. split; [exact H|].
  apply (eval_lc2st_single_observation coin_eval [[1%Q]] [[2%Q]; [3%Q]] () None true);
    [done | exact H].
Defined.

Lemma lc2st_scores_bad_folds_witness :
  (10 < 2 ∨ length [[1%Q]; [2%Q]] < 10)%nat ∧
  lc2st_scores coin_train coin_eval (λ _ _ _, Ok NaN) (λ n, seq 0 n)
    [[1%Q]; [2%Q]] [[3%Q]; [4%Q]] [[5%Q]; [6%Q]] [[7%Q]; [8%Q]] [[9%Q]]
    None None ["accuracy"] () true true 10 false 1 0%nat
  = Raise ValueError.
Proof.
  assert (H : (10 < 2 ∨ length [[1%Q]; [2%Q]] < 10)%nat) by (right; cbn; lia).
  split; [exact H|].
  exact (lc2st_scores_bad_folds coin_train coin_eval (λ _ _ _, Ok NaN) (λ n, seq 0 n)
           [[1%Q]; [2%Q]] [[3%Q]; [4%Q]] [[5%Q]; [6%Q]] [[7%Q]; [8%Q]] [[9%Q]]
           None None ["accuracy"] () true 10 false 1 0%nat H).
Defined.

Lemma lc2st_scores_cross_val_shape_witness :
  lc2st_scores coin_train coin_eval (λ _ _ _, Ok NaN) (λ n, seq 0 n)
    [[1%Q]; [2%Q]] [[3%Q]; [4%Q]] [[5%Q]; [6%Q]] [[7%Q]; [8%Q]] [[9%Q]]
    None None ["accuracy"; "accuracy"] () true true 2 false 1 0%nat
  = Ok (CrossValScores
          {["accuracy" := [Fin (1 # 2); Fin (1 # 2); Fin (1 # 2); Fin (1 # 2)]]}
          [[(1 # 2)%Q]; [(1 # 2)%Q]], 2%nat) ∧
  ∃ scores probas,
    CrossValScores
      {["accuracy" := [Fin (1 # 2); Fin (1 # 2); Fin (1 # 2); Fin (1 # 2)]]}
      [[(1 # 2)%Q]; [(1 # 2)%Q]] = CrossValScores scores probas ∧
    length probas = 2%nat ∧
    ∀ m, length <$> scores !! m
         = if decide (m ∈ ["accuracy"; "accuracy"])
           then Some (2 * requested m ["accuracy"; "accuracy"])%nat else None.
Proof.
  assert (Hrun :
    lc2st_scores coin_train coin_eval (λ _ _ _, Ok NaN) (λ n, seq 0 n)
      [[1%Q]; [2%Q]] [[3%Q]; [4%Q]] [[5%Q]; [6%Q]] [[7%Q]; [8%Q]] [[9%Q]]
      None None ["accuracy"; "accuracy"] () true true 2 false 1 0%nat
    = Ok (CrossValScores
            {["accuracy" := [Fin (1 # 2); Fin (1 # 2); Fin (1 # 2); Fin (1 # 2)]]}
            [[(1 # 2)%Q]; [(1 # 2)%Q]], 2%nat)) by (vm_compute; reflexivity).
  split; [exact Hrun|].
  exact (lc2st_scores_cross_val_shape coin_train coin_eval (λ _ _ _, Ok NaN) (λ n, seq 0 n)
           [[1%Q]; [2%Q]] [[3%Q]; [4%Q]] [[5%Q]; [6%Q]] [[7%Q]; [8%Q]] [[9%Q]]
           None None ["accuracy"; "accuracy"] () true 2 false 1 0%nat 2%nat _ Hrun).
Defined.

Lemma coin_eval_in_unit : eval_in_unit coin_eval.
Proof.
  unfold eval_in_unit, coin_eval. intros X Y fitted flag accuracy proba Hret.
  injection Hret as Ha Hp. rewrite <- Ha, <- Hp. split.
  - split; by vm_compute.
  - apply Forall_fmap, Forall_true. intros row. split; by vm_compute.
Qed.

Lemma lc2st_scores_ensemble_in_unit_witness :
  eval_in_unit coin_eval ∧
  lc2st_scores coin_train coin_eval (λ _ _ _, Ok NaN) (λ n, seq 0 n)
    [[1%Q; 2%Q]; [3%Q; 4%Q]] [[7%Q; 8%Q]; [0%Q; 0%Q]] [[5%Q]; [6%Q]] [[9%Q]; [9%Q]] [[10%Q]]
    (Some [[1%Q; 1%Q]; [2%Q; 2%Q]; [3%Q; 3%Q]]) None ["accuracy"] () true false 10 false 1 0%nat
  = Ok (EnsembleScores {["accuracy" := Fin (1 # 2)]}
          (Array [(1 # 2)%Q; (1 # 2)%Q; (1 # 2)%Q]), 1%nat) ∧
  ∃ scores probas,
    EnsembleScores {["accuracy" := Fin (1 # 2)]} (Array [(1 # 2)%Q; (1 # 2)%Q; (1 # 2)%Q])
      = EnsembleScores scores probas ∧
    match probas with
    | Array a => Forall in_unit a ∧ (0 < 1)%nat
    | NaNScalar => 1%nat = 0%nat
    end ∧
    ∀ m, m ∈ ["accuracy"] → contains "accuracy" m = true →
      ∃ accuracy, scores !! m = Some accuracy ∧
        match accuracy with
        | Fin v => in_unit v ∧ (0 < 1)%nat
        | NaN => 1%nat = 0%nat
        end.
Proof.
  assert (Hrun :
    lc2st_scores coin_train coin_eval (λ _ _ _, Ok NaN) (λ n, seq 0 n)
      [[1%Q; 2%Q]; [3%Q; 4%Q]] [[7%Q; 8%Q]; [0%Q; 0%Q]] [[5%Q]; [6%Q]] [[9%Q]; [9%Q]] [[10%Q]]
      (Some [[1%Q; 1%Q]; [2%Q; 2%Q]; [3%Q; 3%Q]]) None ["accuracy"] () true false 10 false 1
      0%nat
    = Ok (EnsembleScores {["accuracy" := Fin (1 # 2)]}
            (Array [(1 # 2)%Q; (1 # 2)%Q; (1 # 2)%Q]), 1%nat)) by (vm_compute; reflexivity).
  split; [exact coin_eval_in_unit|]. split; [exact Hrun|].
  exact (lc2st_scores_ensemble_in_unit coin_train coin_eval (λ _ _ _, Ok NaN) (λ n, seq 0 n)
           _ _ _ _ _ _ _ _ _ _ _ _ _ _ _ _ coin_eval_in_unit Hrun).
Defined.

End LocalC2STMore.

(** ** Further properties of [hpd_region] *)

Module ConfidenceRegionsMore.
Import NumPy NumPyFacts ConfidenceRegions ConfidenceRegionsProofs.

(** The thresholds of [np.linspace(start, stop, num)]. *)
Lemma linspace_lookup (start stop : Q) (num i : nat) (p : Q) :
  (2 ≤ num)%nat → linspace start stop num !! i = Some p →
  (i < num)%nat ∧
  p = (start + inject_Z (Z.of_nat i) * ((stop - start) / inject_Z (Z.of_nat (num - 1))))%Q.
Proof.
  intros Hnum. destruct num as [|[|num]]; [lia..|]. unfold linspace.
  rewrite list_lookup_fmap. intros Hi.
  destruct (seq 0 (S (S num)) !! i) as [j|] eqn:Hj; [|done].
  apply lookup_seq in Hj as [-> Hlt]. injection Hi as <-. split; [lia | done].
Qed.

(** Without thresholds ([n_p_stars = 0]) the loop has nothing to examine
    and the final [p_stars[idx - 1]] raises [IndexError], whatever the
    other arguments. *)
Theorem hpd_region_no_threshold (fuel : nat) (density : list Q → Q)
    (param_grid : list (list Q)) (confidence_level tol : Q) :
  (0 < fuel)%nat →
  hpd_region fuel density param_grid confidence_level 0 tol = Raise IndexError.
Proof.
  intros Hfuel. destruct fuel as [|fuel]; [lia|].
  unfold hpd_region. cbn [hpd_loop linspace]. unfold hpd_step.
  cbn [current_confidence_level idx].
  by destruct (ltb tol (Qabs (1 - confidence_level))).
Qed.

Lemma hpd_region_no_threshold_witness :
  (0 < 1)%nat ∧
  hpd_region 1 (λ _, 1%Q) [[0%Q]; [1%Q]] (95 # 100) 0 (1 # 100) = Raise IndexError.
Proof.
  split; [lia|].
  apply (hpd_region_no_threshold 1 (λ _, 1%Q) [[0%Q]; [1%Q]] (95 # 100) (1 # 100)). lia.
Defined.

(** The total of a positive density is positive on a grid that is not
    empty. *)
Lemma total_density_pos (density : list Q → Q) (param_grid : list (list Q)) :
  (∀ row, 0 < density row)%Q → param_grid ≠ [] →
  (0 < total_density density param_grid)%Q.
Proof.
  intros Hpos Hne. unfold total_density.
  destruct param_grid as [|row rest]; [done|]. clear Hne.
  revert row. induction rest as [|row' rest IH]; intros row.
  - cbn. pose proof (Hpos row). lra.
  - specialize (IH row'). cbn in IH |- *. pose proof (Hpos row). lra.
Qed.

Lemma filter_all {A : Type} (P : A → Prop) `{!∀ x, Decision (P x)} (l : list A) :
  Forall P l → filter P l = l.
Proof.
  induction 1 as [|x l Hx Hl IH]; [done|].
  rewrite filter_cons, decide_True by done. by rewrite IH.
Qed.

(** When the requested level is within [tol] of 1 the loop body never runs:
    no level is examined, the level returned is the initial 1 and, for a
    positive density (it is an exponential) and at least two thresholds, the
    region is the whole grid (the threshold read is [p_stars[-1] = 0]). *)
Theorem hpd_region_full_grid (fuel : nat) (density : list Q → Q)
    (param_grid : list (list Q)) (confidence_level : Q) (n_p_stars : nat) (tol : Q) :
  (0 < fuel)%nat → (2 ≤ n_p_stars)%nat →
  (∀ row, 0 < density row)%Q →
  (Qabs (1 - confidence_level) <= tol)%Q →
  hpd_region fuel density param_grid confidence_level n_p_stars tol
  = Ok (Some (1%Q, param_grid, [])).
Proof.
  intros Hfuel Hn Hpos Htol. destruct fuel as [|fuel]; [lia|].
  unfold hpd_region. cbn [hpd_loop]. unfold hpd_step. cbn [current_confidence_level idx].
  assert (Hcond : ltb tol (Qabs (1 - confidence_level)) = false).
  { apply not_true_is_false. intros Hlt. apply ltb_spec in Hlt. lra. }
  rewrite Hcond. cbn.
  set (p_stars := linspace (99 # 100) 0 n_p_stars).
  assert (Hlast : is_Some (p_stars !! (length p_stars - 1)%nat)).
  { apply lookup_lt_is_Some. subst p_stars. rewrite linspace_length. lia. }
  destruct Hlast as [p_star Hp].
  rewrite (py_index_pred p_stars 0 p_star Hp). cbn. do 4 f_equal.
  rewrite region_of_threshold.
  destruct param_grid as [|row rest] eqn:Hgrid; [by destruct (Qeq_bool _ _)|].
  rewrite <- Hgrid in *.
  assert (Htotal : (0 < total_density density param_grid)%Q).
  { apply total_density_pos; [done | by rewrite Hgrid]. }
  assert (Hnz : Qeq_bool (total_density density param_grid) 0 = false).
  { apply not_true_is_false. intros Heq. apply Qeq_bool_iff in Heq. lra. }
  rewrite Hnz. apply filter_all, Forall_forall. intros r _.
  subst p_stars. rewrite linspace_length in Hp.
  apply linspace_lookup in Hp as [_ ->]; [|done].
  assert (Hm : (0 < inject_Z (Z.of_nat (n_p_stars - 1)))%Q).
  { change 0%Q with (inject_Z 0). rewrite <- Zlt_Qlt. lia. }
  assert (Hz : ((99 # 100) + inject_Z (Z.of_nat (n_p_stars - 1))
                * ((0 - (99 # 100)) / inject_Z (Z.of_nat (n_p_stars - 1))) == 0)%Q).
  { field. lra. }
  rewrite Hz. unfold normalized_probability.
  apply Qle_shift_div_l; [done|]. pose proof (Hpos r). lra.
Qed.

Lemma hpd_region_full_grid_witness :
  (0 < 1)%nat ∧ (2 ≤ 3)%nat ∧ (∀ row : list Q, 0 < (λ _, 1%Q) row)%Q ∧
  (Qabs (1 - 1) <= 1 # 100)%Q ∧
  hpd_region 1 (λ _, 1%Q) [[0%Q]; [1%Q]] 1 3 (1 # 100)
  = Ok (Some (1%Q, [[0%Q]; [1%Q]], [])).
Proof.
  assert (Hd : ∀ row : list Q, (0 < (λ _, 1%Q) row)%Q) by (intros row; by vm_compute).
  assert (Htol : (Qabs (1 - 1) <= 1 # 100)%Q) by (by vm_compute).
  split; [lia|]. split; [lia|]. split; [exact Hd|]. split; [exact Htol|].
  apply (hpd_region_full_grid 1 (λ _, 1%Q) [[0%Q]; [1%Q]] 1 3 (1 # 100));
    [lia | lia | exact Hd | exact Htol].
Defined.

End ConfidenceRegionsMore.

(** ** The Waldo confidence set *)

Module WaldoProofs.
Import NumPy NumPyFacts Waldo.

Section Region.

Variable waldo_stats : list Q → result Q.
Variable stat : list Q → Q.

(** The grid rows, paired with their critical values, that the loop keeps. *)
Definition kept (rows : list (list Q)) (critical_values : list Q) : list (list Q) :=
  (filter (λ rc : list Q * Q, stat rc.1 <= rc.2)%Q (zip rows critical_values)).*1.

Lemma kept_cons (row : list Q) (rows : list (list Q)) (c : Q) (cs : list Q) :
  kept (row :: rows) (c :: cs)
  = if decide (stat row <= c)%Q then row :: kept rows cs else kept rows cs.
Proof.
  unfold kept. cbn [zip zip_with]. rewrite filter_cons. cbn [fst snd].
  by destruct (decide (stat row <= c)%Q).
Qed.

Lemma waldo_loop_spec (critical_values : list Q) (param_grid : list (list Q)) (n : nat) :
  (∀ row, row ∈ param_grid → waldo_stats row = Ok (stat row) ∧ length row = 2%nat) →
  ∀ a acc, (a + n ≤ length param_grid)%nat → (a + n ≤ length critical_values)%nat →
  waldo_loop waldo_stats (seq a n) critical_values param_grid acc
  = Ok (acc ++ kept (take n (drop a param_grid)) (take n (drop a critical_values))).
Proof.
  intros Hrows. induction n as [|n IH]; intros a acc Hg Hc.
  - cbn. by rewrite app_nil_r.
  - destruct (lookup_lt_is_Some_2 param_grid a) as [row Hrow]; [lia|].
    destruct (lookup_lt_is_Some_2 critical_values a) as [c Hcrit]; [lia|].
    destruct (Hrows row) as [Hstat Hlen]; [by apply list_elem_of_lookup_2 with a|].
    cbn [seq waldo_loop]. unfold getrow, reshape_1_2.
    rewrite Hrow. cbn. rewrite Hstat. cbn. rewrite Hcrit. cbn.
    rewrite (drop_S _ _ _ Hrow), (drop_S _ _ _ Hcrit). cbn [take].
    rewrite kept_cons.
    destruct (leb (stat row) c) eqn:Hle.
    + apply leb_spec in Hle. rewrite (decide_True (P := (stat row <= c)%Q)) by done.
      rewrite decide_True by done. cbn.
      rewrite IH by lia. by rewrite <- app_assoc.
    + rewrite (decide_False (P := (stat row <= c)%Q)).
      * by rewrite IH by lia.
      * intros Hle'. apply leb_spec in Hle'. congruence.
Qed.

(** On a grid of two-dimensional parameters on which the statistic is
    defined, [waldo_confidence_region] returns, in grid order, the first
    [grid_sample_size] rows whose statistic is at most their critical value;
    when no row qualifies it raises [ValueError] instead of returning an
    empty set. *)
Theorem waldo_confidence_region_spec (critical_values : list Q)
    (param_grid : list (list Q)) (grid_sample_size : nat) :
  (∀ row, row ∈ param_grid → waldo_stats row = Ok (stat row) ∧ length row = 2%nat) →
  (grid_sample_size ≤ length param_grid)%nat →
  (grid_sample_size ≤ length critical_values)%nat →
  waldo_confidence_region waldo_stats critical_values param_grid grid_sample_size
  = match kept (take grid_sample_size param_grid) (take grid_sample_size critical_values) with
    | [] => Raise ValueError
    | row :: rows => Ok (row :: rows)
    end.
Proof.
  intros Hrows Hg Hc. unfold waldo_confidence_region.
  rewrite (waldo_loop_spec critical_values param_grid grid_sample_size Hrows 0 [])
    by (cbn; lia).
  cbn. by destruct (kept _ _).
Qed.

(** A grid shorter than [grid_sample_size] makes the loop run past its
    end: the call raises [IndexError], whatever was collected before. *)
Theorem waldo_confidence_region_short_grid (critical_values : list Q)
    (param_grid : list (list Q)) (grid_sample_size : nat) :
  (∀ row, row ∈ param_grid → waldo_stats row = Ok (stat row) ∧ length row = 2%nat) →
  (length param_grid < grid_sample_size)%nat →
  (length param_grid ≤ length critical_values)%nat →
  waldo_confidence_region waldo_stats critical_values param_grid grid_sample_size
  = Raise IndexError.
Proof.
  intros Hrows Hshort Hc. unfold waldo_confidence_region.
  replace grid_sample_size
    with (length param_grid + (grid_sample_size - length param_grid))%nat by lia.
  rewrite seq_app. cbn [plus].
  assert (Hsplit : ∀ js js' acc,
    waldo_loop waldo_stats (js ++ js') critical_values param_grid acc
    = (acc' ← waldo_loop waldo_stats js critical_values param_grid acc;
       waldo_loop waldo_stats js' critical_values param_grid acc')).
  { induction js as [|j js IH]; intros js' acc; [done|].
    cbn [app waldo_loop].
    destruct (getrow param_grid j) as [param|e]; [|done]. cbn.
    destruct (waldo_stats param) as [obs|e]; [|done]. cbn.
    destruct (getrow critical_values j) as [c|e]; [|done]. cbn.
    destruct (leb obs c); [|apply IH].
    destruct (reshape_1_2 param) as [row|e]; [|done]. cbn. apply IH. }
  rewrite Hsplit, (waldo_loop_spec critical_values param_grid (length param_grid) Hrows 0 [])
    by (cbn; lia).
  cbn. destruct (grid_sample_size - length param_grid)%nat as [|k] eqn:Hk; [lia|].
  cbn [seq waldo_loop]. unfold getrow.
  rewrite (lookup_ge_None_2 param_grid (length param_grid)) by lia. done.
Qed.

End Region.

(** A statistic for concrete runs: the squared distance to the origin. *)
Definition norm2 (row : list Q) : Q := sum (map (λ x, x * x)%Q row).

Lemma norm2_rows :
  ∀ row, row ∈ [[0%Q; 0%Q]; [3%Q; 4%Q]] →
    (λ row, Ok (norm2 row)) row = Ok (norm2 row) ∧ length row = 2%nat.
Proof.
  intros row Hrow. split; [done|].
  apply elem_of_cons in Hrow as [->|Hrow]; [done|].
  by apply list_elem_of_singleton in Hrow as ->.
Qed.

Lemma waldo_confidence_region_spec_witness :
  (∀ row, row ∈ [[0%Q; 0%Q]; [3%Q; 4%Q]] →
     (λ row, Ok (norm2 row)) row = Ok (norm2 row) ∧ length row = 2%nat) ∧
  (2 ≤ length [[0%Q; 0%Q]; [3%Q; 4%Q]])%nat ∧
  (2 ≤ length [1%Q; 1%Q])%nat ∧
  waldo_confidence_region (λ row, Ok (norm2 row)) [1%Q; 1%Q] [[0%Q; 0%Q]; [3%Q; 4%Q]] 2
  = match kept norm2 (take 2 [[0%Q; 0%Q]; [3%Q; 4%Q]]) (take 2 [1%Q; 1%Q]) with
    | [] => Raise ValueError
    | row :: rows => Ok (row :: rows)
    end.
Proof.
  split; [exact norm2_rows|]. split; [cbn; lia|]. split; [cbn; lia|].
  apply (waldo_confidence_region_spec (λ row, Ok (norm2 row)) norm2 [1%Q; 1%Q]
           [[0%Q; 0%Q]; [3%Q; 4%Q]] 2 norm2_rows); cbn; lia.
Defined.

Lemma waldo_confidence_region_short_grid_witness :
  (∀ row, row ∈ [[0%Q; 0%Q]; [3%Q; 4%Q]] →
     (λ row, Ok (norm2 row)) row = Ok (norm2 row) ∧ length row = 2%nat) ∧
  (length [[0%Q; 0%Q]; [3%Q; 4%Q]] < 5)%nat ∧
  (length [[0%Q; 0%Q]; [3%Q; 4%Q]] ≤ length [1%Q; 1%Q])%nat ∧
  waldo_confidence_region (λ row, Ok (norm2 row)) [1%Q; 1%Q] [[0%Q; 0%Q]; [3%Q; 4%Q]] 5
  = Raise IndexError.
Proof.
  split; [exact norm2_rows|]. split; [cbn; lia|]. split; [cbn; lia|].
  apply (waldo_confidence_region_short_grid (λ row, Ok (norm2 row)) norm2 [1%Q; 1%Q]
           [[0%Q; 0%Q]; [3%Q; 4%Q]] 5 norm2_rows); cbn; lia.
Defined.

(** Only the origin is within the critical value 1. *)
Example waldo_region_origin :
  waldo_confidence_region (λ row, Ok (norm2 row)) [1%Q; 1%Q] [[0%Q; 0%Q]; [3%Q; 4%Q]] 2
  = Ok [[0%Q; 0%Q]].
Proof. reflexivity. Qed.

End WaldoProofs.

(** ** The empirical CDF of the SBC ranks is a CDF *)

Module SBCProofs.
Import NumPy NumPyFacts SBC.

Lemma minimum_le (x y : Q) : (minimum x y <= x)%Q ∧ (minimum x y <= y)%Q.
Proof.
  unfold minimum. destruct (leb x y) eqn:H.
  - apply leb_spec in H. split; [apply Qle_refl | done].
  - apply PlotsProofs.leb_false in H. split; [by apply Qlt_le_weak | apply Qle_refl].
Qed.

Lemma maximum_ge (x y : Q) : (x <= maximum x y)%Q ∧ (y <= maximum x y)%Q.
Proof.
  unfold maximum. destruct (leb x y) eqn:H.
  - apply leb_spec in H. split; [done | apply Qle_refl].
  - apply PlotsProofs.leb_false in H. split; [apply Qle_refl | by apply Qlt_le_weak].
Qed.

Lemma array_min_le (a : list Q) :
  ∀ x y, y ∈ x :: a → (array_min x a <= y)%Q.
Proof.
  unfold array_min. induction a as [|z a IH]; intros x y Hy; cbn [foldl].
  - apply list_elem_of_singleton in Hy as ->. apply Qle_refl.
  - destruct (minimum_le x z) as [Hx Hz].
    apply elem_of_cons in Hy as [->|Hy].
    + apply Qle_trans with (minimum x z); [|done]. apply IH. by left.
    + apply elem_of_cons in Hy as [->|Hy].
      * apply Qle_trans with (minimum x z); [|done]. apply IH. by left.
      * apply IH. by right.
Qed.

Lemma array_max_ge (a : list Q) :
  ∀ x y, y ∈ x :: a → (y <= array_max x a)%Q.
Proof.
  unfold array_max. induction a as [|z a IH]; intros x y Hy; cbn [foldl].
  - apply list_elem_of_singleton in Hy as ->. apply Qle_refl.
  - destruct (maximum_ge x z) as [Hx Hz].
    apply elem_of_cons in Hy as [->|Hy].
    + apply Qle_trans with (maximum x z); [done|]. apply IH. by left.
    + apply elem_of_cons in Hy as [->|Hy].
      * apply Qle_trans with (maximum x z); [done|]. apply IH. by left.
      * apply IH. by right.
Qed.

(** The range is never degenerate and contains every value. *)
Lemma histogram_range_spec (a : list Q) :
  ((histogram_range a).1 < (histogram_range a).2)%Q ∧
  ∀ y, y ∈ a → ((histogram_range a).1 <= y)%Q ∧ (y <= (histogram_range a).2)%Q.
Proof.
  destruct a as [|x a]; cbn [histogram_range].
  { split; [by vm_compute|]. intros y Hy. by apply elem_of_nil in Hy. }
  pose proof (array_min_le a x) as Hmin. pose proof (array_max_ge a x) as Hmax.
  assert (Hx : x ∈ x :: a) by (by left).
  pose proof (Hmin x Hx). pose proof (Hmax x Hx).
  destruct (Qeq_bool (array_min x a) (array_max x a)) eqn:Heq; cbn [fst snd].
  - apply Qeq_bool_iff in Heq. split; [lra|].
    intros y Hy. pose proof (Hmin y Hy). pose proof (Hmax y Hy). split; lra.
  - apply Qeq_bool_neq in Heq. split.
    + apply Qnot_le_lt. intros Hle. apply Heq. lra.
    + intros y Hy. by split; [apply Hmin | apply Hmax].
Qed.

Lemma bin_index_lt (first_edge last_edge : Q) (bins : nat) (x : Q) :
  (0 < bins)%nat → (first_edge < last_edge)%Q →
  (first_edge <= x)%Q → (x <= last_edge)%Q →
  (bin_index first_edge last_edge bins x < bins)%nat.
Proof.
  intros Hbins Hrange Hlo Hhi. unfold bin_index.
  set (n := inject_Z (Z.of_nat bins)).
  set (t := ((x - first_edge) * (n / (last_edge - first_edge)))%Q).
  assert (Hn : (0 <= n)%Q).
  { subst n. change 0%Q with (inject_Z 0). rewrite <- Zle_Qle. lia. }
  assert (Hscale : (0 <= n / (last_edge - first_edge))%Q).
  { apply Qle_shift_div_l; lra. }
  assert (Ht0 : (0 <= t)%Q) by (apply Qmult_le_0_compat; [lra | done]).
  assert (Ht1 : (t <= n)%Q).
  { assert (H : ((x - first_edge) * (n / (last_edge - first_edge))
                 <= (last_edge - first_edge) * (n / (last_edge - first_edge)))%Q).
    { apply Qmult_le_compat_r; [lra | done]. }
    assert (Heq : ((last_edge - first_edge) * (n / (last_edge - first_edge)) == n)%Q).
    { field. lra. }
    subst t. lra. }
  assert (Hf0 : (0 <= Qfloor t)%Z).
  { change 0%Z with (Qfloor 0). by apply Qfloor_resp_le. }
  assert (Hf1 : (Qfloor t <= Z.of_nat bins)%Z).
  { rewrite <- (Qfloor_Z (Z.of_nat bins)). by apply Qfloor_resp_le. }
  case_decide; lia.
Qed.

Lemma sum_list_indicator (i n a : nat) :
  sum_list (map (λ b, if decide (i = b) then 1 else 0)%nat (seq a n))
  = if decide (a ≤ i < a + n)%nat then 1%nat else 0%nat.
Proof.
  revert a. induction n as [|n IH]; intros a.
  - cbn. by rewrite decide_False by lia.
  - cbn [seq map sum_list sum_list_with].
    change (sum_list_with id ?l) with (sum_list l). rewrite IH.
    repeat case_decide; unfold id; lia.
Qed.

(** Every index below [bins] is counted once. *)
Lemma bincount_sum (indices : list nat) (bins : nat) :
  Forall (λ i, i < bins)%nat indices →
  sum_list (bincount indices bins) = length indices.
Proof.
  unfold bincount. induction 1 as [|i indices Hi Hall IH]; cbn [length].
  - induction (seq 0 bins) as [|b l IHl]; [done|].
    cbn [map sum_list sum_list_with]. change (sum_list_with id ?l) with (sum_list l).
    by rewrite IHl.
  - rewrite <- IH.
    assert (Hsplit : ∀ l,
      sum_list (map (λ b, length (filter (λ j, j = b) (i :: indices))) l)
      = (sum_list (map (λ b, if decide (i = b) then 1 else 0)%nat l)
         + sum_list (map (λ b, length (filter (λ j, j = b) indices)) l))%nat).
    { induction l as [|b l IHl]; [done|].
      cbn [map sum_list sum_list_with]. change (sum_list_with id ?l) with (sum_list l).
      rewrite IHl, filter_cons. unfold id. case_decide; cbn [length]; lia. }
    rewrite Hsplit, sum_list_indicator. rewrite decide_True by lia. lia.
Qed.

Lemma cumsum_from_spec (counts : list nat) :
  ∀ acc,
  length (cumsum_from acc counts) = length counts ∧
  (∀ v, v ∈ cumsum_from acc counts → acc ≤ v ≤ acc + sum_list counts)%nat ∧
  (∀ i j u v, (i ≤ j)%nat → cumsum_from acc counts !! i = Some u →
     cumsum_from acc counts !! j = Some v → u ≤ v)%nat ∧
  (counts ≠ [] → last (cumsum_from acc counts) = Some (acc + sum_list counts)%nat).
Proof.
  induction counts as [|c counts IH]; intros acc.
  - split; [done|]. split; [intros v Hv; by apply elem_of_nil in Hv|].
    split; [intros i j u v _ Hu; done | done].
  - destruct (IH (acc + c)%nat) as (Hlen & Hall & Hmono & Hlast).
    cbn [cumsum_from sum_list sum_list_with]. change (id c) with c.
    split; [cbn; by rewrite Hlen|]. split; [|split].
    + intros v [->|Hv]%elem_of_cons; [lia|]. apply Hall in Hv. lia.
    + intros i j u v Hij Hu Hv. destruct i as [|i], j as [|j]; simplify_eq/=.
      * lia.
      * apply list_elem_of_lookup_2, Hall in Hv. lia.
      * lia.
      * apply (Hmono i j); [lia | done..].
    + intros _. destruct counts as [|c' counts].
      * cbn. f_equal. lia.
      * rewrite last_cons. rewrite Hlast by done. f_equal. lia.
Qed.

Lemma cumsum_max (counts : list nat) :
  counts ≠ [] → max_list (cumsum counts) = sum_list counts.
Proof.
  intros Hne. unfold cumsum.
  destruct (cumsum_from_spec counts 0) as (Hlen & Hall & _ & Hlast).
  apply Nat.le_antisymm.
  - assert (Hin : max_list (cumsum_from 0 counts) ∈ cumsum_from 0 counts).
    { apply max_list_elem_of. intros Hnil. rewrite Hnil in Hlen.
      destruct counts; [done | cbn in Hlen; lia]. }
    apply Hall in Hin. lia.
  - apply max_list_elem_of_le. apply last_Some_elem_of. by rewrite Hlast.
Qed.

Lemma bincount_length (indices : list nat) (bins : nat) :
  length (bincount indices bins) = bins.
Proof. unfold bincount. by rewrite length_map, length_seq. Qed.

Lemma histogram_counts (ranks : list Q) (bins : nat) :
  bins ≠ 0%nat →
  ∃ counts, histogram ranks bins = Ok counts ∧ length counts = bins ∧
            sum_list counts = length ranks.
Proof.
  intros Hbins. unfold histogram. rewrite decide_False by done.
  destruct (histogram_range_spec ranks) as [Hrange Hin].
  destruct (histogram_range ranks) as [first_edge last_edge]. cbn [fst snd] in *.
  eexists. split; [done|]. split; [apply bincount_length|].
  rewrite bincount_sum; [by rewrite length_map|].
  apply Forall_forall. intros i [x [-> Hx]]%list_elem_of_fmap.
  destruct (Hin x Hx). apply bin_index_lt; [lia | done..].
Qed.

Lemma ratio_le (a b n : nat) :
  (0 < n)%nat → (a ≤ b)%nat →
  (inject_Z (Z.of_nat a) / inject_Z (Z.of_nat n)
   <= inject_Z (Z.of_nat b) / inject_Z (Z.of_nat n))%Q.
Proof.
  intros Hn Hab. apply Qmult_le_compat_r.
  - rewrite <- Zle_Qle. lia.
  - apply Qinv_le_0_compat. change 0%Q with (inject_Z 0). rewrite <- Zle_Qle. lia.
Qed.

(** For at least one rank and at least one level, the SBC curve of a
    dimension ([multi_global_consistency], [global_coverage_pp_plots]) has
    one finite value per level, every value lies in [[0, 1]], the values
    never decrease, and the last one is 1. *)
Theorem sbc_curve_is_cdf (ranks alphas : list Q) :
  ranks ≠ [] → alphas ≠ [] →
  ∃ vs : list Q,
    sbc_curve ranks alphas = Ok (Fin <$> vs) ∧
    length vs = length alphas ∧
    Forall (λ v, 0 <= v ∧ v <= 1)%Q vs ∧
    (∀ i j u v, (i ≤ j)%nat → vs !! i = Some u → vs !! j = Some v → (u <= v)%Q) ∧
    ∃ v, last vs = Some v ∧ (v == 1)%Q.
Proof.
  intros Hranks Halphas.
  assert (Hbins : length alphas ≠ 0%nat) by (by destruct alphas).
  destruct (histogram_counts ranks (length alphas) Hbins) as (counts & Hhist & Hlen & Hsum).
  assert (Hcounts : counts ≠ []) by (intros ->; cbn in Hlen; lia).
  assert (Hn : (0 < sum_list counts)%nat) by (rewrite Hsum; destruct ranks; [done | cbn; lia]).
  pose proof (cumsum_max counts Hcounts) as Hmax.
  destruct (cumsum_from_spec counts 0) as (Hclen & Hall & Hmono & Hlast).
  fold (cumsum counts) in Hclen, Hall, Hmono, Hlast.
  set (n := sum_list counts) in *.
  exists ((λ c, inject_Z (Z.of_nat c) / inject_Z (Z.of_nat n))%Q <$> cumsum counts).
  split; [|split; [|split; [|split]]].
  - unfold sbc_curve. rewrite Hhist. cbn. f_equal. unfold over_max. rewrite Hmax.
    fold n. rewrite <- list_fmap_compose. apply map_ext. intros c. cbn.
    by rewrite decide_False by lia.
  - by rewrite length_fmap, Hclen.
  - apply Forall_fmap, Forall_forall. intros c Hc. apply Hall in Hc. cbn in Hc. cbn. split.
    + apply Qle_shift_div_l.
      * change 0%Q with (inject_Z 0). rewrite <- Zlt_Qlt. lia.
      * rewrite Qmult_0_l. change 0%Q with (inject_Z 0). rewrite <- Zle_Qle. lia.
    + apply Qle_shift_div_r.
      * change 0%Q with (inject_Z 0). rewrite <- Zlt_Qlt. lia.
      * rewrite Qmult_1_l. rewrite <- Zle_Qle. lia.
  - intros i j u v Hij Hu Hv.
    apply list_lookup_fmap_Some in Hu as (a & -> & Ha).
    apply list_lookup_fmap_Some in Hv as (b & -> & Hb).
    apply ratio_le; [done|]. by apply (Hmono i j).
  - exists (inject_Z (Z.of_nat n) / inject_Z (Z.of_nat n))%Q. split.
    + rewrite fmap_last, Hlast by done. done.
    + field. change 0%Q with (inject_Z 0). rewrite inject_Z_injective. lia.
Qed.

Lemma sbc_curve_is_cdf_witness :
  [3 # 1; 1 # 1; 2 # 1]%Q ≠ [] ∧ [0; 1 # 2; 1]%Q ≠ [] ∧
  ∃ vs : list Q,
    sbc_curve [3 # 1; 1 # 1; 2 # 1]%Q [0; 1 # 2; 1]%Q = Ok (Fin <$> vs) ∧
    length vs = 3%nat ∧
    Forall (λ v, 0 <= v ∧ v <= 1)%Q vs ∧
    (∀ i j u v, (i ≤ j)%nat → vs !! i = Some u → vs !! j = Some v → (u <= v)%Q) ∧
    ∃ v, last vs = Some v ∧ (v == 1)%Q.
Proof.
  split; [done|]. split; [done|].
  apply (sbc_curve_is_cdf [3 # 1; 1 # 1; 2 # 1]%Q [0; 1 # 2; 1]%Q); done.
Defined.

End SBCProofs.

(** ** The analytic band of [multi_global_consistency] *)

Module PlotsMore.
Import NumPy NumPyFacts Plots PlotsProofs.


(** The probability of no success. *)
Lemma binom_cdf_0 (N : nat) (p : Q) : (binom_cdf N p 0 == (1 - p) ^ Z.of_nat N)%Q.
Proof.
  unfold binom_cdf, binom_pmf. cbn [seq map]. rewrite Nat.sub_0_r.
  assert (Hc : choose N 0 = 1%nat) by (by destruct N).
  rewrite Hc. unfold sum. cbn [foldr].
  change (p ^ Z.of_nat 0)%Q with 1%Q. change (inject_Z (Z.of_nat 1)) with 1%Q. ring.
Qed.

(** The median count of a bin is zero exactly when no success is at least
    as likely as not. *)
Lemma median_zero (N : nat) (p : Q) :
  binom_ppf_exact N p (1 # 2) = 0%nat ↔ (N = 0%nat ∨ (1 # 2 <= (1 - p) ^ Z.of_nat N)%Q).
Proof.
  destruct (binom_ppf_exact_spec N p (1 # 2)) as (Hle & Hbelow & Hreach). split.
  - intros H0. rewrite H0 in Hreach. destruct Hreach as [Hreach | HN]; [|by left].
    right. by rewrite <- binom_cdf_0.
  - intros [-> | Hhalf]; [lia|].
    destruct (binom_ppf_exact N p (1 # 2)) as [|k] eqn:Hk; [done|].
    assert (H0 : (binom_cdf N p 0 < 1 # 2)%Q) by (apply Hbelow; lia).
    rewrite binom_cdf_0 in H0. lra.
Qed.

Lemma alter_replicate {A : Type} (f : A → A) (x : A) (n : nat) :
  f x = x → ∀ i, alter f i (replicate n x) = replicate n x.
Proof.
  intros Hf. induction n as [|n IH]; intros [|i]; cbn; try done.
  - by rewrite Hf.
  - f_equal. apply IH.
Qed.

Lemma lower_last_nan (n : nat) :
  n ≠ 0%nat → lower_last (replicate n NaN) = Ok (replicate n NaN).
Proof.
  intros Hn. destruct n as [|n]; [done|]. unfold lower_last.
  change (NaN :: replicate n NaN) with (replicate (S n) NaN).
  cbn [replicate]. f_equal. change (NaN :: replicate n NaN) with (replicate (S n) NaN).
  by apply alter_replicate.
Qed.

(** Too few PIT values for the grid: when a bin is more likely empty than
    not, [(1 - 1/nbins)^N >= 1/2] (or there is no PIT value at all), the
    median count is zero, the cumulative probabilities are [0/0] and both
    bounds of the band are [nan] at every grid point. *)
Theorem consistency_band_small_sample (first : list Q) (others : list (list Q))
    (alphas : list Q) :
  alphas ≠ [] →
  (1 # 2 <= (1 - 1 / inject_Z (Z.of_nat (length alphas))) ^ Z.of_nat (length first))%Q →
  consistency_band (first :: others) alphas
  = Ok (replicate (length alphas) NaN, replicate (length alphas) NaN).
Proof.
  intros Halphas Hhalf.
  assert (Hbins : length alphas ≠ 0%nat) by (by destruct alphas).
  assert (Hmed : binom_ppf_exact (length first) (1 / inject_Z (Z.of_nat (length alphas)))
                   (1 # 2) = 0%nat) by (apply median_zero; by right).
  unfold consistency_band, uniform_histogram. rewrite decide_False by done. rewrite Hmed.
  unfold normalized_cumsum.
  assert (Hsum : Qeq_bool (sum (replicate (length alphas)
                   (inject_Z (Z.of_nat 0) * 1)%Q)) 0 = true).
  { apply Qeq_bool_iff. rewrite sum_replicate. change (inject_Z (Z.of_nat 0)) with 0%Q. ring. }
  rewrite Hsum.
  assert (Hmap : map (λ _ : Q, NaN) (replicate (length alphas) (inject_Z (Z.of_nat 0) * 1)%Q)
                 = replicate (length alphas) NaN).
  { generalize (length alphas). intros n. induction n as [|n IH]; [done|]. cbn. by rewrite IH. }
  rewrite Hmap, lower_last_nan by done. cbn [mbind result_bind]. do 2 f_equal.
  all: generalize (length alphas); intros n; induction n as [|n IH]; [done|];
    cbn [replicate map binom_ppf]; by rewrite IH.
Qed.

Lemma consistency_band_small_sample_witness :
  [0; 1 # 2; 1]%Q ≠ [] ∧
  (1 # 2 <= (1 - 1 / inject_Z (Z.of_nat (length [0; 1 # 2; 1]%Q)))
            ^ Z.of_nat (length [1 # 3]%Q))%Q ∧
  consistency_band ([1 # 3]%Q :: []) [0; 1 # 2; 1]%Q
  = Ok (replicate (length [0; 1 # 2; 1]%Q) NaN, replicate (length [0; 1 # 2; 1]%Q) NaN).
Proof.
  assert (H : (1 # 2 <= (1 - 1 / inject_Z (Z.of_nat (length [0; 1 # 2; 1]%Q)))
                        ^ Z.of_nat (length [1 # 3]%Q))%Q) by (by vm_compute).
  split; [done|]. split; [exact H|].
  apply (consistency_band_small_sample [1 # 3]%Q [] [0; 1 # 2; 1]%Q); [done | exact H].
Defined.



End PlotsMore.

(** ** The null samples of [t_stats_lc2st] *)

Module LocalC2STStatsProofs.
Import NumPy NumPyFacts LocalC2ST LocalC2STProofs LocalC2STMore LocalC2STStats.

Lemma empty_lists_lookup {A : Type} (metrics : list string) (m : string) :
  (list_to_map (zip metrics (replicate (length metrics) ([] : list A)))
     : gmap string (list A)) !! m
  = if decide (m ∈ metrics) then Some [] else None.
Proof.
  induction metrics as [|k metrics IH]; [by rewrite decide_False by apply not_elem_of_nil|].
  cbn [length replicate zip zip_with list_to_map foldr].
  change (foldr _ ∅ (zip_with pair metrics (replicate (length metrics) [])))
    with (list_to_map (zip metrics (replicate (length metrics) ([] : list A)))
            : gmap string (list A)).
  destruct (decide (m = k)) as [->|Hne].
  - rewrite lookup_insert_eq. by rewrite decide_True by (by left).
  - rewrite lookup_insert_ne by done. rewrite IH.
    destruct (decide (m ∈ metrics)) as [Hin|Hnin].
    + by rewrite decide_True by (by right).
    + rewrite decide_False; [done|]. by intros [?|?]%elem_of_cons.
Qed.

Lemma append_stats_shape (scores_t : gmap string score_value) (test_stats : list string) :
  ∀ (stats stats' : gmap string (list score_value)),
  append_stats scores_t stats test_stats = Ok stats' →
  ∀ m, length <$> stats' !! m
       = (λ n, n + requested m test_stats)%nat <$> (length <$> stats !! m).
Proof.
  induction test_stats as [|k test_stats IH]; intros stats stats' Hrun m.
  - injection Hrun as <-. unfold requested. cbn.
    destruct (stats !! m); cbn; [f_equal; lia | done].
  - cbn [append_stats] in Hrun. unfold mbind, result_bind, getitem in Hrun.
    destruct (stats !! k) as [so_far|] eqn:Hk; [|done].
    destruct (scores_t !! k) as [v|]; [|done].
    rewrite (IH _ _ Hrun m). unfold requested. rewrite filter_cons.
    destruct (decide (m = k)) as [->|Hne].
    + rewrite lookup_insert_eq, Hk, decide_True by done. cbn.
      rewrite length_app. cbn. f_equal. lia.
    + rewrite lookup_insert_ne by done. by rewrite decide_False by done.
Qed.

Section WithClassifier.

Context {clf_cfg clf rng : Type}.
Variable train_c2st : matrix → matrix → clf_cfg → M (rng := rng) clf.
Variable eval_c2st : matrix → option matrix → clf → bool → result (rat * list rat).
Variable compute_metric : ndarray → string → bool → result float.
Variable shuffle : nat → list nat.
Variable compute_metrics : probas_value → list string → bool → result (gmap string float).

Variables (P x_P x_eval : matrix) (P_eval : option matrix).
Variables (list_null_samples_P list_null_samples_x_P : list matrix).
Variable test_stats : list string.
Variables (P_eval_null : option matrix) (single_class_eval : bool).
Variables (classifier : clf_cfg) (cross_val : bool) (n_folds : nat) (in_sample : bool).

(** One trial adds one array of probabilities. *)
Lemma null_trial_length (precomputed_probas_null : option (list probas_value))
    (t : nat) (probas_null probas_null' : list probas_value)
    (scores_t : gmap string score_value) (s s' : rng) :
  null_trial train_c2st eval_c2st compute_metric shuffle compute_metrics
    P x_P x_eval P_eval list_null_samples_P list_null_samples_x_P test_stats
    precomputed_probas_null P_eval_null single_class_eval classifier cross_val n_folds
    in_sample t probas_null s = Ok (scores_t, probas_null', s') →
  length probas_null' = S (length probas_null).
Proof.
  unfold null_trial, mbind, M_bind, mret, M_ret, lift. intros Hrun.
  destruct precomputed_probas_null as [precomputed|].
  - repeat peel Hrun. injection Hrun as _ <- _. rewrite length_app. cbn. lia.
  - repeat peel Hrun. injection Hrun as _ <- _. rewrite length_app. cbn. lia.
Qed.

Lemma null_loop_shape (precomputed_probas_null : option (list probas_value))
    (ts : list nat) :
  ∀ stats probas s stats' probas' s',
  null_loop train_c2st eval_c2st compute_metric shuffle compute_metrics ts
    P x_P x_eval P_eval list_null_samples_P list_null_samples_x_P test_stats
    precomputed_probas_null P_eval_null single_class_eval classifier cross_val n_folds
    in_sample stats probas s = Ok (stats', probas', s') →
  length probas' = (length probas + length ts)%nat ∧
  ∀ m, length <$> stats' !! m
       = (λ n, n + length ts * requested m test_stats)%nat <$> (length <$> stats !! m).
Proof.
  induction ts as [|t ts IH]; intros stats probas s stats' probas' s' Hrun.
  - injection Hrun as <- <- <-. split; [cbn; lia|]. intros m.
    destruct (stats !! m); cbn; [f_equal; lia | done].
  - cbn [null_loop] in Hrun. unfold mbind at 1, M_bind at 1 in Hrun.
    destruct (null_trial _ _ _ _ _ _ _ _ _ _ _ _ _ _ _ _ _ _ _ _ _ s)
      as [[[scores_t probas1] s1]|e] eqn:Htrial; [|done].
    unfold mbind at 1, M_bind at 1, lift in Hrun.
    destruct (append_stats scores_t stats test_stats) as [stats1|e] eqn:Happ; [|done].
    destruct (IH _ _ _ _ _ _ Hrun) as [Hlen Hstats].
    apply null_trial_length in Htrial. split; [rewrite Hlen, Htrial; cbn; lia|].
    intros m. rewrite Hstats, (append_stats_shape _ _ _ _ Happ m).
    destruct (stats !! m); cbn; [f_equal; lia | done].
Qed.

(** When [t_stats_lc2st] returns, the null statistics hold, under every
    requested statistic and under no other key, one value per null trial
    (and per occurrence of the statistic in [test_stats]); there is one
    array of null probabilities per trial. The number of trials is the
    length of [list_null_samples_P]. *)
Theorem t_stats_lc2st_shape (Q x_Q : matrix) (n_ensemble_obs : nat)
    (precomputed_probas_null : option (list probas_value)) (Q_eval : option matrix)
    (return_probas : bool) (s s' : rng) (res : t_stats_output) :
  t_stats_lc2st train_c2st eval_c2st compute_metric shuffle compute_metrics
    P Q x_P x_Q P_eval x_eval list_null_samples_P list_null_samples_x_P test_stats
    n_ensemble_obs precomputed_probas_null Q_eval P_eval_null single_class_eval
    return_probas classifier cross_val n_folds in_sample s = Ok (res, s') →
  ∃ t_stats_ensemble t_stats_null,
    (∀ m, length <$> t_stats_null !! m
          = if decide (m ∈ test_stats)
            then Some (length list_null_samples_P * requested m test_stats)%nat
            else None) ∧
    if return_probas
    then ∃ proba_ensemble probas_null,
           res = WithProbas t_stats_ensemble proba_ensemble t_stats_null probas_null ∧
           length probas_null = length list_null_samples_P
    else res = StatsOnly t_stats_ensemble t_stats_null.
Proof.
  unfold t_stats_lc2st. unfold mbind at 1, M_bind at 1. intros Hrun.
  destruct (lc2st_scores _ _ _ _ _ _ _ _ _ _ _ _ _ _ _ _ _ _ s) as [[out s1]|e]; [|done].
  destruct (unpack out) as [t_stats_ensemble proba_ensemble].
  unfold mbind, M_bind, mret, M_ret in Hrun.
  destruct (null_loop _ _ _ _ _ _ _ _ _ _ _ _ _ _ _ _ _ _ _ _ _ _ s1)
    as [[[t_stats_null probas_null] s2]|e] eqn:Hloop; [|done].
  injection Hrun as <- <-.
  destruct (null_loop_shape _ _ _ _ _ _ _ _ Hloop) as [Hlen Hstats].
  rewrite length_seq in Hlen, Hstats.
  exists t_stats_ensemble, t_stats_null. split.
  - intros m. rewrite Hstats, empty_lists_lookup. case_decide; cbn; [f_equal; lia | done].
  - destruct return_probas; [|done]. by exists proba_ensemble, probas_null.
Qed.

(** The trials of the loop with precomputed probabilities. *)
Lemma null_loop_precomputed (precomputed : list probas_value) (n : nat) :
  ∀ a stats probas s stats' probas' s',
  length probas = a →
  null_loop train_c2st eval_c2st compute_metric shuffle compute_metrics (seq a n)
    P x_P x_eval P_eval list_null_samples_P list_null_samples_x_P test_stats
    (Some precomputed) P_eval_null single_class_eval classifier cross_val n_folds
    in_sample stats probas s = Ok (stats', probas', s') →
  s' = s ∧ probas' = probas ++ take n (drop a precomputed) ∧
  (a + n ≤ length precomputed ∨ n = 0)%nat.
Proof.
  induction n as [|n IH]; intros a stats probas s stats' probas' s' Ha Hrun.
  - injection Hrun as <- <- <-. split; [done|]. split; [by rewrite app_nil_r | by right].
  - cbn [seq null_loop] in Hrun. unfold mbind at 1, M_bind at 1 in Hrun.
    unfold null_trial, mbind, M_bind, mret, M_ret, lift, Waldo.getrow in Hrun.
    destruct (precomputed !! a) as [proba|] eqn:Hpre; [|done].
    rewrite lookup_app_r in Hrun by lia. rewrite Ha, Nat.sub_diag in Hrun.
    cbn [lookup list_lookup] in Hrun.
    destruct (compute_metrics proba test_stats single_class_eval) as [scores|e]; [|done].
    destruct (append_stats (Scalar <$> scores) stats test_stats) as [stats1|e]; [|done].
    apply IH in Hrun as (-> & -> & Hlen); [|rewrite length_app; cbn; lia].
    split; [done|]. split.
    + rewrite <- app_assoc. f_equal. cbn [app].
      by rewrite (drop_S _ _ _ Hpre).
    + left. apply lookup_lt_Some in Hpre. destruct Hlen as [Hlen | ->]; lia.
Qed.

(** With [precomputed_probas_null] given, the null loop trains nothing and
    draws nothing: the random state at the end is the one left by the
    classifier of the observed data, the null probabilities returned are the
    first [len(list_null_samples_P)] precomputed ones, and the call can only
    return when there are that many. *)
Theorem t_stats_lc2st_precomputed (Q x_Q : matrix) (n_ensemble_obs : nat)
    (precomputed : list probas_value) (Q_eval : option matrix)
    (s s' : rng) (res : t_stats_output) :
  t_stats_lc2st train_c2st eval_c2st compute_metric shuffle compute_metrics
    P Q x_P x_Q P_eval x_eval list_null_samples_P list_null_samples_x_P test_stats
    n_ensemble_obs (Some precomputed) Q_eval P_eval_null single_class_eval
    true classifier cross_val n_folds in_sample s = Ok (res, s') →
  ∃ out t_stats_null,
    lc2st_scores train_c2st eval_c2st compute_metric shuffle
      P Q x_P x_Q x_eval P_eval Q_eval test_stats classifier
      single_class_eval cross_val n_folds in_sample n_ensemble_obs s = Ok (out, s') ∧
    res = WithProbas (unpack out).1 (unpack out).2 t_stats_null
            (take (length list_null_samples_P) precomputed) ∧
    (length list_null_samples_P ≤ length precomputed)%nat.
Proof.
  unfold t_stats_lc2st. unfold mbind at 1, M_bind at 1. intros Hrun.
  destruct (lc2st_scores _ _ _ _ _ _ _ _ _ _ _ _ _ _ _ _ _ _ s) as [[out s1]|e]; [|done].
  destruct (unpack out) as [t_stats_ensemble proba_ensemble] eqn:Hout.
  unfold mbind, M_bind, mret, M_ret in Hrun.
  destruct (null_loop _ _ _ _ _ _ _ _ _ _ _ _ _ _ _ _ _ _ _ _ _ _ s1)
    as [[[t_stats_null probas_null] s2]|e] eqn:Hloop; [|done].
  injection Hrun as <- <-.
  apply null_loop_precomputed in Hloop as (-> & -> & Hlen); [|done].
  exists out, t_stats_null. rewrite Hout. cbn [fst snd app drop].
  split; [done|]. split; [done|]. destruct Hlen as [Hlen | Hlen]; cbn in Hlen; lia.
Qed.

(** The loop cannot get past a trial whose conditioning sample is missing. *)
Lemma null_loop_missing_x (n : nat) :
  ∀ a stats probas s,
  (a + n ≤ length list_null_samples_P)%nat →
  (a ≤ length list_null_samples_x_P < a + n)%nat →
  ∃ e,
    null_loop train_c2st eval_c2st compute_metric shuffle compute_metrics (seq a n)
      P x_P x_eval P_eval list_null_samples_P list_null_samples_x_P test_stats
      None P_eval_null single_class_eval classifier cross_val n_folds
      in_sample stats probas s = Raise e.
Proof.
  induction n as [|n IH]; intros a stats probas s HP Hx; [lia|].
  cbn [seq null_loop]. unfold mbind at 1, M_bind at 1.
  destruct (null_trial _ _ _ _ _ _ _ _ _ _ _ _ _ _ _ _ _ _ _ _ _ s)
    as [[[scores_t probas1] s1]|e] eqn:Htrial; [|by exists e].
  unfold mbind at 1, M_bind at 1, lift.
  destruct (append_stats scores_t stats test_stats) as [stats1|e]; [|by exists e].
  destruct (decide (a = length list_null_samples_x_P)) as [Heq|Hne].
  - exfalso. unfold null_trial, mbind, M_bind, lift, Waldo.getrow in Htrial.
    destruct (list_null_samples_P !! a); [|done].
    rewrite (lookup_ge_None_2 list_null_samples_x_P a) in Htrial by lia. done.
  - apply IH; lia.
Qed.

(** Without precomputed probabilities every null trial needs its own
    conditioning sample: when [list_null_samples_x_P] is shorter than
    [list_null_samples_P] the call raises and returns nothing, whatever
    the classifier does. *)
Theorem t_stats_lc2st_missing_x (Q x_Q : matrix) (n_ensemble_obs : nat)
    (Q_eval : option matrix) (return_probas : bool) (s : rng) :
  (length list_null_samples_x_P < length list_null_samples_P)%nat →
  ∃ e,
    t_stats_lc2st train_c2st eval_c2st compute_metric shuffle compute_metrics
      P Q x_P x_Q P_eval x_eval list_null_samples_P list_null_samples_x_P test_stats
      n_ensemble_obs None Q_eval P_eval_null single_class_eval
      return_probas classifier cross_val n_folds in_sample s = Raise e.
Proof.
  intros Hshort. unfold t_stats_lc2st. unfold mbind at 1, M_bind at 1.
  destruct (lc2st_scores _ _ _ _ _ _ _ _ _ _ _ _ _ _ _ _ _ _ s) as [[out s1]|e];
    [|by exists e].
  destruct (unpack out) as [t_stats_ensemble proba_ensemble].
  unfold mbind, M_bind.
  edestruct (null_loop_missing_x (length list_null_samples_P) 0) as [e He];
    [| |rewrite He; by exists e]; cbn; lia.
Qed.

End WithClassifier.

(** A stand-in for [compute_metric] on a list of statistics: every
    statistic is one half. *)
Definition demo_metrics : probas_value → list string → bool → result (gmap string float) :=
  λ _ ms _, Ok (list_to_map ((λ m, (m, Fin (1 # 2)%Q)) <$> ms)).

Lemma t_stats_lc2st_shape_witness :
  t_stats_lc2st coin_train coin_eval (λ _ _ _, Ok NaN) (λ n, seq 0 n) demo_metrics
    [[1%Q]; [2%Q]] [[3%Q]; [4%Q]] [[5%Q]; [6%Q]] [[7%Q]; [8%Q]] (Some [[1%Q]; [2%Q]]) [[9%Q]]
    [[[3%Q]; [4%Q]]; [[3%Q]; [4%Q]]] [[[7%Q]; [8%Q]]; [[7%Q]; [8%Q]]] ["accuracy"]
    1 None None None true true () false 10 false 0%nat
  = Ok (WithProbas {["accuracy" := Scalar (Fin (1 # 2))]}
          (Probas (Array [(1 # 2)%Q; (1 # 2)%Q]))
          {["accuracy" := [Scalar (Fin (1 # 2)); Scalar (Fin (1 # 2))]]}
          [Probas (Array [(1 # 2)%Q; (1 # 2)%Q]); Probas (Array [(1 # 2)%Q; (1 # 2)%Q])],
        3%nat) ∧
  ∃ t_stats_ensemble t_stats_null,
    (∀ m, length <$> t_stats_null !! m
          = if decide (m ∈ ["accuracy"])
            then Some (length [[[3%Q]; [4%Q]]; [[3%Q]; [4%Q]]] * requested m ["accuracy"])%nat
            else None) ∧
    ∃ proba_ensemble probas_null,
      WithProbas {["accuracy" := Scalar (Fin (1 # 2))]}
        (Probas (Array [(1 # 2)%Q; (1 # 2)%Q]))
        {["accuracy" := [Scalar (Fin (1 # 2)); Scalar (Fin (1 # 2))]]}
        [Probas (Array [(1 # 2)%Q; (1 # 2)%Q]); Probas (Array [(1 # 2)%Q; (1 # 2)%Q])]
      = WithProbas t_stats_ensemble proba_ensemble t_stats_null probas_null ∧
      length probas_null = length [[[3%Q]; [4%Q]]; [[3%Q]; [4%Q]]].
Proof.
  assert (Hrun :
    t_stats_lc2st coin_train coin_eval (λ _ _ _, Ok NaN) (λ n, seq 0 n) demo_metrics
      [[1%Q]; [2%Q]] [[3%Q]; [4%Q]] [[5%Q]; [6%Q]] [[7%Q]; [8%Q]] (Some [[1%Q]; [2%Q]]) [[9%Q]]
      [[[3%Q]; [4%Q]]; [[3%Q]; [4%Q]]] [[[7%Q]; [8%Q]]; [[7%Q]; [8%Q]]] ["accuracy"]
      1 None None None true true () false 10 false 0%nat
    = Ok (WithProbas {["accuracy" := Scalar (Fin (1 # 2))]}
            (Probas (Array [(1 # 2)%Q; (1 # 2)%Q]))
            {["accuracy" := [Scalar (Fin (1 # 2)); Scalar (Fin (1 # 2))]]}
            [Probas (Array [(1 # 2)%Q; (1 # 2)%Q]); Probas (Array [(1 # 2)%Q; (1 # 2)%Q])],
          3%nat)) by (vm_compute; reflexivity).
  split; [exact Hrun|].
  exact (t_stats_lc2st_shape coin_train coin_eval (λ _ _ _, Ok NaN) (λ n, seq 0 n)
           demo_metrics _ _ _ _ _ _ _ _ _ _ _ _ _ _ _ _ _ _ true _ _ _ Hrun).
Defined.

Lemma t_stats_lc2st_precomputed_witness :
  t_stats_lc2st coin_train coin_eval (λ _ _ _, Ok NaN) (λ n, seq 0 n) demo_metrics
    [[1%Q]; [2%Q]] [[3%Q]; [4%Q]] [[5%Q]; [6%Q]] [[7%Q]; [8%Q]] (Some [[1%Q]; [2%Q]]) [[9%Q]]
    [[[3%Q]; [4%Q]]; [[3%Q]; [4%Q]]] [] ["accuracy"]
    1 (Some [Probas (Array [(1 # 3)%Q]); Probas (Array [(2 # 3)%Q]); Probas NaNScalar])
    None None true true () false 10 false 0%nat
  = Ok (WithProbas {["accuracy" := Scalar (Fin (1 # 2))]}
          (Probas (Array [(1 # 2)%Q; (1 # 2)%Q]))
          {["accuracy" := [Scalar (Fin (1 # 2)); Scalar (Fin (1 # 2))]]}
          [Probas (Array [(1 # 3)%Q]); Probas (Array [(2 # 3)%Q])],
        1%nat) ∧
  ∃ out t_stats_null,
    lc2st_scores coin_train coin_eval (λ _ _ _, Ok NaN) (λ n, seq 0 n)
      [[1%Q]; [2%Q]] [[3%Q]; [4%Q]] [[5%Q]; [6%Q]] [[7%Q]; [8%Q]] [[9%Q]]
      (Some [[1%Q]; [2%Q]]) None ["accuracy"] () true false 10 false 1 0%nat
    = Ok (out, 1%nat) ∧
    WithProbas {["accuracy" := Scalar (Fin (1 # 2))]}
      (Probas (Array [(1 # 2)%Q; (1 # 2)%Q]))
      {["accuracy" := [Scalar (Fin (1 # 2)); Scalar (Fin (1 # 2))]]}
      [Probas (Array [(1 # 3)%Q]); Probas (Array [(2 # 3)%Q])]
    = WithProbas (unpack out).1 (unpack out).2 t_stats_null
        (take (length [[[3%Q]; [4%Q]]; [[3%Q]; [4%Q]]])
           [Probas (Array [(1 # 3)%Q]); Probas (Array [(2 # 3)%Q]); Probas NaNScalar]) ∧
    (length [[[3%Q]; [4%Q]]; [[3%Q]; [4%Q]]]
     ≤ length [Probas (Array [(1 # 3)%Q]); Probas (Array [(2 # 3)%Q]); Probas NaNScalar])%nat.
Proof.
  assert (Hrun :
    t_stats_lc2st coin_train coin_eval (λ _ _ _, Ok NaN) (λ n, seq 0 n) demo_metrics
      [[1%Q]; [2%Q]] [[3%Q]; [4%Q]] [[5%Q]; [6%Q]] [[7%Q]; [8%Q]] (Some [[1%Q]; [2%Q]]) [[9%Q]]
      [[[3%Q]; [4%Q]]; [[3%Q]; [4%Q]]] [] ["accuracy"]
      1 (Some [Probas (Array [(1 # 3)%Q]); Probas (Array [(2 # 3)%Q]); Probas NaNScalar])
      None None true true () false 10 false 0%nat
    = Ok (WithProbas {["accuracy" := Scalar (Fin (1 # 2))]}
            (Probas (Array [(1 # 2)%Q; (1 # 2)%Q]))
            {["accuracy" := [Scalar (Fin (1 # 2)); Scalar (Fin (1 # 2))]]}
            [Probas (Array [(1 # 3)%Q]); Probas (Array [(2 # 3)%Q])],
          1%nat)) by (vm_compute; reflexivity).
  split; [exact Hrun|].
  exact (t_stats_lc2st_precomputed coin_train coin_eval (λ _ _ _, Ok NaN) (λ n, seq 0 n)
           demo_metrics _ _ _ _ _ _ _ _ _ _ _ _ _ _ _ _ _ _ _ _ _ Hrun).
Defined.

Lemma t_stats_lc2st_missing_x_witness :
  (length [[[7%Q]; [8%Q]]] < length [[[3%Q]; [4%Q]]; [[3%Q]; [4%Q]]])%nat ∧
  ∃ e,
    t_stats_lc2st coin_train coin_eval (λ _ _ _, Ok NaN) (λ n, seq 0 n) demo_metrics
      [[1%Q]; [2%Q]] [[3%Q]; [4%Q]] [[5%Q]; [6%Q]] [[7%Q]; [8%Q]] (Some [[1%Q]; [2%Q]]) [[9%Q]]
      [[[3%Q]; [4%Q]]; [[3%Q]; [4%Q]]] [[[7%Q]; [8%Q]]] ["accuracy"]
      1 None None None true true () false 10 false 0%nat
    = Raise e.
Proof.
  assert (H : (length [[[7%Q]; [8%Q]]] < length [[[3%Q]; [4%Q]]; [[3%Q]; [4%Q]]])%nat)
    by (cbn; lia).
  split; [exact H|].
  exact (t_stats_lc2st_missing_x coin_train coin_eval (λ _ _ _, Ok NaN) (λ n, seq 0 n)
           demo_metrics [[1%Q]; [2%Q]] [[5%Q]; [6%Q]] [[9%Q]] (Some [[1%Q]; [2%Q]])
           [[[3%Q]; [4%Q]]; [[3%Q]; [4%Q]]] [[[7%Q]; [8%Q]]] ["accuracy"] None true ()
           false 10 false [[3%Q]; [4%Q]] [[7%Q]; [8%Q]] 1 None true 0%nat H).
Defined.

(** The run with a missing conditioning sample stops at the second trial. *)
Example second_trial_raises_IndexError :
  t_stats_lc2st coin_train coin_eval (λ _ _ _, Ok NaN) (λ n, seq 0 n) demo_metrics
    [[1%Q]; [2%Q]] [[3%Q]; [4%Q]] [[5%Q]; [6%Q]] [[7%Q]; [8%Q]] (Some [[1%Q]; [2%Q]]) [[9%Q]]
    [[[3%Q]; [4%Q]]; [[3%Q]; [4%Q]]] [[[7%Q]; [8%Q]]] ["accuracy"]
    1 None None None true true () false 10 false 0%nat
  = Raise IndexError.
Proof. vm_compute. reflexivity. Qed.

End LocalC2STStatsProofs.

(** ** The simulated bands of [global_coverage_pp_plots] *)

Module CoverageProofs.
Import NumPy NumPyFacts PPPlots Plots PlotsProofs PPPlotsMore.

#[local] Instance Qle_total : Total Qle.
Proof. intros x y. destruct (Qlt_le_dec x y); [left; by apply Qlt_le_weak | by right]. Qed.

#[local] Instance Qle_trans_inst : Transitive Qle.
Proof. intros x y z. apply Qle_trans. Qed.

Lemma StronglySorted_lookup (v : list Q) :
  StronglySorted Qle v →
  ∀ i j a b, (i ≤ j)%nat → v !! i = Some a → v !! j = Some b → (a <= b)%Q.
Proof.
  induction 1 as [|x v Hv IH Hx]; intros i j a b Hij Ha Hb; [done|].
  destruct i as [|i], j as [|j]; simplify_eq/=.
  - apply Qle_refl.
  - apply list_elem_of_lookup_2 in Hb. by eapply Forall_forall in Hx.
  - lia.
  - apply (IH i j); [lia | done..].
Qed.

(** The value [quantile] interpolates from the sorted finite values. *)
Definition interpolate (v : list Q) (v0 : Q) (q : Q) : Q :=
  let h := (q * inject_Z (Z.of_nat (length v - 1)))%Q in
  let lo := Z.to_nat (Qfloor h) in
  let x_lo := default v0 (v !! lo) in
  let x_hi := default x_lo (v !! S lo) in
  (x_lo + (h - inject_Z (Qfloor h)) * (x_hi - x_lo))%Q.

Lemma finite_values_Fin (vs : list Q) : finite_values (Fin <$> vs) = vs.
Proof. unfold finite_values. induction vs as [|x vs IH]; [done|]. cbn. by rewrite IH. Qed.

Lemma quantile_interpolate (vs : list Q) (q : Q) :
  vs ≠ [] → (0 <= q)%Q → (q <= 1)%Q →
  ∃ v0 rest, merge_sort Qle vs = v0 :: rest ∧
    quantile (Fin <$> vs) q = Ok (Fin (interpolate (v0 :: rest) v0 q)).
Proof.
  intros Hne H0 H1. unfold quantile.
  assert (Hq : negb (leb 0 q && leb q 1) = false).
  { apply negb_false_iff, andb_true_iff. split; by apply leb_spec. }
  rewrite Hq, finite_values_Fin.
  destruct (merge_sort Qle vs) as [|v0 rest] eqn:Hsort.
  - exfalso. apply Hne. apply Permutation_nil_r. rewrite <- Hsort. by rewrite merge_sort_Permutation.
  - by exists v0, rest.
Qed.

(** The two neighbours the interpolation runs between. *)
Lemma interpolate_spec (v : list Q) (v0 : Q) (q : Q) :
  StronglySorted Qle v → v ≠ [] → (0 <= q)%Q → (q <= 1)%Q →
  let h := (q * inject_Z (Z.of_nat (length v - 1)))%Q in
  let lo := Z.to_nat (Qfloor h) in
  ∃ x_lo x_hi,
    v !! lo = Some x_lo ∧
    (v !! S lo = Some x_hi ∨ (length v ≤ S lo)%nat ∧ x_hi = x_lo) ∧
    (x_lo <= x_hi)%Q ∧
    (0 <= h - inject_Z (Qfloor h))%Q ∧ (h - inject_Z (Qfloor h) < 1)%Q ∧
    interpolate v v0 q = (x_lo + (h - inject_Z (Qfloor h)) * (x_hi - x_lo))%Q.
Proof.
  intros Hsorted Hne H0 H1 h lo.
  assert (Hn : (0 < length v)%nat) by (destruct v; [done | cbn; lia]).
  assert (Hm : (0 <= inject_Z (Z.of_nat (length v - 1)))%Q).
  { change 0%Q with (inject_Z 0). rewrite <- Zle_Qle. lia. }
  assert (Hh0 : (0 <= h)%Q) by (by apply Qmult_le_0_compat).
  assert (Hh1 : (h <= inject_Z (Z.of_nat (length v - 1)))%Q).
  { subst h. rewrite <- (Qmult_1_l (inject_Z (Z.of_nat (length v - 1)))) at 2.
    by apply Qmult_le_compat_r. }
  assert (Hf0 : (0 <= Qfloor h)%Z).
  { change 0%Z with (Qfloor 0). by apply Qfloor_resp_le. }
  assert (Hf1 : (Qfloor h <= Z.of_nat (length v - 1))%Z).
  { rewrite <- (Qfloor_Z (Z.of_nat (length v - 1))). by apply Qfloor_resp_le. }
  assert (Hlo : (lo < length v)%nat) by (subst lo; lia).
  destruct (lookup_lt_is_Some_2 v lo Hlo) as [x_lo Hx_lo].
  pose proof (Qfloor_le h) as Hfl. pose proof (Qlt_floor h) as Hfu.
  rewrite inject_Z_plus in Hfu. change (inject_Z 1) with 1%Q in Hfu.
  destruct (v !! S lo) as [x_hi|] eqn:Hx_hi.
  - exists x_lo, x_hi. split; [done|]. split; [by left|]. split.
    { apply (StronglySorted_lookup v Hsorted lo (S lo)); [lia | done..]. }
    split; [lra|]. split; [lra|].
    unfold interpolate. fold h. fold lo. by rewrite Hx_lo, Hx_hi.
  - exists x_lo, x_lo. split; [done|]. split.
    { right. split; [by apply lookup_ge_None_1 | done]. }
    split; [apply Qle_refl|]. split; [lra|]. split; [lra|].
    unfold interpolate. fold h. fold lo. by rewrite Hx_lo, Hx_hi.
Qed.

Lemma between (x_lo x_hi t : Q) :
  (x_lo <= x_hi)%Q → (0 <= t)%Q → (t <= 1)%Q →
  (x_lo <= x_lo + t * (x_hi - x_lo))%Q ∧ (x_lo + t * (x_hi - x_lo) <= x_hi)%Q.
Proof.
  intros Hx Ht0 Ht1.
  assert (H1 : (0 <= t * (x_hi - x_lo))%Q) by (apply Qmult_le_0_compat; lra).
  assert (H2 : (0 <= (1 - t) * (x_hi - x_lo))%Q) by (apply Qmult_le_0_compat; lra).
  assert (H3 : ((1 - t) * (x_hi - x_lo) == (x_hi - x_lo) - t * (x_hi - x_lo))%Q) by ring.
  split; lra.
Qed.

(** The interpolated value lies between the bounds of the values. *)
Lemma interpolate_bounds (v : list Q) (v0 : Q) (q a b : Q) :
  StronglySorted Qle v → v ≠ [] → (0 <= q)%Q → (q <= 1)%Q →
  Forall (λ x, a <= x ∧ x <= b)%Q v →
  (a <= interpolate v v0 q)%Q ∧ (interpolate v v0 q <= b)%Q.
Proof.
  intros Hsorted Hne H0 H1 Hall.
  destruct (interpolate_spec v v0 q Hsorted Hne H0 H1)
    as (x_lo & x_hi & Hlo & Hhi & Hle & Ht0 & Ht1 & ->).
  destruct (between x_lo x_hi _ Hle Ht0 (Qlt_le_weak _ _ Ht1)) as [Hb1 Hb2].
  assert (Hin_lo : (a <= x_lo ∧ x_lo <= b)%Q).
  { apply list_elem_of_lookup_2 in Hlo. by eapply Forall_forall in Hall. }
  assert (Hin_hi : (a <= x_hi ∧ x_hi <= b)%Q).
  { destruct Hhi as [Hhi | [_ ->]]; [|done].
    apply list_elem_of_lookup_2 in Hhi. by eapply Forall_forall in Hall. }
  split; lra.
Qed.

(** A higher level gives a higher quantile. *)
Lemma interpolate_mono (v : list Q) (v0 : Q) (q q' : Q) :
  StronglySorted Qle v → v ≠ [] → (0 <= q)%Q → (q <= q')%Q → (q' <= 1)%Q →
  (interpolate v v0 q <= interpolate v v0 q')%Q.
Proof.
  intros Hsorted Hne H0 Hqq H1.
  assert (H1' : (q <= 1)%Q) by lra. assert (H0' : (0 <= q')%Q) by lra.
  destruct (interpolate_spec v v0 q Hsorted Hne H0 H1')
    as (x_lo & x_hi & Hlo & Hhi & Hle & Ht0 & Ht1 & ->).
  destruct (interpolate_spec v v0 q' Hsorted Hne H0' H1)
    as (y_lo & y_hi & Hlo' & Hhi' & Hle' & Ht0' & Ht1' & ->).
  set (m := inject_Z (Z.of_nat (length v - 1))) in *.
  assert (Hm : (0 <= m)%Q).
  { subst m. change 0%Q with (inject_Z 0). rewrite <- Zle_Qle. lia. }
  assert (Hh : (q * m <= q' * m)%Q) by (by apply Qmult_le_compat_r).
  assert (Hh0 : (0 <= q * m)%Q) by (by apply Qmult_le_0_compat).
  assert (Hf0 : (0 <= Qfloor (q * m))%Z).
  { change 0%Z with (Qfloor 0). by apply Qfloor_resp_le. }
  pose proof (Qfloor_resp_le _ _ Hh) as Hf.
  destruct (between x_lo x_hi _ Hle Ht0 (Qlt_le_weak _ _ Ht1)) as [Hb1 Hb2].
  destruct (between y_lo y_hi _ Hle' Ht0' (Qlt_le_weak _ _ Ht1')) as [Hb1' Hb2'].
  destruct (decide (Qfloor (q * m) = Qfloor (q' * m))) as [Heq | Hneq].
  - rewrite <- Heq in *. assert (y_lo = x_lo) as -> by congruence.
    assert (y_hi = x_hi) as ->.
    { destruct Hhi as [Hhi | [Hge ->]], Hhi' as [Hhi' | [Hge' ->]]; try congruence.
      - apply lookup_lt_Some in Hhi. lia.
      - apply lookup_lt_Some in Hhi'. lia. }
    assert (Hd : (0 <= (q' * m - q * m) * (x_hi - x_lo))%Q)
      by (apply Qmult_le_0_compat; lra).
    assert (Hring : ((q' * m - q * m) * (x_hi - x_lo)
                     == (q' * m - inject_Z (Qfloor (q * m))) * (x_hi - x_lo)
                        - (q * m - inject_Z (Qfloor (q * m))) * (x_hi - x_lo))%Q) by ring.
    lra.
  - assert (Hlt : (Z.to_nat (Qfloor (q * m)) < Z.to_nat (Qfloor (q' * m)))%nat) by lia.
    assert (Hx : (x_hi <= y_lo)%Q).
    { destruct Hhi as [Hhi | [Hge _]].
      - apply (StronglySorted_lookup v Hsorted (S (Z.to_nat (Qfloor (q * m))))
                 (Z.to_nat (Qfloor (q' * m)))); [lia | done..].
      - apply lookup_lt_Some in Hlo'. lia. }
    lra.
Qed.

(** A value in [[0, 1]]. *)
Definition unit_interval (x : Q) : Prop := (0 <= x)%Q ∧ (x <= 1)%Q.

(** An array of [k] finite values in [[0, 1]]. *)
Definition unit_array (k : nat) (c : list float) : Prop :=
  ∃ vs, c = Fin <$> vs ∧ length vs = k ∧ Forall unit_interval vs.

(** The quantile of a row of finite values. *)
Definition row_quantile (row : list float) (q : Q) : Q :=
  match merge_sort Qle (finite_values row) with
  | [] => 0
  | v0 :: rest => interpolate (v0 :: rest) v0 q
  end.

Lemma sorted_values (vs : list Q) :
  StronglySorted Qle (merge_sort Qle vs) ∧
  (vs ≠ [] → merge_sort Qle vs ≠ []) ∧
  (Forall unit_interval vs → Forall unit_interval (merge_sort Qle vs)).
Proof.
  split; [apply StronglySorted_merge_sort; apply _|]. split.
  - intros Hne Hnil. apply Hne. apply Permutation_nil_r. rewrite <- Hnil.
    by rewrite merge_sort_Permutation.
  - intros Hall. by rewrite merge_sort_Permutation.
Qed.

Lemma quantile_row (k : nat) (row : list float) (q : Q) :
  (0 < k)%nat → unit_array k row → (0 <= q)%Q → (q <= 1)%Q →
  quantile row q = Ok (Fin (row_quantile row q)) ∧ unit_interval (row_quantile row q).
Proof.
  intros Hk (vs & -> & Hlen & Hall) H0 H1.
  assert (Hne : vs ≠ []) by (intros ->; cbn in Hlen; lia).
  destruct (quantile_interpolate vs q Hne H0 H1) as (v0 & rest & Hsort & Hq).
  destruct (sorted_values vs) as (Hsorted & Hne' & Hunit).
  unfold row_quantile. rewrite finite_values_Fin, Hsort. split; [done|].
  rewrite Hsort in Hsorted, Hunit.
  apply interpolate_bounds; [done | done | done | done | by apply Hunit].
Qed.

Lemma row_quantile_mono (k : nat) (row : list float) (q q' : Q) :
  (0 < k)%nat → unit_array k row → (0 <= q)%Q → (q <= q')%Q → (q' <= 1)%Q →
  (row_quantile row q <= row_quantile row q')%Q.
Proof.
  intros Hk (vs & -> & Hlen & Hall) H0 Hqq H1.
  destruct (sorted_values vs) as (Hsorted & _ & _).
  unfold row_quantile. rewrite finite_values_Fin.
  destruct (merge_sort Qle vs) as [|v0 rest]; [apply Qle_refl|].
  by apply interpolate_mono.
Qed.

Lemma mapM_quantile (k : nat) (rows : list (list float)) (q : Q) :
  (0 < k)%nat → Forall (unit_array k) rows → (0 <= q)%Q → (q <= 1)%Q →
  mapM (λ row, quantile row q) rows = Ok ((λ row, Fin (row_quantile row q)) <$> rows).
Proof.
  intros Hk Hrows H0 H1. induction Hrows as [|row rows Hrow Hrows IH]; [done|].
  cbn [mapM]. destruct (quantile_row k row q Hk Hrow H0 H1) as [-> _].
  cbn [mbind result_bind]. rewrite IH. reflexivity.
Qed.

(** Row [j] of the frame holds entry [j] of every column. *)
Lemma frame_row_unit (k j : nat) (columns : list (list float)) :
  (j < k)%nat → Forall (unit_array k) columns →
  unit_array (length columns) (omap (λ col : list float, col !! j) columns).
Proof.
  intros Hj. induction 1 as [|col columns (vs & -> & Hlen & Hall) Hcols IH].
  - by exists [].
  - destruct IH as (ws & Hws & Hwlen & Hwall).
    assert (Hlt : (j < length vs)%nat) by lia.
    destruct (lookup_lt_is_Some_2 vs j Hlt) as [x Hx].
    exists (x :: ws). cbn [omap list_omap]. rewrite list_lookup_fmap, Hx. cbn.
    split; [by rewrite <- Hws|]. split; [by rewrite Hwlen|].
    constructor; [|done]. apply list_elem_of_lookup_2 in Hx. by eapply Forall_forall in Hall.
Qed.

Lemma frame_rows_unit (k : nat) (columns : list (list float)) :
  columns ≠ [] → Forall (unit_array k) columns →
  length (frame_rows columns) = k ∧
  Forall (unit_array (length columns)) (frame_rows columns).
Proof.
  intros Hne Hcols. destruct columns as [|c columns]; [done|].
  assert (Hc : length c = k).
  { inversion Hcols as [|? ? (vs & -> & Hlen & _) _]; subst. by rewrite length_fmap. }
  unfold frame_rows. rewrite Hc. split; [by rewrite length_map, length_seq|].
  apply Forall_fmap, Forall_forall. intros j Hj%elem_of_seq.
  apply (frame_row_unit k j (c :: columns)); [lia | done].
Qed.

(** A band over [k] grid points: finite bounds in [[0, 1]], the lower one
    below the upper one. *)
Definition well_formed (k : nat) (band : list float * list float) : Prop :=
  ∃ ls us : list Q,
    band = (Fin <$> ls, Fin <$> us) ∧ length ls = k ∧ length us = k ∧
    ∀ j l u, ls !! j = Some l → us !! j = Some u →
      (0 <= l)%Q ∧ (l <= u)%Q ∧ (u <= 1)%Q.

Section Coverage.

Context {rng : Type}.
Variable rvs : nat → rng → list Q * rng.

(** [rvs(N)] draws [N] numbers. *)
Hypothesis rvs_length : ∀ n s, length (rvs n s).1 = n.

Lemma simulate_unit (N : nat) (alphas : list Q) :
  (0 < N)%nat →
  ∀ n_trials s,
    length (simulate rvs n_trials N alphas s).1 = n_trials ∧
    Forall (unit_array (length alphas)) (simulate rvs n_trials N alphas s).1.
Proof.
  intros HN. induction n_trials as [|n IH]; intros s; [by split|].
  cbn [simulate]. pose proof (rvs_length N s) as Hlen.
  destruct (rvs N s) as [u_samples s1]. cbn [fst] in Hlen.
  specialize (IH s1). destruct (simulate rvs n N alphas s1) as [rest s2].
  cbn [fst] in *. destruct IH as [IHlen IHall]. split; [cbn; by rewrite IHlen|].
  constructor; [|done].
  assert (Hne : u_samples ≠ []) by (intros ->; cbn in Hlen; lia).
  destruct (PP_vals_finite u_samples alphas Hne) as (vs & Hvs & Hall).
  exists vs. split; [done|]. split; [|done].
  rewrite <- (length_fmap Fin vs), <- Hvs. unfold PP_vals. by rewrite length_map.
Qed.

Lemma axis_band_well_formed (level : Q) (N : nat) (alphas : list Q) (n_trials : nat)
    (s : rng) :
  (0 < N)%nat → (0 < n_trials)%nat → (0 <= level)%Q → (level <= 1)%Q →
  ∃ lower upper s',
    axis_band rvs level N alphas n_trials s = Ok (lower, upper, s') ∧
    well_formed (length alphas) (lower, upper).
Proof.
  intros HN Ht H0 H1. unfold axis_band.
  destruct (simulate_unit N alphas HN n_trials s) as [Hlen Hcols].
  destruct (simulate rvs n_trials N alphas s) as [u_pp_values s']. cbn [fst] in *.
  assert (Hne : u_pp_values ≠ []) by (intros ->; cbn in Hlen; lia).
  destruct (frame_rows_unit (length alphas) u_pp_values Hne Hcols) as [Hrows Hunit].
  rewrite Hlen in Hunit.
  assert (Hq1 : (0 <= level / 2)%Q ∧ (level / 2 <= 1)%Q).
  { split; [apply Qle_shift_div_l; lra | apply Qle_shift_div_r; lra]. }
  assert (Hq2 : (level / 2 <= 1 - level / 2)%Q).
  { assert (Hhalf : (level / 2 <= 1 # 2)%Q) by (apply Qle_shift_div_r; lra). lra. }
  unfold frame_quantile. destruct u_pp_values as [|column columns] eqn:Hcolumns; [done|].
  rewrite <- Hcolumns in *.
  rewrite (mapM_quantile n_trials _ (level / 2) Ht Hunit) by tauto.
  cbn [mbind result_bind].
  rewrite (mapM_quantile n_trials _ (1 - level / 2) Ht Hunit) by lra.
  cbn [mbind result_bind].
  eexists _, _, _. split; [done|].
  exists ((λ row, row_quantile row (level / 2)) <$> frame_rows u_pp_values),
         ((λ row, row_quantile row (1 - level / 2)) <$> frame_rows u_pp_values).
  split; [by rewrite <- !list_fmap_compose|].
  split; [by rewrite length_fmap|]. split; [by rewrite length_fmap|].
  intros j l u Hl Hu.
  apply list_lookup_fmap_Some in Hl as (row & -> & Hrow).
  apply list_lookup_fmap_Some in Hu as (row' & -> & Hrow').
  assert (row' = row) as -> by congruence.
  assert (Harr : unit_array n_trials row).
  { apply list_elem_of_lookup_2 in Hrow. by eapply Forall_forall in Hunit. }
  destruct (quantile_row n_trials row (level / 2) Ht Harr) as [_ [Hl0 _]]; [tauto..|].
  destruct (quantile_row n_trials row (1 - level / 2) Ht Harr) as [_ [_ Hu1]]; [lra..|].
  split; [done|]. split; [|done].
  apply (row_quantile_mono n_trials); [done | done | tauto | done | lra].
Qed.

Lemma coverage_bands_from_well_formed (first : list Q) (rest : list (list Q))
    (alphas : list Q) (n_trials : nat) :
  first ≠ [] → (0 < n_trials)%nat →
  ∀ n_axes i level s, (0 <= level)%Q → (level <= 1)%Q →
  ∃ bands s',
    coverage_bands_from rvs i n_axes level (first :: rest) alphas n_trials s
    = Ok (bands, s') ∧
    length bands = n_axes ∧ Forall (well_formed (length alphas)) bands.
Proof.
  intros Hfirst Ht. induction n_axes as [|n IH]; intros i level s H0 H1.
  - by exists [], s.
  - cbn [coverage_bands_from].
    set (level' := if decide (i = 0%nat)
                   then (level / inject_Z (Z.of_nat (length first)))%Q else level).
    assert (Hdim : (0 < length first)%nat) by (destruct first; [done | cbn; lia]).
    assert (Hlevel : (if decide (i = 0%nat)
                      then if decide (length first = 0%nat) then Raise ZeroDivisionError
                           else Ok (level / inject_Z (Z.of_nat (length first)))%Q
                      else Ok level) = Ok level').
    { subst level'. destruct (decide (i = 0%nat)); [|done]. by rewrite decide_False by lia. }
    rewrite Hlevel. cbn [mbind result_bind].
    assert (Hd : (1 <= inject_Z (Z.of_nat (length first)))%Q).
    { change 1%Q with (inject_Z 1). rewrite <- Zle_Qle. lia. }
    assert (H0' : (0 <= level')%Q).
    { subst level'. destruct (decide (i = 0%nat)); [|done]. apply Qle_shift_div_l; lra. }
    assert (H1' : (level' <= 1)%Q).
    { subst level'. destruct (decide (i = 0%nat)); [|done]. apply Qle_shift_div_r; lra. }
    destruct (axis_band_well_formed level' (length (first :: rest)) alphas n_trials s)
      as (lower & upper & s1 & -> & Hband); [cbn; lia | done..|].
    cbn [mbind result_bind].
    destruct (IH (S i) level' s1 H0' H1') as (bands & s2 & -> & Hlen & Hall).
    cbn [mbind result_bind].
    exists ((lower, upper) :: bands), s2. split; [done|].
    split; [cbn; by rewrite Hlen | by constructor].
Qed.

(** When the generator returns as many numbers as asked, the ranks have at
    least one dimension, at least one trial is simulated and the level lies
    in [[0, 1]], the simulated bands of [global_coverage_pp_plots] are
    computed without error, one per axis, and each is a band: one pair of
    finite bounds per grid point, with [0 <= lower <= upper <= 1]. *)
Theorem coverage_bands_well_formed (n_axes : nat) (conf_alpha : Q) (first : list Q)
    (rest : list (list Q)) (alphas : list Q) (n_trials : nat) (s : rng) :
  first ≠ [] → (0 < n_trials)%nat → (0 <= conf_alpha)%Q → (conf_alpha <= 1)%Q →
  ∃ bands s',
    coverage_bands rvs n_axes conf_alpha (first :: rest) alphas n_trials s
    = Ok (bands, s') ∧
    length bands = n_axes ∧ Forall (well_formed (length alphas)) bands.
Proof.
  intros Hfirst Ht H0 H1. unfold coverage_bands.
  by apply coverage_bands_from_well_formed.
Qed.

End Coverage.

Lemma coverage_bands_well_formed_witness :
  (∀ n s, length (constant_rvs (1 # 4) n s).1 = n) ∧
  [0%Q] ≠ [] ∧ (0 < 1)%nat ∧ (0 <= 1 # 20)%Q ∧ (1 # 20 <= 1)%Q ∧
  ∃ bands s',
    coverage_bands (constant_rvs (1 # 4)) 2 (1 # 20) ([0%Q] :: []) [0; 1 # 2; 1]%Q 1 ()
    = Ok (bands, s') ∧
    length bands = 2%nat ∧ Forall (well_formed (length [0; 1 # 2; 1]%Q)) bands.
Proof.
  assert (Hrvs : ∀ n s, length (constant_rvs (1 # 4) n s).1 = n).
  { intros n s. unfold constant_rvs. cbn [fst]. apply length_replicate. }
  assert (H0 : (0 <= 1 # 20)%Q) by (by vm_compute).
  assert (H1 : (1 # 20 <= 1)%Q) by (by vm_compute).
  split; [exact Hrvs|]. split; [done|]. split; [lia|]. split; [exact H0|]. split; [exact H1|].
  apply (coverage_bands_well_formed (constant_rvs (1 # 4)) Hrvs 2 (1 # 20) [0%Q] []
           [0; 1 # 2; 1]%Q 1 ()); [done | lia | exact H0 | exact H1].
Defined.

End CoverageProofs.

(** ** Cross-validation on samples of different sizes *)

Module CrossValProofs.
Import NumPy NumPyFacts LocalC2ST LocalC2STProofs.

(** Indexing rows either succeeds, all indices being in range, or raises
    [IndexError]. *)
Lemma take_rows_cases (A : matrix) (index : list nat) :
  (∃ rows, take_rows A index = Ok rows ∧ Forall (λ i, i < length A)%nat index) ∨
  take_rows A index = Raise IndexError.
Proof.
  unfold take_rows. induction index as [|i index IH]; [left; by exists []|].
  cbn [mapM]. destruct (A !! i) as [row|] eqn:Hi; [|by right].
  cbn [mbind result_bind].
  destruct IH as [(rows & -> & Hall) | ->]; [|by right].
  left. exists (row :: rows). split; [done|].
  constructor; [by eapply lookup_lt_Some | done].
Qed.

(** The train and the validation indices of a fold cover all the rows. *)
Lemma train_val_index_cover (n_samples : nat) (test : list nat) (i : nat) :
  (i < n_samples)%nat →
  i ∈ (train_val_index n_samples test).1 ∨ i ∈ (train_val_index n_samples test).2.
Proof.
  intros Hi. unfold train_val_index. cbn [fst snd].
  destruct (decide (i ∈ test)); [right | left];
    (apply list_elem_of_filter; split; [done | apply elem_of_seq; lia]).
Qed.

Section WithClassifier.

Context {clf_cfg clf rng : Type}.
Variable train_c2st : matrix → matrix → clf_cfg → M (rng := rng) clf.
Variable eval_c2st : matrix → option matrix → clf → bool → result (rat * list rat).
Variable compute_metric : ndarray → string → bool → result float.
Variable shuffle : nat → list nat.

(** A fold whose indices cover every row of [P] stops the loop with
    [IndexError], before its classifier is trained, when [Q] has fewer
    rows: [K] is the rest of the iteration. *)
Lemma cv_loop_short (P Q x_P x_Q x_eval : matrix) (P_eval Q_eval : option matrix)
    (metrics : list string) (classifier : clf_cfg) (single_class_eval : bool)
    (train_index val_index : list nat) (folds : list (list nat * list nat))
    (scores : gmap string (list float)) (probas : list (list rat)) (s : rng) :
  (∀ i, (i < length P)%nat → i ∈ train_index ∨ i ∈ val_index) →
  (length Q < length P)%nat →
  cv_loop train_c2st eval_c2st compute_metric ((train_index, val_index) :: folds)
    P Q x_P x_Q x_eval P_eval Q_eval metrics classifier single_class_eval scores probas s
  = Raise IndexError.
Proof.
  intros Hcover Hshort. cbn [cv_loop]. unfold mbind, M_bind, mret, M_ret, lift.
  destruct (take_rows_cases P train_index) as [(r1 & -> & _) | ->]; [|done].
  destruct (take_rows_cases x_P train_index) as [(r2 & -> & _) | ->]; [|done].
  destruct (take_rows_cases P val_index) as [(r3 & -> & _) | ->]; [|done].
  assert (Hbad : ∀ (P_val : matrix) (s0 : rng) K,
    match
      match take_rows Q train_index with
      | Ok a => Ok (a, s0)
      | Raise e => Raise e
      end
    with
    | Ok (Q_train, s1) =>
        match
          match take_rows x_Q train_index with
          | Ok a => Ok (a, s1)
          | Raise e => Raise e
          end
        with
        | Ok (x_Q_train, s2) =>
            match
              match take_rows Q val_index with
              | Ok a => Ok (a, s2)
              | Raise e => Raise e
              end
            with
            | Ok (Q_val, s3) => K Q_train x_Q_train Q_val s3
            | Raise e => Raise e
            end
        | Raise e => Raise e
        end
    | Raise e => Raise e
    end = (Raise IndexError : result (gmap string (list float) * list (list rat) * rng))).
  { intros P_val s0 K.
    destruct (take_rows_cases Q train_index) as [(r5 & -> & Htrain) | ->]; [|done].
    destruct (take_rows_cases x_Q train_index) as [(r6 & -> & _) | ->]; [|done].
    destruct (take_rows_cases Q val_index) as [(r7 & -> & Hval) | ->]; [|done].
    exfalso. destruct (Hcover (length P - 1)%nat) as [Hin | Hin]; [lia | |].
    - eapply Forall_forall in Htrain; [|done]. cbn in Htrain. lia.
    - eapply Forall_forall in Hval; [|done]. cbn in Hval. lia. }
  destruct P_eval as [P_eval|].
  - destruct (take_rows_cases P_eval val_index) as [(r4 & -> & _) | ->]; [|done].
    apply (Hbad r4).
  - apply (Hbad r3).
Qed.

(** Cross-validation indexes [Q] with the fold indices of [P]: when [Q] has
    fewer rows than [P], [lc2st_scores] raises [IndexError] in the first
    fold, and no classifier is trained. *)
Theorem lc2st_scores_cross_val_short_Q (P Q x_P x_Q x_eval : matrix)
    (P_eval Q_eval : option matrix) (metrics : list string) (classifier : clf_cfg)
    (single_class_eval : bool) (n_folds : nat) (in_sample : bool) (n_ensemble : nat)
    (s : rng) :
  (2 ≤ n_folds)%nat → (n_folds ≤ length P)%nat → (length Q < length P)%nat →
  lc2st_scores train_c2st eval_c2st compute_metric shuffle P Q x_P x_Q x_eval
    P_eval Q_eval metrics classifier single_class_eval true n_folds in_sample n_ensemble s
  = Raise IndexError.
Proof.
  intros Hk Hn Hshort. unfold lc2st_scores, lc2st_scores_cross_val.
  unfold mbind at 1, M_bind at 1. unfold mbind at 1, M_bind at 1, lift, KFold_split.
  rewrite decide_False by lia. rewrite decide_False by lia.
  destruct (reshape (fold_sizes (length P) n_folds) (shuffle (length P)))
    as [|test tests] eqn:Hfolds.
  { apply (f_equal length) in Hfolds. rewrite length_reshape, fold_sizes_length in Hfolds
      by lia. cbn in Hfolds. lia. }
  cbn [map]. destruct (train_val_index (length P) test) as [train_index val_index] eqn:Hfold.
  rewrite cv_loop_short; [done | | done].
  intros i Hi. destruct (train_val_index_cover (length P) test i Hi) as [H | H];
    rewrite Hfold in H; [by left | by right].
Qed.

End WithClassifier.

Lemma lc2st_scores_cross_val_short_Q_witness :
  (2 ≤ 2)%nat ∧ (2 ≤ length [[1%Q]; [2%Q]])%nat ∧ (length [[3%Q]] < length [[1%Q]; [2%Q]])%nat ∧
  lc2st_scores coin_train coin_eval (λ _ _ _, Ok NaN) (λ n, seq 0 n)
    [[1%Q]; [2%Q]] [[3%Q]] [[5%Q]; [6%Q]] [[7%Q]; [8%Q]] [[9%Q]]
    None None ["accuracy"] () true true 2 false 1 0%nat
  = Raise IndexError.
Proof.
  assert (H1 : (2 ≤ length [[1%Q]; [2%Q]])%nat) by (cbn; lia).
  assert (H2 : (length [[3%Q]] < length [[1%Q]; [2%Q]])%nat) by (cbn; lia).
  split; [lia|]. split; [exact H1|]. split; [exact H2|].
  apply (lc2st_scores_cross_val_short_Q coin_train coin_eval (λ _ _ _, Ok NaN) (λ n, seq 0 n)
           [[1%Q]; [2%Q]] [[3%Q]] [[5%Q]; [6%Q]] [[7%Q]; [8%Q]] [[9%Q]]
           None None ["accuracy"] () true 2 false 1 0%nat); [lia | exact H1 | exact H2].
Defined.

End CrossValProofs.

(** ** The SBC bands: analytic in [multi_global_consistency], simulated in
    [global_coverage_pp_plots] *)

Module SBCBandsProofs.
Import NumPy NumPyFacts PPPlots PPPlotsProofs Plots PlotsProofs PlotsMore CoverageProofs.

(** *** The claim in its own words *)

















Section Coverage.

Context {rng : Type}.
Variable rvs : nat → rng → list Q * rng.

(** [rvs(N)] draws [N] numbers. *)
Hypothesis rvs_length : ∀ n s, length (rvs n s).1 = n.








End Coverage.

(** A generator with a state: draw number [s] is [N] times the number
    [s / 4]. *)
Definition counting_rvs : nat → nat → list Q * nat :=
  λ N s, (replicate N (inject_Z (Z.of_nat s) / 4)%Q, S s).


(** Four PIT values and a grid of three points: the analytic bounds. *)
Example consistency_band_4_3 :
  consistency_band [[0%Q; 0%Q; 0%Q; 0%Q]] [(1 # 4)%Q; (1 # 2)%Q; 1%Q]
  = Ok ([Fin 0; Fin 0; Fin 4], [Fin 4; Fin 4; Fin 4]).
Proof. vm_compute. reflexivity. Qed.

(** Two ranks in two dimensions, two trials and the level 0.05: on the
    second axis the draws are [1/2, 1/2] and [3/4, 3/4], their PP-values at
    [1/2] are [1] and [0], and the bounds there are the quantiles of levels
    [0.0125] and [0.9875] of these two values. *)
Example global_coverage_bands_counting :
  global_coverage_bands counting_rvs None (1 # 20) [[0%Q; 0%Q]; [0%Q; 0%Q]]
    [(1 # 4)%Q; (1 # 2)%Q] 2 0%nat
  = Ok ([([Fin (640 # 640); Fin (640 # 640)], [Fin (640 # 640); Fin (640 # 640)]);
         ([Fin (0 # 640); Fin (8 # 640)], [Fin (0 # 640); Fin (632 # 640)])], 4%nat).
Proof. vm_compute. reflexivity. Qed.

(** Without any trial the frame of simulated PP-values has no column and
    its quantile raises. *)
Example global_coverage_bands_no_trial :
  global_coverage_bands (constant_rvs (3 # 4)) None (1 # 20) [[0%Q; 0%Q]; [0%Q; 0%Q]]
    [(1 # 2)%Q] 0 ()
  = Raise ValueError.
Proof. vm_compute. reflexivity. Qed.




End SBCBandsProofs.
